(** * Backgammon engine, minimax search and fuzzy evaluator

    A shallow embedding of [New/engine_core.py], [New/ai_minimax.py] and
    [New/ai_fuzzy.py], and the properties of the specification checked
    against it.

    Python integers are [Z].  A Python exception is a value of [exn]; a
    function that can raise returns a [result].  A method that mutates its
    receiver in place is a computation [M S A] over the receiver's state
    [S]: the state is returned together with the outcome, also when the
    outcome is an exception, because a mutation made before a [raise] is
    not rolled back.

    Python floats are IEEE binary64 numbers, Rocq's primitive [float].  The
    float code of [ai_fuzzy.py] is written once over an interface of
    arithmetic operations, [Arith], and read twice: with [float], where it
    computes what Python computes, and with the rationals [Q], where each
    operation is exact. *)

From Stdlib Require Import ZArith List Bool Lia QArith Qabs Lqa Floats Uint63
  Permutation Sorted.
Import ListNotations.
Local Open Scope Z_scope.

(* ================================================================== *)
(** * Exceptions, results and in-place mutation *)

Inductive exn : Type :=
| ValueError
| RuntimeError
| IndexError
| ZeroDivisionError
| Diverged   (* not a Python exception: the model's recursion budget ran out *)
| Dangling.  (* not a Python exception: an address that was never allocated *)

Inductive result (A : Type) : Type :=
| Ok (a : A)
| Raise (e : exn).
Arguments Ok {A} a.
Arguments Raise {A} e.

Definition rbind {A B} (r : result A) (k : A -> result B) : result B :=
  match r with
  | Ok a => k a
  | Raise e => Raise e
  end.

Declare Scope py_scope.
Delimit Scope py_scope with py.
Notation "x <- r ;; k" := (rbind r (fun x => k))
  (at level 61, r at next level, right associativity) : py_scope.

(** [M S A]: a computation on a mutable object of state [S]. *)
Definition M (S A : Type) : Type := S -> result A * S.

Definition ret {S A} (a : A) : M S A := fun s => (Ok a, s).
Definition throw {S A} (e : exn) : M S A := fun s => (Raise e, s).
Definition bind {S A B} (m : M S A) (k : A -> M S B) : M S B :=
  fun s => match m s with
           | (Ok a, s') => k a s'
           | (Raise e, s') => (Raise e, s')
           end.
(** A read-only query of the object. *)
Definition query {S A} (f : S -> result A) : M S A := fun s => (f s, s).
Definition modify {S} (f : S -> S) : M S unit := fun s => (Ok tt, f s).

Declare Scope mut_scope.
Delimit Scope mut_scope with mut.
Notation "x <-- m ;; k" := (bind m (fun x => k))
  (at level 61, m at next level, right associativity) : mut_scope.
Notation "m ;;; k" := (bind m (fun _ => k))
  (at level 61, right associativity) : mut_scope.

Definition lift {S A} (r : result A) : M S A := fun s => (r, s).

(** [for x in l: body] threading the loop-carried value [acc]. *)
Fixpoint rfold {A B} (body : B -> A -> result B) (l : list A) (acc : B)
  : result B :=
  match l with
  | [] => Ok acc
  | x :: l' => rbind (body acc x) (rfold body l')
  end.

Fixpoint mfold {S A B} (body : B -> A -> M S B) (l : list A) (acc : B)
  : M S B :=
  match l with
  | [] => ret acc
  | x :: l' => bind (body acc x) (mfold body l')
  end.

(** A loop with [break]: the body says whether to leave the loop. *)
Fixpoint mloop {S A B} (body : B -> A -> M S (B * bool)) (l : list A)
    (acc : B) : M S B :=
  match l with
  | [] => ret acc
  | x :: l' =>
      bind (body acc x)
           (fun r => if snd r then ret (fst r) else mloop body l' (fst r))
  end.

(* ------------------------------------------------------------------ *)
(** ** Python floats *)

Class Arith (F : Type) : Type := {
  lit : Z -> Z -> F;          (* the literal whose value is n/d *)
  fadd : F -> F -> F;
  fsub : F -> F -> F;
  fmul : F -> F -> F;
  fquot : F -> F -> F;        (* the quotient, for a divisor that is not 0 *)
  fneg : F -> F;
  fltb : F -> F -> bool;
  fleb : F -> F -> bool;
  feqb : F -> F -> bool
}.

Declare Scope fl_scope.
Delimit Scope fl_scope with fl.
Notation "x + y" := (fadd x y) : fl_scope.
Notation "x - y" := (fsub x y) : fl_scope.
Notation "x * y" := (fmul x y) : fl_scope.
Notation "- x" := (fneg x) : fl_scope.
Notation "x <? y" := (fltb x y) : fl_scope.
Notation "x <=? y" := (fleb x y) : fl_scope.
Notation "x =? y" := (feqb x y) : fl_scope.

(** [float(z)] for an integer below 2^63 in absolute value. *)
Definition float_of_Z (z : Z) : float :=
  if (z <? 0)%Z then PrimFloat.opp (PrimFloat.of_uint63 (Uint63.of_Z (- z)))
  else PrimFloat.of_uint63 (Uint63.of_Z z).

(** Binary64: a decimal literal is the float nearest to its value, which
    is what the correctly rounded quotient of numerator and denominator
    gives. *)
#[global] Instance float_arith : Arith float := {
  lit n d := PrimFloat.div (float_of_Z n) (float_of_Z d);
  fadd := PrimFloat.add;
  fsub := PrimFloat.sub;
  fmul := PrimFloat.mul;
  fquot := PrimFloat.div;
  fneg := PrimFloat.opp;
  fltb := PrimFloat.ltb;
  fleb := PrimFloat.leb;
  feqb := PrimFloat.eqb
}.

(** Exact arithmetic. *)
#[global] Instance exact_arith : Arith Q := {
  lit n d := Qmake n (Z.to_pos d);
  fadd := Qplus;
  fsub := Qminus;
  fmul := Qmult;
  fquot := Qdiv;
  fneg := Qopp;
  fltb x y := negb (Qle_bool y x);
  fleb := Qle_bool;
  feqb := Qeq_bool
}.

Section PyFloat.
Context {F : Type} `{Arith F}.

(** An integer used where a float is expected. *)
Definition int (z : Z) : F := lit z 1.

(** [x / y] *)
Definition fdiv (x y : F) : result F :=
  if (y =? int 0)%fl then Raise ZeroDivisionError else Ok (fquot x y).

(** [max(a, b)] keeps [a] unless [b > a]; [min(a, b)] keeps [a] unless
    [b < a]. *)
Definition fmax (a b : F) : F := if (a <? b)%fl then b else a.
Definition fmin (a b : F) : F := if (b <? a)%fl then b else a.
Definition fmin3 (a b c : F) : F := fmin (fmin a b) c.

End PyFloat.

(* ------------------------------------------------------------------ *)
(** ** Python lists *)

(** [l[i]]: a negative index counts from the end, anything outside
    [-len(l) .. len(l)-1] raises [IndexError]. *)
Definition py_index {A} (l : list A) (i : Z) : option nat :=
  let n := Z.of_nat (length l) in
  if (0 <=? i) && (i <? n) then Some (Z.to_nat i)
  else if (- n <=? i) && (i <? 0) then Some (Z.to_nat (i + n))
  else None.

Definition getitem {A} (l : list A) (i : Z) : result A :=
  match py_index l i with
  | Some k => match nth_error l k with
              | Some x => Ok x
              | None => Raise IndexError
              end
  | None => Raise IndexError
  end.

Fixpoint list_set {A} (k : nat) (x : A) (l : list A) : list A :=
  match l, k with
  | [], _ => []
  | _ :: l', O => x :: l'
  | y :: l', S k' => y :: list_set k' x l'
  end.

(** [l1 == l2] on lists (and tuples). *)
Fixpoint list_eqb {A} (eqb : A -> A -> bool) (l1 l2 : list A) : bool :=
  match l1, l2 with
  | [], [] => true
  | x :: l1', y :: l2' => eqb x y && list_eqb eqb l1' l2'
  | _, _ => false
  end.

(** [enumerate(l)] *)
Fixpoint enumerate_from {A} (i : Z) (l : list A) : list (Z * A) :=
  match l with
  | [] => []
  | x :: l' => (i, x) :: enumerate_from (i + 1) l'
  end.
Definition enumerate {A} (l : list A) : list (Z * A) := enumerate_from 0 l.

(** [l.remove(x)]: drops the first occurrence, [ValueError] when absent. *)
Fixpoint list_remove (x : Z) (l : list Z) : result (list Z) :=
  match l with
  | [] => Raise ValueError
  | y :: l' => if y =? x then Ok l'
               else rbind (list_remove x l') (fun r => Ok (y :: r))
  end.

(** [sorted(l)] on integers. *)
Fixpoint insert_sorted (x : Z) (l : list Z) : list Z :=
  match l with
  | [] => [x]
  | y :: l' => if x <=? y then x :: l else y :: insert_sorted x l'
  end.
Definition sorted (l : list Z) : list Z := fold_right insert_sorted [] l.

(* ================================================================== *)
(** * engine_core.py *)

Inductive Player : Type := WHITE | BLACK.

Definition opponent (p : Player) : Player :=
  match p with WHITE => BLACK | BLACK => WHITE end.

Definition Player_eqb (p q : Player) : bool :=
  match p, q with
  | WHITE, WHITE | BLACK, BLACK => true
  | _, _ => false
  end.

Record Move : Type := mkMove { start : Z; end_ : Z; die : Z }.

Record TurnRoute : Type := mkRoute { moves : list Move }.

Record Point : Type := mkPoint { checkers : Z; owner : option Player }.

(** [pt.owner == p] *)
Definition owner_is (pt : Point) (p : Player) : bool :=
  match owner pt with
  | Some q => Player_eqb q p
  | None => false
  end.

Module Point_.

Definition add (o : Player) (n : Z) : M Point unit := fun self =>
  match owner self with
  | None => (Ok tt, mkPoint n (Some o))
  | Some o' =>
      if negb (Player_eqb o' o) then (Raise ValueError, self)
      else (Ok tt, mkPoint (checkers self + n) (Some o'))
  end.

Definition remove (n : Z) : M Point unit := fun self =>
  if checkers self <? n then (Raise ValueError, self)
  else
    let c := checkers self - n in
    (Ok tt, mkPoint c (if c =? 0 then None else owner self)).

End Point_.

Record Board : Type := mkBoard { points : list Point }.

(** [board.points[idx].method(...)]: the point is mutated in place inside
    the board's list. *)
Definition at_point {A} (idx : Z) (m : M Point A) : M Board A := fun b =>
  match py_index (points b) idx with
  | None => (Raise IndexError, b)
  | Some k =>
      match nth_error (points b) k with
      | None => (Raise IndexError, b)
      | Some pt => let (r, pt') := m pt in
                   (r, mkBoard (list_set k pt' (points b)))
      end
  end.

Definition bar_index (p : Player) : Z :=
  match p with WHITE => 0 | BLACK => 26 end.

Definition off_index (p : Player) : Z :=
  match p with WHITE => 25 | BLACK => 27 end.

Definition dir (p : Player) : Z :=
  match p with WHITE => -1 | BLACK => 1 end.

(** [i in home_range(p)] *)
Definition in_home_range (p : Player) (i : Z) : bool :=
  match p with
  | WHITE => (1 <=? i) && (i <? 7)
  | BLACK => (19 <=? i) && (i <? 25)
  end.

Definition empty_board : Board := mkBoard (repeat (mkPoint 0 None) 28).

Definition put (idx n : Z) (o : Player) : M Board unit :=
  at_point idx (Point_.add o n).

Definition standard_setup_m : M Board unit :=
  (put 24 2 WHITE ;;;
   put 13 5 WHITE ;;;
   put 8 3 WHITE ;;;
   put 6 5 WHITE ;;;
   put 1 2 BLACK ;;;
   put 12 5 BLACK ;;;
   put 17 3 BLACK ;;;
   put 19 5 BLACK)%mut.

Definition standard_setup : Board := snd (standard_setup_m empty_board).

Definition on_board (idx : Z) : bool := (1 <=? idx) && (idx <=? 24).

Definition is_blocked_for (b : Board) (idx : Z) (p : Player) : result bool :=
  if negb (on_board idx) then Ok false
  else (pt <- getitem (points b) idx ;;
        Ok (owner_is pt (opponent p) && (2 <=? checkers pt)))%py.

Definition can_hit (b : Board) (idx : Z) (p : Player) : result bool :=
  if negb (on_board idx) then Ok false
  else (pt <- getitem (points b) idx ;;
        Ok (owner_is pt (opponent p) && (checkers pt =? 1)))%py.

Definition all_in_home (b : Board) (p : Player) : bool :=
  forallb (fun ip : Z * Point =>
             let (i, pt) := ip in
             negb (owner_is pt p
                   && (negb (in_home_range p i) && negb (i =? off_index p))))
          (enumerate (points b)).

Definition count_on_bar (b : Board) (p : Player) : result Z :=
  (pt <- getitem (points b) (bar_index p) ;; Ok (checkers pt))%py.

Definition count_off (b : Board) (p : Player) : result Z :=
  (pt <- getitem (points b) (off_index p) ;; Ok (checkers pt))%py.

(* ------------------------------------------------------------------ *)
(** ** Move generation helpers *)

Definition entry_point (p : Player) (d : Z) : Z :=
  match p with WHITE => 25 - d | BLACK => d end.

(** The body of the loop [for d in dice_list] of the bar branch. *)
Definition enter_step (b : Board) (player : Player)
    (res : list (Z * Z)) (d : Z) : result (list (Z * Z)) :=
  let e := entry_point player d in
  if on_board e then
    (blk <- is_blocked_for b e player ;;
     Ok (if negb blk then res ++ [(d, e)] else res))%py
  else Ok res.

(** The body of the loop [for d in dice_list] of the board-point branch. *)
Definition point_step (b : Board) (player : Player) (start_idx : Z)
    (res : list (Z * Z)) (d : Z) : result (list (Z * Z)) :=
  let e := start_idx + dir player * d in
  if match player with WHITE => e <? 1 | BLACK => 24 <? e end then
    Ok (if all_in_home b player then res ++ [(d, off_index player)] else res)
  else if on_board e then
    (blk <- is_blocked_for b e player ;;
     Ok (if negb blk then res ++ [(d, e)] else res))%py
  else Ok res.

Definition legal_single_targets (b : Board) (player : Player)
    (start_idx : Z) (dice : list Z) : result (list (Z * Z)) :=
  (n_bar <- count_on_bar b player ;;
   if (0 <? n_bar) && negb (start_idx =? bar_index player) then Ok []
   else if start_idx =? bar_index player then
     rfold (enter_step b player) dice []
   else if negb (on_board start_idx) then Ok []
   else
     pt <- getitem (points b) start_idx ;;
     if negb (owner_is pt player) || (checkers pt <=? 0) then Ok []
     else rfold (point_step b player start_idx) dice [])%py.

Definition apply_single_move (player : Player) (start_ end__ : Z)
  : M Board unit :=
  (at_point start_ (Point_.remove 1) ;;;
   if end__ =? off_index player then
     at_point (off_index player) (Point_.add player 1)
   else
     hit <-- query (fun b => can_hit b end__ player) ;;
     (if hit : bool then
        at_point end__ (Point_.remove 1) ;;;
        at_point (bar_index (opponent player))
                 (Point_.add (opponent player) 1)
      else ret tt) ;;;
     pt <-- query (fun b => getitem (points b) end__) ;;
     match owner pt with
     | None => at_point end__ (Point_.add player 1)
     | Some o => if Player_eqb o player
                 then at_point end__ (Point_.add player 1)
                 else throw RuntimeError
     end)%mut.

(* ------------------------------------------------------------------ *)
(** ** Full-turn route generation

    [generate_all_routes] receives a reference to a board object, clones
    it and mutates the clones.  Board objects therefore live in a heap and
    are named by their address; [b.clone()] allocates a fresh address. *)

Definition ref : Type := nat.

(** The heap of board objects and the list [routes] that the nested
    function [backtrack] appends to. *)
Record GenState : Type := mkGen { heap : list Board; routes : list TurnRoute }.

(** A method call on the board object at address [r]. *)
Definition on_heap {A} (r : ref) (m : M Board A) : M (list Board) A := fun h =>
  match nth_error h r with
  | None => (Raise Dangling, h)
  | Some b => let (x, b') := m b in (x, list_set r b' h)
  end.

Definition at_board {A} (r : ref) (m : M Board A) : M GenState A := fun s =>
  let (x, h') := on_heap r m (heap s) in (x, mkGen h' (routes s)).

(** [legal_single_targets(board, ...)] called on a board object. *)
Definition legal_single_targets_at (b : ref) (player : Player)
    (start_idx : Z) (dice : list Z) : M (list Board) (list (Z * Z)) :=
  on_heap b (query (fun bd => legal_single_targets bd player start_idx dice)).

(** [b.clone()] *)
Definition clone (r : ref) : M GenState ref := fun s =>
  match nth_error (heap s) r with
  | None => (Raise Dangling, s)
  | Some b => (Ok (length (heap s)), mkGen (heap s ++ [b]) (routes s))
  end.

(** [routes.append(TurnRoute(moves=acc[:]))] *)
Definition record_route (acc : list Move) : M GenState unit :=
  modify (fun s => mkGen (heap s) (routes s ++ [mkRoute acc])).

Definition Key : Type := Z * Z * Z * list Z.

Definition Key_eqb (k1 k2 : Key) : bool :=
  let '(s1, e1, d1, r1) := k1 in
  let '(s2, e2, d2, r2) := k2 in
  (s1 =? s2) && (e1 =? e2) && (d1 =? d2) && list_eqb Z.eqb r1 r2.

(** The locals [used_any] and [used_mask] of one activation of
    [backtrack]. *)
Record Locals : Type := mkLocals { used_any : bool; used_mask : list Key }.

(** [range(1, 25)] *)
Definition all_starts : list Z := map Z.of_nat (seq 1 24).

(** The list [cands] built for one [start]. *)
Definition candidates (b : Board) (player : Player) (start_ : Z)
    (remaining : list Z) : result (list (Z * Z)) :=
  rfold (fun cands d =>
           (l <- legal_single_targets b player start_ [d] ;;
            Ok (cands ++ l))%py)
        remaining [].

(** The origins explored from a board. *)
Definition starts_of (b : Board) (player : Player) : result (list Z) :=
  (n_bar <- count_on_bar b player ;;
   Ok (if 0 <? n_bar then [bar_index player] else all_starts))%py.

Section Backtrack.
Variable player : Player.
(** The recursive call [backtrack(b2, rem, acc)]. *)
Variable recurse : ref -> list Z -> list Move -> M GenState unit.
Variables (b : ref) (remaining : list Z) (acc : list Move).

(** The body of [for die, end in cands]. *)
Definition try_candidate (start_ : Z) (loc : Locals) (c : Z * Z)
  : M GenState Locals :=
  let (die_, end__) := c in
  let key := (start_, end__, die_, sorted remaining) in
  if existsb (Key_eqb key) (used_mask loc) then ret loc
  else
    (b2 <-- clone b ;;
     at_board b2 (apply_single_move player start_ end__) ;;;
     rem <-- lift (list_remove die_ remaining) ;;
     recurse b2 rem (acc ++ [mkMove start_ end__ die_]) ;;;
     ret (mkLocals true (key :: used_mask loc)))%mut.

(** The body of [for start in starts]. *)
Definition explore_start (loc : Locals) (start_ : Z) : M GenState Locals :=
  (cands <-- at_board b
     (query (fun bd => candidates bd player start_ remaining)) ;;
   mfold (try_candidate start_) cands loc)%mut.

(** [backtrack] when some die remains. *)
Definition explore : M GenState unit :=
  (starts <-- at_board b (query (fun bd => starts_of bd player)) ;;
   loc <-- mfold explore_start starts (mkLocals false []) ;;
   if negb (used_any loc) then record_route acc else ret tt)%mut.

End Backtrack.

Fixpoint backtrack (fuel : nat) (player : Player) (b : ref)
    (remaining : list Z) (acc : list Move) {struct fuel} : M GenState unit :=
  match remaining with
  | [] => record_route acc
  | _ :: _ =>
      match fuel with
      | O => throw Diverged
      | S fuel' => explore player (backtrack fuel' player) b remaining acc
      end
  end.

(** The dictionary [uniq], in insertion order of its keys. *)
Definition route_key (r : TurnRoute) : list (Z * Z * Z) :=
  map (fun m => (start m, end_ m, die m)) (moves r).

Definition triple_eqb (a b : Z * Z * Z) : bool :=
  let '(a1, a2, a3) := a in
  let '(b1, b2, b3) := b in
  (a1 =? b1) && (a2 =? b2) && (a3 =? b3).

Definition route_key_eqb (k1 k2 : list (Z * Z * Z)) : bool :=
  list_eqb triple_eqb k1 k2.

(** [uniq[k] = r] *)
Fixpoint dict_set (k : list (Z * Z * Z)) (r : TurnRoute)
    (d : list (list (Z * Z * Z) * TurnRoute)) :=
  match d with
  | [] => [(k, r)]
  | (k', r') :: d' => if route_key_eqb k' k then (k', r) :: d'
                      else (k', r') :: dict_set k r d'
  end.

Definition dedup (rs : list TurnRoute) : list TurnRoute :=
  map snd (fold_left (fun d r => dict_set (route_key r) r d) rs []).

Definition generate_all_routes (b : ref) (player : Player) (dice : list Z)
  : M (list Board) (list TurnRoute) := fun h =>
  let (r, s) := backtrack (length dice) player b dice [] (mkGen h []) in
  (rbind r (fun _ => Ok (dedup (routes s))), heap s).

(* ------------------------------------------------------------------ *)
(** ** Engine wrapper *)

Record Engine : Type := mkEngine { board : Board; turn : Player; dice : list Z }.

Module Engine_.

Definition new_game : Engine := mkEngine standard_setup WHITE [].

Definition legal_targets_from (e : Engine) (start_idx : Z)
  : result (list (Z * Z)) :=
  legal_single_targets (board e) (turn e) start_idx (dice e).

(** The engine's board object is the only object of the heap handed to
    the generator. *)
Definition generate_routes (e : Engine) : result (list TurnRoute) :=
  fst (generate_all_routes 0%nat (turn e) (dice e) [board e]).

Definition on_engine_board {A} (m : M Board A) : M Engine A := fun e =>
  let (r, b') := m (board e) in (r, mkEngine b' (turn e) (dice e)).

(** [try: self.dice.remove(m.die) except ValueError: pass] *)
Definition discard_die (d : Z) : M Engine unit := fun e =>
  match list_remove d (dice e) with
  | Ok ds => (Ok tt, mkEngine (board e) (turn e) ds)
  | Raise ValueError => (Ok tt, e)
  | Raise x => (Raise x, e)
  end.

(** The body of the loop [for m in route.moves]. *)
Definition apply_move (m : Move) : M Engine unit := fun e =>
  (on_engine_board (apply_single_move (turn e) (start m) (end_ m)) ;;;
   discard_die (die m))%mut e.

Definition apply_route (route : TurnRoute) : M Engine unit :=
  mfold (fun _ m => apply_move m) (moves route) tt.

Definition end_turn : M Engine unit :=
  modify (fun e => mkEngine (board e) (opponent (turn e)) []).

Definition has_won (e : Engine) (p : Player) : result bool :=
  (n <- count_off (board e) p ;; Ok (15 <=? n))%py.

End Engine_.

(* ================================================================== *)
(** * ai_minimax.py *)

Section Weights.
Context {F : Type} `{Arith F}.

Record EvalWeights : Type := mkWeights {
  pip_weight : F;
  blot_weight : F;
  anchor_weight : F;
  bar_penalty : F;
  opp_bar_pressure : F;
  home_progress_w : F;     (* the field [home_progress] *)
  borne_off_weight : F;
  blockade_weight : F
}.

Definition DEFAULT_WEIGHTS : EvalWeights :=
  mkWeights (lit (-9) 10) (lit (-8) 10) (lit 6 10) (lit (-12) 10)
            (lit 7 10) (lit 6 10) (lit 11 10) (lit 4 10).

End Weights.
Arguments EvalWeights F : clear implicits.

Module Evaluator.
Section Evaluator.
Context {F : Type} `{Arith F}.

Definition pip_count (b : Board) (me : Player) : Z :=
  fold_left
    (fun pip (ip : Z * Point) =>
       let (i, pt) := ip in
       if owner_is pt me && on_board i then
         match me with
         | WHITE => pip + i * checkers pt
         | BLACK => pip + (25 - i) * checkers pt
         end
       else pip)
    (enumerate (points b)) 0.

Definition blot_count (b : Board) (me : Player) : Z :=
  fold_left
    (fun n (ip : Z * Point) =>
       let (i, pt) := ip in
       if owner_is pt me && (checkers pt =? 1) && on_board i
       then n + 1 else n)
    (enumerate (points b)) 0.

Definition anchor_count (b : Board) (me : Player) : Z :=
  fold_left
    (fun n (ip : Z * Point) =>
       let (i, pt) := ip in
       if owner_is pt me && (2 <=? checkers pt) && on_board i
       then n + 1 else n)
    (enumerate (points b)) 0.

Definition count_on_bar (b : Board) (p : Player) : result Z :=
  (pt <- getitem (points b) (match p with WHITE => 0 | BLACK => 25 end) ;;
   Ok (checkers pt))%py.

Definition count_borne_off (b : Board) (p : Player) : result Z :=
  (pt <- getitem (points b) (match p with WHITE => 25 | BLACK => 0 end) ;;
   Ok (checkers pt))%py.

(** The sums [total] and [inside] of [home_progress]. *)
Definition home_sums (b : Board) (me : Player) : Z * Z :=
  let off_idx := match me with WHITE => 25 | BLACK => 0 end in
  fold_left
    (fun (ti : Z * Z) (ip : Z * Point) =>
       let (total_, inside) := ti in
       let (i, pt) := ip in
       if owner_is pt me then
         (total_ + checkers pt,
          if in_home_range me i || (i =? off_idx)
          then inside + checkers pt else inside)
       else ti)
    (enumerate (points b)) (0, 0).

Definition home_progress (b : Board) (me : Player) : result F :=
  let (total_, inside) := home_sums b me in
  if total_ =? 0 then Ok (int 1) else fdiv (int inside) (int total_).

Definition blockade_score (b : Board) (me : Player) : result F :=
  (sr <- rfold
     (fun (sr : F * Z) i =>
        let (score, run) := sr in
        pt <- getitem (points b) i ;;
        Ok (if owner_is pt me && (2 <=? checkers pt)
            then ((score + lit 5 10 * int (run + 1))%fl, run + 1)
            else (score, 0)))
     (map Z.of_nat (seq 1 24)) (int 0, 0) ;;
   Ok (fst sr))%py.

Definition evaluate (b : Board) (side_to_move : Player)
    (w : EvalWeights F) : result F :=
  let me := side_to_move in
  let opp := opponent me in
  let pip_me := pip_count b me in
  let pip_opp := pip_count b opp in
  let bl_me := blot_count b me in
  let bl_opp := blot_count b opp in
  let an_me := anchor_count b me in
  let an_opp := anchor_count b opp in
  (bar_me <- count_on_bar b me ;;
   bar_opp <- count_on_bar b opp ;;
   off_me <- count_borne_off b me ;;
   off_opp <- count_borne_off b opp ;;
   hm_me <- home_progress b me ;;
   hm_opp <- home_progress b opp ;;
   blk_me <- blockade_score b me ;;
   blk_opp <- blockade_score b opp ;;
   let score := int 0 in
   let score :=
     (score + (pip_weight w * int pip_me + (- pip_weight w) * int pip_opp))%fl in
   let score :=
     (score + (blot_weight w * int bl_me + (- blot_weight w) * int bl_opp))%fl in
   let score := (score + anchor_weight w * int (an_me - an_opp))%fl in
   let score :=
     (score + (bar_penalty w * int bar_me + opp_bar_pressure w * int bar_opp))%fl in
   let score := (score + home_progress_w w * (hm_me - hm_opp))%fl in
   let score := (score + borne_off_weight w * int (off_me - off_opp))%fl in
   let score := (score + blockade_weight w * (blk_me - blk_opp))%fl in
   Ok score)%py.

End Evaluator.
End Evaluator.

Record SearchDebug : Type := mkDebug {
  nodes : Z;
  leaf_evals : Z;
  best_line : list TurnRoute
}.

(** What the search mutates besides its own clones: the state of the
    random number generator (how many draws were made) and the shared
    [debug] object. *)
Record World : Type := mkWorld { draws : nat; debug : SearchDebug }.

Definition is_empty {A} (l : list A) : bool :=
  match l with [] => true | _ => false end.

Section Search.
(** The generator [random]: the values its successive calls return. *)
Variable randint_1_6 : nat -> Z.
Variable random_random : nat -> float.

Definition randint : M World Z := fun w =>
  (Ok (1 + randint_1_6 (draws w) mod 6), mkWorld (S (draws w)) (debug w)).

Definition random : M World float := fun w =>
  (Ok (random_random (draws w)), mkWorld (S (draws w)) (debug w)).

Definition roll_dice : M World (list Z) :=
  (a <-- randint ;;
   b <-- randint ;;
   ret (if a =? b then [a; b; a; b] else [a; b]))%mut.

(** [engine.roll()] *)
Definition roll (e : Engine) : M World Engine :=
  (d <-- roll_dice ;; ret (mkEngine (board e) (turn e) d))%mut.

Definition _apply_route_on_clone (engine : Engine) (route : TurnRoute)
  : result Engine :=
  let (r, e2) :=
    (Engine_.apply_route route ;;; Engine_.end_turn)%mut engine in
  rbind r (fun _ => Ok e2).

Definition _opponent_roll (engine : Engine) : M World Engine := roll engine.

Definition _terminal_eval (engine : Engine)
    (eval_fn : Board -> Player -> result float) : result float :=
  eval_fn (board engine) (turn engine).

(** [math.isclose(a, b)] with the default tolerances. *)
Definition isclose (a b : float) : bool :=
  if PrimFloat.eqb a b then true
  else if PrimFloat.eqb (PrimFloat.abs a) infinity
          || PrimFloat.eqb (PrimFloat.abs b) infinity then false
  else
    let diff := PrimFloat.abs (PrimFloat.sub b a) in
    let rel_tol : float := lit 1 1000000000 in
    PrimFloat.leb diff (PrimFloat.abs (PrimFloat.mul rel_tol b))
    || PrimFloat.leb diff (PrimFloat.abs (PrimFloat.mul rel_tol a))
    || PrimFloat.leb diff 0%float.

Definition count_node : M World unit :=
  modify (fun w =>
    mkWorld (draws w)
      (mkDebug (nodes (debug w) + 1) (leaf_evals (debug w))
               (best_line (debug w)))).

Definition count_leaf : M World unit :=
  modify (fun w =>
    mkWorld (draws w)
      (mkDebug (nodes (debug w)) (leaf_evals (debug w) + 1)
               (best_line (debug w)))).

(** The locals carried by the loop over [routes] and by the loop over
    [opp_routes]. *)
Record Outer : Type := mkOuter {
  best_score : float; best_line_ : list TurnRoute;
  alpha_ : float; beta_ : float
}.
Record Inner : Type := mkInner {
  worst_for_me : float; worst_reply_line : list TurnRoute;
  beta_in : float
}.

Fixpoint minimax (fuel : nat) (engine : Engine) (depth : Z)
    (eval_fn : Board -> Player -> result float) (alpha beta : float)
    {struct fuel} : M World (float * list TurnRoute) :=
  match fuel with
  | O => throw Diverged
  | S fuel' =>
    (count_node ;;;
     routes <-- lift (Engine_.generate_routes engine) ;;
     if (depth =? 0) || is_empty routes then
       count_leaf ;;;
       v <-- lift (_terminal_eval engine eval_fn) ;;
       ret (v, [])
     else
       st <-- mloop
         (fun st r =>
            after_my <-- lift (_apply_route_on_clone engine r) ;;
            after_opp_roll <-- _opponent_roll after_my ;;
            opp_routes <-- lift (Engine_.generate_routes after_opp_roll) ;;
            sl <--
              (if is_empty opp_routes || (depth - 1 =? 0) then
                 score <-- lift (_terminal_eval after_opp_roll eval_fn) ;;
                 ret (score, [r], beta_ st)
               else
                 inn <-- mloop
                   (fun inn oroute =>
                      after_opp <-- lift (_apply_route_on_clone
                                            after_opp_roll oroute) ;;
                      after_opp <-- (if 0 <? depth - 2 then roll after_opp
                                     else ret after_opp) ;;
                      res <-- minimax fuel' after_opp (depth - 2) eval_fn
                                (PrimFloat.opp (beta_in inn))
                                (PrimFloat.opp (alpha_ st)) ;;
                      let sc := PrimFloat.opp (fst res) in
                      let inn1 :=
                        if PrimFloat.ltb sc (worst_for_me inn)
                        then mkInner sc ([r; oroute] ++ snd res) (beta_in inn)
                        else inn in
                      let beta' :=
                        fmin (beta_in inn1)
                             (PrimFloat.opp (worst_for_me inn1)) in
                      ret (mkInner (worst_for_me inn1)
                                   (worst_reply_line inn1) beta',
                           PrimFloat.leb beta' (alpha_ st)))
                   opp_routes (mkInner infinity [] (beta_ st)) ;;
                 ret (worst_for_me inn, worst_reply_line inn, beta_in inn)) ;;
            let '(score, line, beta') := sl in
            better <--
              (if PrimFloat.ltb (best_score st) score then ret true
               else if isclose score (best_score st) then
                 x <-- random ;; ret (PrimFloat.ltb x (lit 5 10))
               else ret false) ;;
            let st1 :=
              if better : bool
              then mkOuter score line (alpha_ st) beta'
              else mkOuter (best_score st) (best_line_ st) (alpha_ st) beta'
            in
            let alpha' := fmax (alpha_ st1) (best_score st1) in
            ret (mkOuter (best_score st1) (best_line_ st1) alpha' beta',
                 PrimFloat.leb beta' alpha'))
         routes (mkOuter neg_infinity [] alpha beta) ;;
       ret (best_score st, best_line_ st))%mut
  end.

(** [debug.best_line = line] *)
Definition set_best_line (line : list TurnRoute) : M World unit :=
  modify (fun w =>
    mkWorld (draws w)
      (mkDebug (nodes (debug w)) (leaf_evals (debug w)) line)).

(** [pick_best_route] builds its own [debug] object; [fuel] bounds the
    depth of the recursion. *)
Definition pick_best_route (fuel : nat) (engine : Engine) (depth : Z)
    (eval_weights : EvalWeights float)
  : M World (option TurnRoute * float) := fun w =>
  let eval_fn b side := Evaluator.evaluate b side eval_weights in
  (res <-- minimax fuel engine depth eval_fn neg_infinity infinity ;;
   set_best_line (snd res) ;;;
   ret (hd_error (snd res), fst res))%mut
    (mkWorld (draws w) (mkDebug 0 0 [])).

End Search.

(* ================================================================== *)
(** * ai_fuzzy.py *)

Module Fuzzy.
Section Fuzzy.
Context {F : Type} `{Arith F}.

Definition pip_count (b : Board) (p : Player) : Z :=
  fold_left
    (fun pip (ip : Z * Point) =>
       let (i, pt) := ip in
       if owner_is pt p && on_board i then
         pip + (match p with WHITE => i | BLACK => 25 - i end) * checkers pt
       else pip)
    (enumerate (points b)) 0.

Definition blot_count (b : Board) (p : Player) : Z :=
  fold_left
    (fun n (ip : Z * Point) =>
       let (i, pt) := ip in
       if on_board i && owner_is pt p && (checkers pt =? 1)
       then n + 1 else n)
    (enumerate (points b)) 0.

Definition anchor_count (b : Board) (p : Player) : Z :=
  fold_left
    (fun n (ip : Z * Point) =>
       let (i, pt) := ip in
       if on_board i && owner_is pt p && (2 <=? checkers pt)
       then n + 1 else n)
    (enumerate (points b)) 0.

Definition on_bar (b : Board) (p : Player) : result Z :=
  (pt <- getitem (points b) (match p with WHITE => 0 | BLACK => 25 end) ;;
   Ok (checkers pt))%py.

Definition borne_off (b : Board) (p : Player) : result Z :=
  (pt <- getitem (points b) (match p with WHITE => 25 | BLACK => 0 end) ;;
   Ok (checkers pt))%py.

Definition home_progress (b : Board) (p : Player) : result F :=
  let off := match p with WHITE => 25 | BLACK => 0 end in
  let (total_, inside) :=
    fold_left
      (fun (ti : Z * Z) (ip : Z * Point) =>
         let (total_, inside) := ti in
         let (i, pt) := ip in
         if owner_is pt p then
           (total_ + checkers pt,
            if in_home_range p i || (i =? off)
            then inside + checkers pt else inside)
         else ti)
      (enumerate (points b)) (0, 0) in
  if total_ =? 0 then Ok (int 1) else fdiv (int inside) (int total_).

Definition hits_made (prev nxt : Board) (me : Player) : result Z :=
  (a <- on_bar nxt (opponent me) ;;
   b <- on_bar prev (opponent me) ;;
   Ok (Z.max 0 (a - b)))%py.

Definition tri (x a b c : F) : result F :=
  if (x <=? a)%fl || (c <=? x)%fl then Ok (int 0)
  else if (x =? b)%fl then Ok (int 1)
  else if (x <? b)%fl then fdiv (x - a)%fl (b - a + lit 1 1000000000)%fl
  else fdiv (c - x)%fl (c - b + lit 1 1000000000)%fl.

Definition trap (x a b c d : F) : result F :=
  if (x <=? a)%fl || (d <=? x)%fl then Ok (int 0)
  else if (b <=? x)%fl && (x <=? c)%fl then Ok (int 1)
  else if (a <? x)%fl && (x <? b)%fl
       then fdiv (x - a)%fl (b - a + lit 1 1000000000)%fl
  else fdiv (d - x)%fl (d - c + lit 1 1000000000)%fl.

Record RouteFeatures : Type := mkFeatures {
  pip_gain : F;
  hits : Z;
  blots_after : Z;
  anchors_after : Z;
  my_bar_after : Z;
  opp_bar_after : Z;
  home_progress_after : F;
  borne_off_after : Z
}.

Definition extract_route_features (engine : Engine) (route : TurnRoute)
  : result RouteFeatures :=
  let me := turn engine in
  let before := board engine in
  let pip_before := pip_count before me in
  let (r, e2) := Engine_.apply_route route engine in
  (_ <- r ;;
   let after := board e2 in
   h <- hits_made before after me ;;
   mb <- on_bar after me ;;
   ob <- on_bar after (opponent me) ;;
   hp <- home_progress after me ;;
   bo <- borne_off after me ;;
   Ok (mkFeatures (int (pip_before - pip_count after me)) h
                  (blot_count after me) (anchor_count after me)
                  mb ob hp bo))%py.

Record FuzzyWeights : Type := mkFuzzy { out_centers : F * F * F }.

Definition DEFAULT_OUT : FuzzyWeights :=
  mkFuzzy (lit 2 10, lit 5 10, lit 85 100).

(** The membership degrees and the three rule banks of [fuzzy_score]:
    the activations [(p, o, g)] of Poor, Okay and Good. *)
Definition rule_activations (feat : RouteFeatures) : result (F * F * F) :=
  (pip_s <- tri (pip_gain feat) (int (-2)) (int 0) (int 4) ;;
   pip_m <- tri (pip_gain feat) (int 2) (int 6) (int 10) ;;
   pip_l <- tri (pip_gain feat) (int 8) (int 14) (int 22) ;;
   hit_z <- trap (int (hits feat)) (lit (-5) 10) (int 0) (int 0) (lit 5 10) ;;
   hit_1 <- tri (int (hits feat)) (lit 5 10) (int 1) (lit 15 10) ;;
   hit_mn <- tri (int (hits feat)) (lit 15 10) (int 2) (lit 35 10) ;;
   bl_l <- tri (int (blots_after feat)) (lit (-5) 10) (int 0) (int 2) ;;
   bl_m <- tri (int (blots_after feat)) (int 1) (int 3) (int 5) ;;
   bl_h <- tri (int (blots_after feat)) (int 4) (int 7) (int 12) ;;
   an_l <- tri (int (anchors_after feat)) (lit (-5) 10) (int 0) (lit 15 10) ;;
   an_m <- tri (int (anchors_after feat)) (int 1) (int 2) (lit 35 10) ;;
   an_h <- tri (int (anchors_after feat)) (int 3) (int 4) (int 6) ;;
   myb_z <- trap (int (my_bar_after feat))
                 (lit (-5) 10) (int 0) (int 0) (lit 5 10) ;;
   myb_s <- tri (int (my_bar_after feat)) (lit 5 10) (int 1) (lit 25 10) ;;
   myb_mn <- tri (int (my_bar_after feat)) (int 2) (int 3) (int 6) ;;
   opb_z <- trap (int (opp_bar_after feat))
                 (lit (-5) 10) (int 0) (int 0) (lit 5 10) ;;
   opb_s <- tri (int (opp_bar_after feat)) (lit 5 10) (int 1) (lit 25 10) ;;
   opb_mn <- tri (int (opp_bar_after feat)) (int 2) (int 3) (int 6) ;;
   hm_l <- tri (home_progress_after feat)
               (lit 10 100) (lit 20 100) (lit 35 100) ;;
   hm_m <- tri (home_progress_after feat)
               (lit 30 100) (lit 50 100) (lit 70 100) ;;
   hm_h <- tri (home_progress_after feat)
               (lit 65 100) (lit 85 100) (lit 101 100) ;;
   off_l <- tri (int (borne_off_after feat)) (lit (-5) 10) (int 0) (int 3) ;;
   off_m <- tri (int (borne_off_after feat)) (int 2) (int 5) (int 9) ;;
   off_h <- tri (int (borne_off_after feat)) (int 8) (int 11) (lit 155 10) ;;
   let g := int 0 in
   let g := fmax g (fmin3 pip_l bl_l an_h) in
   let g := fmax g (fmin3 hit_1 bl_l pip_m) in
   let g := fmax g (fmin hit_mn bl_l) in
   let g := fmax g (fmin hm_h bl_l) in
   let g := fmax g (fmin off_h bl_l) in
   let g := fmax g (fmin opb_mn bl_l) in
   let o := int 0 in
   let o := fmax o (fmin pip_m bl_m) in
   let o := fmax o (fmin hit_1 bl_m) in
   let o := fmax o (fmin an_m pip_s) in
   let o := fmax o (fmin hm_m bl_m) in
   let o := fmax o (fmin off_m bl_m) in
   let p := int 0 in
   let p := fmax p (fmin bl_h pip_s) in
   let p := fmax p (fmin myb_s pip_s) in
   let p := fmax p (fmin myb_mn (int 1)) in
   let p := fmax p (fmin hit_z bl_h) in
   Ok (p, o, g))%py.

Definition fuzzy_score (feat : RouteFeatures) (oc : FuzzyWeights)
  : result F :=
  (pog <- rule_activations feat ;;
   let '(p, o, g) := pog in
   let '(cP, cO, cG) := out_centers oc in
   let num := (p * cP + o * cO + g * cG)%fl in
   let den := ((p + o + g) + lit 1 1000000000)%fl in
   fdiv num den)%py.

(** The loop of [pick_best_route_fuzzy]: the best route so far and its
    score. *)
Definition pick_best_route_fuzzy (engine : Engine)
  : result (option TurnRoute * F) :=
  (routes <- Engine_.generate_routes engine ;;
   if is_empty routes then Ok (None, int 0)
   else
     rfold (fun (best : option TurnRoute * F) r =>
              f <- extract_route_features engine r ;;
              s <- fuzzy_score f DEFAULT_OUT ;;
              Ok (if (snd best <? s)%fl then (Some r, s) else best))
           routes (None, int (-1)))%py.

End Fuzzy.
End Fuzzy.
Arguments Fuzzy.RouteFeatures F : clear implicits.
Arguments Fuzzy.FuzzyWeights F : clear implicits.

(* ================================================================== *)
(** * Notions used by the specification *)

(** The checkers of player [p] held by one pocket. *)
Definition held (p : Player) (pt : Point) : Z :=
  if owner_is pt p then checkers pt else 0.

(** A player's total checker count over all pockets of the board. *)
Definition total (b : Board) (p : Player) : Z :=
  fold_right (fun pt n => held p pt + n) 0 (points b).

(** The pocket at index [i] (for indices known to be in range). *)
Definition pocket (b : Board) (i : Z) : Point :=
  nth (Z.to_nat i) (points b) (mkPoint 0 None).

(** Point invariant of the data model: a non-negative count, which is zero
    exactly when the pocket has no owner. *)
Definition point_inv (pt : Point) : bool :=
  (0 <=? checkers pt)
  && match owner pt with
     | None => checkers pt =? 0
     | Some _ => negb (checkers pt =? 0)
     end.

(** The side a bar or off-tray slot belongs to. *)
Definition slot_side (i : Z) : option Player :=
  if (i =? 0) || (i =? 25) then Some WHITE
  else if (i =? 26) || (i =? 27) then Some BLACK
  else None.

(** A bar or off-tray slot holds only checkers of its own side. *)
Definition slot_ok (i : Z) (pt : Point) : bool :=
  match slot_side i with
  | Some s => negb (owner_is pt (opponent s))
  | None => true
  end.

(** A board of the data model: 28 pockets, each with the point invariant,
    the four side slots holding only their own side's checkers. *)
Definition wf_board (b : Board) : bool :=
  (length (points b) =? 28)%nat
  && forallb (fun ip : Z * Point =>
                let (i, pt) := ip in point_inv pt && slot_ok i pt)
             (enumerate (points b)).

(** Origin [s] and destination [e] of a single move that the legality
    rules accept for [p]: the origin is the bar slot or an own board point
    (the bar slot when the bar is occupied), the destination is the
    off-tray when bearing off from a board point with everything home, or
    a board point that the opponent does not hold with two or more. *)
Definition legal_move (b : Board) (p : Player) (s e : Z) : Prop :=
  (0 < checkers (pocket b (bar_index p)) -> s = bar_index p)
  /\ (s = bar_index p
      \/ (on_board s = true /\ owner_is (pocket b s) p = true
          /\ 0 < checkers (pocket b s)))
  /\ ((e = off_index p /\ s <> bar_index p /\ all_in_home b p = true)
      \/ (on_board e = true
          /\ owner_is (pocket b e) (opponent p)
             && (2 <=? checkers (pocket b e)) = false)).

(** Boards reachable from the standard setup by legal single moves of
    either player. *)
Inductive reachable : Board -> Prop :=
| reach_setup : reachable standard_setup
| reach_move b p start_ dice_ l d e b' :
    reachable b ->
    legal_single_targets b p start_ dice_ = Ok l ->
    In (d, e) l ->
    apply_single_move p start_ e b = (Ok tt, b') ->
    reachable b'.

(** The off-tray slot of a player in the pocket index space: slot 25 for
    White, slot 27 for Black. *)
Definition off_tray (p : Player) : Z :=
  match p with WHITE => 25 | BLACK => 27 end.

(** A play given move by move as (player, origin, die, destination): each
    move has to be among the targets that [legal_single_targets] lists for
    its die, and [apply_single_move] has to return. *)
Fixpoint play_moves (ms : list (Player * Z * Z * Z)) (b : Board)
  : option Board :=
  match ms with
  | [] => Some b
  | (p, s, d, e) :: ms' =>
      match legal_single_targets b p s [d] with
      | Ok l =>
          if existsb (fun t : Z * Z => (fst t =? d) && (snd t =? e)) l then
            match apply_single_move p s e b with
            | (Ok _, b') => play_moves ms' b'
            | (Raise _, _) => None
            end
          else None
      | Raise _ => None
      end
  end.

(** The board with pocket [i] replaced. *)
Definition set_pocket (b : Board) (i : Z) (pt : Point) : Board :=
  mkBoard (list_set (Z.to_nat i) pt (points b)).

Definition slots28 (b : Board) : Prop := length (points b) = 28%nat.

(** What one move does to a board, as far as the specification cares:
    the board stays in the data model, no player's total changes, and no
    off-tray count decreases. *)
Definition conserves (b b' : Board) : Prop :=
  wf_board b' = true
  /\ (forall q, total b' q = total b q)
  /\ (forall q, checkers (pocket b (off_index q))
                <= checkers (pocket b' (off_index q))).

(** A hit sends the blot to its owner's bar and leaves the mover's checker
    alone on the point. *)
Definition hit_relocates (b : Board) (p : Player) (e : Z) (b' : Board) : Prop :=
  can_hit b e p = Ok true ->
  checkers (pocket b' (bar_index (opponent p)))
  = checkers (pocket b (bar_index (opponent p))) + 1
  /\ owner (pocket b' (bar_index (opponent p))) = Some (opponent p)
  /\ pocket b' e = mkPoint 1 (Some p).

(** The board part of [apply_route]: the moves applied in sequence. *)
Definition apply_moves (p : Player) (ms : list Move) : M Board unit :=
  mfold (fun _ m => apply_single_move p (start m) (end_ m)) ms tt.

(** Replaying a route on a board with the rolled dice: the board and the
    dice left after it. *)
Fixpoint replay (p : Player) (ms : list Move) (bd : Board) (ds : list Z)
  : result (Board * list Z) :=
  match ms with
  | [] => Ok (bd, ds)
  | m :: ms' =>
      match apply_single_move p (start m) (end_ m) bd with
      | (Ok _, bd') =>
          rbind (list_remove (die m) ds) (fun ds' => replay p ms' bd' ds')
      | (Raise e, _) => Raise e
      end
  end.

(** No origin that the generator explores has a legal target for any of
    the dice. *)
Definition stuck (p : Player) (bd : Board) (ds : list Z) : Prop :=
  exists starts,
    starts_of bd p = Ok starts
    /\ forall st d, In st starts -> In d ds ->
                    legal_single_targets bd p st [d] = Ok [].

(** The sequences of moves that [backtrack] records from a board and a
    list of remaining dice. *)
Inductive plays (p : Player) : Board -> list Z -> list Move -> Prop :=
| plays_done bd : plays p bd [] []
| plays_stuck bd ds : ds <> [] -> stuck p bd ds -> plays p bd ds []
| plays_move bd ds starts st cands d e bd' ds' ms :
    starts_of bd p = Ok starts -> In st starts ->
    candidates bd p st ds = Ok cands -> In (d, e) cands ->
    apply_single_move p st e bd = (Ok tt, bd') ->
    list_remove d ds = Ok ds' ->
    plays p bd' ds' ms ->
    plays p bd ds (mkMove st e d :: ms).

(** A computation that moves the state only along the relation [R],
    whatever its outcome. *)
Definition preserves {S A} (R : S -> S -> Prop) (m : M S A) : Prop :=
  forall s r s', m s = (r, s') -> R s s'.

(** The heap and the list of routes only grow at their end. *)
Definition grows (s s' : GenState) : Prop :=
  (exists hx, heap s' = heap s ++ hx) /\ (exists rx, routes s' = routes s ++ rx).

(** A recorded route extends the moves made so far by a play from the
    current board. *)
Definition valid (p : Player) (bd : Board) (ds : list Z) (acc : list Move)
    (r : TurnRoute) : Prop :=
  exists ms, moves r = acc ++ ms /\ plays p bd ds ms.

(** What a call of [backtrack] that returns has appended to [routes]. *)
Definition records (p : Player) (bd : Board) (ds : list Z) (acc : list Move)
    (s s' : GenState) : Prop :=
  exists new, routes s' = routes s ++ new /\ Forall (valid p bd ds acc) new.

Definition sound_call (p : Player)
    (call : ref -> list Z -> list Move -> M GenState unit) : Prop :=
  forall b ds acc s s' bd,
    nth_error (heap s) b = Some bd ->
    call b ds acc s = (Ok tt, s') -> records p bd ds acc s s'.

(** Invariant of the loop over the candidates of one origin: [before] are
    the origins already explored, [done] the candidates already tried. *)
Definition inner_inv (p : Player) (bd : Board) (remaining : list Z)
    (acc : list Move) (s0 : GenState) (before : list Z)
    (done : list (Z * Z)) (loc : Locals) (s : GenState) : Prop :=
  grows s0 s /\ records p bd remaining acc s0 s
  /\ (used_any loc = false ->
      used_mask loc = [] /\ done = []
      /\ forall x, In x before -> candidates bd p x remaining = Ok []).

(** Invariant of the loop over the origins. *)
Definition outer_inv (p : Player) (bd : Board) (remaining : list Z)
    (acc : list Move) (s0 : GenState) (done : list Z) (loc : Locals)
    (s : GenState) : Prop :=
  grows s0 s /\ records p bd remaining acc s0 s
  /\ (used_any loc = false ->
      used_mask loc = []
      /\ forall x, In x done -> candidates bd p x remaining = Ok []).

(** A call that returns normally on every board of the data model, for at
    most [n] dice. *)
Definition total_call (p : Player) (n : nat)
    (call : ref -> list Z -> list Move -> M GenState unit) : Prop :=
  forall b ds acc s bd,
    (length ds <= n)%nat ->
    nth_error (heap s) b = Some bd -> wf_board bd = true ->
    exists s', call b ds acc s = (Ok tt, s').

(** A membership degree. *)
Definition degree (v : Q) : Prop := (0 <= v /\ v <= 1)%Q.

(* ------------------------------------------------------------------ *)
(** ** Positions and inputs used as examples *)

(** Both sides have a checker on the bar and checkers borne off. *)
Definition sample_board : Board :=
  snd ((put 0 1 WHITE ;;; put 25 3 WHITE ;;; put 6 5 WHITE ;;;
        put 8 3 WHITE ;;; put 13 3 WHITE ;;;
        put 26 1 BLACK ;;; put 27 2 BLACK ;;; put 1 1 BLACK ;;;
        put 12 5 BLACK ;;; put 17 3 BLACK ;;; put 19 3 BLACK)%mut
         empty_board).

(** Black holds a checker on White's bar slot; every pocket has the point
    invariant and each side has 15 checkers. *)
Definition stray_bar_board : Board :=
  snd ((put 0 1 BLACK ;;; put 6 5 WHITE ;;; put 8 5 WHITE ;;;
        put 13 5 WHITE ;;;
        put 12 5 BLACK ;;; put 17 4 BLACK ;;; put 19 5 BLACK)%mut
         empty_board).

(** White to play 3 and 5: the checker on 10 can play the 3 and is then
    stuck (2 and 15 are held by Black), while the checker on 20 can play the
    3 and then the 5. *)
Definition detour_board : Board :=
  snd ((put 1 6 WHITE ;;; put 3 7 WHITE ;;; put 10 1 WHITE ;;;
        put 20 1 WHITE ;;;
        put 2 2 BLACK ;;; put 15 2 BLACK ;;; put 19 5 BLACK ;;;
        put 21 3 BLACK ;;; put 23 3 BLACK)%mut
         empty_board).

(** White runs home alone from the standard setup and bears off all
    fifteen checkers. *)
Definition white_race : list (Player * Z * Z * Z) :=
  repeat (WHITE, 24, 6, 18) 2 ++ repeat (WHITE, 18, 5, 13) 2
  ++ repeat (WHITE, 13, 5, 8) 7 ++ repeat (WHITE, 8, 2, 6) 10
  ++ repeat (WHITE, 6, 6, 25) 15.

(** The position after [white_race]: White's fifteen checkers in slot 25,
    Black's as in the standard setup. *)
Definition race_won_board : Board :=
  snd ((put 25 15 WHITE ;;;
        put 1 2 BLACK ;;; put 12 5 BLACK ;;; put 17 3 BLACK ;;;
        put 19 5 BLACK)%mut empty_board).


(** The evaluator that [pick_best_route] passes to the search. *)
Definition default_eval (b : Board) (side : Player) : result float :=
  Evaluator.evaluate b side DEFAULT_WEIGHTS.

(* ------------------------------------------------------------------ *)
(** ** Further notions used by the properties *)

(** The destination that die [d] gives from origin [s]: the entry point
    from the bar, the point [d] steps on, or the off-tray when the step
    leaves the board on the player's home side. *)
Definition overshoots (p : Player) (x : Z) : Prop :=
  match p with WHITE => x < 1 | BLACK => 24 < x end.

Definition steps_to (p : Player) (s d e : Z) : Prop :=
  if s =? bar_index p then e = entry_point p d
  else (on_board e = true /\ e = s + dir p * d)
       \/ (e = off_index p /\ overshoots p (s + dir p * d)).

(** The target that the bar branch selects for a die. *)
Definition entry_target (b : Board) (p : Player) (d : Z) : option (Z * Z) :=
  let e := entry_point p d in
  if on_board e
     && negb (owner_is (pocket b e) (opponent p) && (2 <=? checkers (pocket b e)))
  then Some (d, e) else None.

(** The target that the board-point branch selects for a die. *)
Definition point_target (b : Board) (p : Player) (s d : Z) : option (Z * Z) :=
  let e := s + dir p * d in
  if match p with WHITE => e <? 1 | BLACK => 24 <? e end then
    if all_in_home b p then Some (d, off_index p) else None
  else if on_board e
          && negb (owner_is (pocket b e) (opponent p)
                   && (2 <=? checkers (pocket b e)))
  then Some (d, e) else None.

(** The dictionary [uniq] maps each key to a route with that key. *)
Definition keyed (d : list (list (Z * Z * Z) * TurnRoute)) : Prop :=
  Forall (fun kr => fst kr = route_key (snd kr)) d.

Definition appends (call : ref -> list Z -> list Move -> M GenState unit)
  : Prop :=
  forall b ds acc s s',
    call b ds acc s = (Ok tt, s') ->
    (length (routes s) < length (routes s'))%nat.

(** Invariant of both loops of [backtrack]: no route is lost, and one was
    recorded as soon as a candidate was played. *)
Definition recorded (s0 : GenState) (loc : Locals) (s : GenState) : Prop :=
  (length (routes s0) <= length (routes s))%nat
  /\ (used_any loc = true -> (length (routes s0) < length (routes s))%nat).

Definition complete_call (p : Player)
    (call : ref -> list Z -> list Move -> M GenState unit) : Prop :=
  forall b ds acc s s' bd ms,
    nth_error (heap s) b = Some bd ->
    call b ds acc s = (Ok tt, s') ->
    plays p bd ds ms -> In (mkRoute (acc ++ ms)) (routes s').

(** Every play that starts with the move [st -> e] by die [d] has been
    recorded. *)
Definition covered (p : Player) (bd : Board) (remaining : list Z)
    (acc : list Move) (st e d : Z) (s : GenState) : Prop :=
  forall bd' ds' ms,
    apply_single_move p st e bd = (Ok tt, bd') ->
    list_remove d remaining = Ok ds' ->
    plays p bd' ds' ms ->
    In (mkRoute (acc ++ mkMove st e d :: ms)) (routes s).

Definition mask_covered (p : Player) (bd : Board) (remaining : list Z)
    (acc : list Move) (loc : Locals) (s : GenState) : Prop :=
  forall st e d r, In (st, e, d, r) (used_mask loc) ->
                   covered p bd remaining acc st e d s.

(** Invariant of the loop over the origins: the candidates of the origins
    explored so far are covered. *)
Definition outer_cov (p : Player) (bd : Board) (remaining : list Z)
    (acc : list Move) (s0 : GenState) (done : list Z) (loc : Locals)
    (s : GenState) : Prop :=
  grows s0 s /\ mask_covered p bd remaining acc loc s
  /\ forall st cands d e,
       In st done -> candidates bd p st remaining = Ok cands ->
       In (d, e) cands -> covered p bd remaining acc st e d s.

(** Invariant of the loop over the candidates of the origin [st]. *)
Definition inner_cov (p : Player) (bd : Board) (remaining : list Z)
    (acc : list Move) (s0 : GenState) (before : list Z) (st : Z)
    (done : list (Z * Z)) (loc : Locals) (s : GenState) : Prop :=
  outer_cov p bd remaining acc s0 before loc s
  /\ forall d e, In (d, e) done -> covered p bd remaining acc st e d s.

(** The score that [pick_best_route_fuzzy] gives a route: the fuzzy score
    of its features, in exact arithmetic. *)
Definition route_score (e : Engine) (r : TurnRoute) : result Q :=
  (f <- Fuzzy.extract_route_features e r ;;
   Fuzzy.fuzzy_score f Fuzzy.DEFAULT_OUT)%py.

(** White to play 3 and 1 from the standard setup. *)
Definition opening_roll : Engine := mkEngine standard_setup WHITE [3; 1].

(* ================================================================== *)
(** * ui_pygame.py: the legality cache of [UIState]

    Of the fields of [UIState], the methods below read and write the
    engine, the selected origin and the two dictionaries [legal_map] and
    [target_die]; a dictionary is kept in insertion order. *)

(** [d[k] = v] *)
Fixpoint assign {K V} (eqb : K -> K -> bool) (k : K) (v : V)
    (d : list (K * V)) : list (K * V) :=
  match d with
  | [] => [(k, v)]
  | (k', v') :: d' => if eqb k' k then (k', v) :: d'
                      else (k', v') :: assign eqb k v d'
  end.

(** [d.get(k)] *)
Fixpoint lookup {K V} (eqb : K -> K -> bool) (k : K) (d : list (K * V))
  : option V :=
  match d with
  | [] => None
  | (k', v') :: d' => if eqb k' k then Some v' else lookup eqb k d'
  end.

Definition pair_eqb (a b : Z * Z) : bool :=
  (fst a =? fst b) && (snd a =? snd b).

Record UIState : Type := mkUI {
  eng : Engine;
  selected_start : option Z;
  legal_map : list (Z * list Z);
  target_die : list (Z * Z * Z)
}.

(** The body of [for die, end in pairs]: the smallest die that reaches
    [end] from [s] is kept. *)
Definition note_target (s : Z) (td : list (Z * Z * Z)) (de : Z * Z)
  : list (Z * Z * Z) :=
  let (die_, end__) := de in
  match lookup pair_eqb (s, end__) td with
  | Some x => assign pair_eqb (s, end__) (Z.min x die_) td
  | None => assign pair_eqb (s, end__) die_ td
  end.

(** The body of [for s in starts]. *)
Definition refresh_start (s : Z) : M UIState unit := fun u =>
  match Engine_.legal_targets_from (eng u) s with
  | Raise x => (Raise x, u)
  | Ok pairs =>
      if is_empty pairs then (Ok tt, u)
      else
        let ends := map snd pairs in
        let td := fold_left (note_target s) pairs (target_die u) in
        (Ok tt,
         mkUI (eng u) (selected_start u)
              (assign Z.eqb s (sorted (nodup Z.eq_dec ends)) (legal_map u))
              td)
  end.

Definition refresh_legals : M UIState unit := fun u =>
  let u0 := mkUI (eng u) (selected_start u) [] [] in
  match getitem (points (board (eng u))) (bar_index (turn (eng u))) with
  | Raise x => (Raise x, u0)
  | Ok pt =>
      let starts := if 0 <? checkers pt then [bar_index (turn (eng u))]
                    else all_starts in
      mfold (fun _ s => refresh_start s) starts tt u0
  end.

Definition current_targets (u : UIState) : list Z :=
  match selected_start u with
  | None => []
  | Some s => match lookup Z.eqb s (legal_map u) with
              | Some l => l
              | None => []
              end
  end.

Definition selectable_starts (u : UIState) : list Z :=
  sorted (map fst (legal_map u)).

Definition has_any_legal : M UIState bool :=
  (refresh_legals ;;;
   query (fun u => Ok (negb (is_empty (legal_map u)))))%mut.

(** The targets that the engine reports for an origin (none when the
    query raises). *)
Definition targets_of (e : Engine) (s : Z) : list (Z * Z) :=
  match Engine_.legal_targets_from e s with
  | Ok l => l
  | Raise _ => []
  end.

(** What [target_die] holds for a key after the targets [l] of its origin
    were noted: the smallest die that reaches the end, if any does. *)
Definition smallest_die (l : list (Z * Z)) (e : Z) (o : option Z) : Prop :=
  match o with
  | Some m => In (m, e) l /\ forall d, In (d, e) l -> m <= d
  | None => forall d, ~ In (d, e) l
  end.

(** Invariant of the loop of [refresh_legals] over the origins: the
    dictionaries hold what the origins explored so far contribute. *)
Definition cached (e : Engine) (sel : option Z) (done : list Z) (_ : unit)
    (u : UIState) : Prop :=
  eng u = e /\ selected_start u = sel
  /\ (forall s, ~ In s done ->
        lookup Z.eqb s (legal_map u) = None
        /\ forall x, lookup pair_eqb (s, x) (target_die u) = None)
  /\ (forall s, In s done ->
        lookup Z.eqb s (legal_map u)
        = (if is_empty (targets_of e s) then None
           else Some (sorted (nodup Z.eq_dec (map snd (targets_of e s)))))
        /\ forall x, smallest_die (targets_of e s) x
                       (lookup pair_eqb (s, x) (target_die u))).


(** What one pocket contributes to a player's pip count. *)
Definition pip_share (me : Player) (i : Z) (pt : Point) : Z :=
  if owner_is pt me && on_board i then
    match me with
    | WHITE => i * checkers pt
    | BLACK => (25 - i) * checkers pt
    end
  else 0.

(** The pips that a checker of [p] on pocket [i] counts for: its distance
    from the off-tray on a board point, nothing on the bar or off. *)
Definition pip_value (p : Player) (i : Z) : Z :=
  if on_board i then match p with WHITE => i | BLACK => 25 - i end else 0.

(* ================================================================== *)
(** * Properties *)


(* ------------------------------------------------------------------ *)
(** ** Lists and in-place update *)

Lemma list_set_length {A} (k : nat) (x : A) l :
  length (list_set k x l) = length l.
Proof.
  revert k; induction l as [|y l IH]; intros [|k]; simpl; auto.
Qed.

Lemma nth_list_set {A} (k j : nat) (x d : A) l :
  (k < length l)%nat ->
  nth j (list_set k x l) d = if Nat.eqb k j then x else nth j l d.
Proof.
  revert k j; induction l as [|y l IH]; intros k j Hk; simpl in *; [lia|].
  destruct k as [|k], j as [|j]; simpl; auto.
  apply IH; lia.
Qed.

Lemma list_set_same {A} (k : nat) (d : A) l :
  list_set k (nth k l d) l = l.
Proof.
  revert k; induction l as [|y l IH]; intros [|k]; simpl; auto.
  now rewrite IH.
Qed.

Lemma nth_error_nth_in {A} (k : nat) (d : A) l :
  (k < length l)%nat -> nth_error l k = Some (nth k l d).
Proof.
  revert k; induction l as [|y l IH]; intros [|k] Hk; simpl in *;
    try lia; auto.
  apply IH; lia.
Qed.

Lemma py_index_in_range {A} (l : list A) (i : Z) :
  0 <= i < Z.of_nat (length l) -> py_index l i = Some (Z.to_nat i).
Proof.
  intros H. unfold py_index.
  destruct (Z.leb_spec 0 i); [|lia].
  destruct (Z.ltb_spec i (Z.of_nat (length l))); [|lia].
  reflexivity.
Qed.

Lemma forallb_enumerate_from {A} (f : Z * A -> bool) (d : A) l s :
  forallb f (enumerate_from s l) = true <->
  (forall k, (k < length l)%nat -> f (s + Z.of_nat k, nth k l d) = true).
Proof.
  revert s; induction l as [|x l IH]; intros s; simpl.
  - split; auto. intros _ k Hk; lia.
  - rewrite andb_true_iff, IH. split.
    + intros [H0 H] [|k] Hk.
      * now replace (s + Z.of_nat 0) with s by lia.
      * replace (s + Z.of_nat (S k)) with (s + 1 + Z.of_nat k) by lia.
        apply H; lia.
    + intros H; split.
      * specialize (H 0%nat). replace (s + Z.of_nat 0) with s in H by lia.
        apply H; lia.
      * intros k Hk. specialize (H (S k)).
        replace (s + Z.of_nat (S k)) with (s + 1 + Z.of_nat k) in H by lia.
        apply H; lia.
Qed.

(** The sum of the checkers held by [p] changes by the difference at the
    updated pocket. *)
Lemma held_sum_list_set p (k : nat) x d l :
  (k < length l)%nat ->
  fold_right (fun pt n => held p pt + n) 0 (list_set k x l)
  = fold_right (fun pt n => held p pt + n) 0 l - held p (nth k l d) + held p x.
Proof.
  revert k; induction l as [|y l IH]; intros k Hk; simpl in *; [lia|].
  destruct k as [|k]; simpl; [lia|].
  rewrite IH by lia. lia.
Qed.

(* ------------------------------------------------------------------ *)
(** ** Pockets of a 28-slot board *)

Lemma set_pocket_slots28 b i pt : slots28 b -> slots28 (set_pocket b i pt).
Proof. unfold slots28; simpl. now rewrite list_set_length. Qed.

Lemma getitem_pocket b i :
  slots28 b -> 0 <= i < 28 -> getitem (points b) i = Ok (pocket b i).
Proof.
  intros L H. unfold getitem, pocket.
  rewrite py_index_in_range by (rewrite L; lia).
  rewrite (nth_error_nth_in _ (mkPoint 0 None)) by (rewrite L; lia).
  reflexivity.
Qed.

Lemma at_point_run {A} (m : M Point A) b i :
  slots28 b -> 0 <= i < 28 ->
  at_point i m b = (fst (m (pocket b i)), set_pocket b i (snd (m (pocket b i)))).
Proof.
  intros L H. unfold at_point, pocket, set_pocket.
  rewrite py_index_in_range by (rewrite L; lia).
  rewrite (nth_error_nth_in _ (mkPoint 0 None)) by (rewrite L; lia).
  now destruct (m _).
Qed.

Lemma pocket_set_pocket b i j pt :
  slots28 b -> 0 <= i < 28 -> 0 <= j ->
  pocket (set_pocket b i pt) j = if i =? j then pt else pocket b j.
Proof.
  intros L Hi Hj. unfold pocket, set_pocket; simpl.
  rewrite nth_list_set by (rewrite L; lia).
  destruct (Z.eqb_spec i j) as [->|N].
  - now rewrite Nat.eqb_refl.
  - destruct (Nat.eqb_spec (Z.to_nat i) (Z.to_nat j)); [lia|reflexivity].
Qed.

Lemma total_set_pocket b i pt p :
  slots28 b -> 0 <= i < 28 ->
  total (set_pocket b i pt) p = total b p - held p (pocket b i) + held p pt.
Proof.
  intros L H. unfold total, set_pocket, pocket; simpl.
  apply held_sum_list_set. rewrite L; lia.
Qed.

Lemma set_pocket_same b i : set_pocket b i (pocket b i) = b.
Proof.
  unfold set_pocket, pocket. rewrite list_set_same. now destruct b.
Qed.

Lemma wf_board_iff b :
  wf_board b = true <->
  slots28 b /\
  forall i, 0 <= i < 28 ->
            point_inv (pocket b i) = true /\ slot_ok i (pocket b i) = true.
Proof.
  unfold wf_board, enumerate, slots28. rewrite andb_true_iff, Nat.eqb_eq.
  rewrite (forallb_enumerate_from _ (mkPoint 0 None)).
  split; intros [L H]; split; auto.
  - intros i Hi. specialize (H (Z.to_nat i)).
    rewrite L in H. simpl in H. rewrite Z2Nat.id in H by lia.
    apply andb_true_iff, H. lia.
  - intros k Hk. rewrite L in Hk. simpl.
    destruct (H (Z.of_nat k)) as [H1 H2]; [lia|].
    unfold pocket in H1, H2. rewrite Nat2Z.id in H1, H2.
    now rewrite H1, H2.
Qed.

Lemma wf_slots28 b : wf_board b = true -> slots28 b.
Proof. intros H; now apply wf_board_iff in H. Qed.

Lemma wf_pocket b i :
  wf_board b = true -> 0 <= i < 28 ->
  point_inv (pocket b i) = true /\ slot_ok i (pocket b i) = true.
Proof. intros H; apply wf_board_iff in H; now apply H. Qed.

Lemma wf_set_pocket b i pt :
  wf_board b = true -> 0 <= i < 28 ->
  point_inv pt = true -> slot_ok i pt = true ->
  wf_board (set_pocket b i pt) = true.
Proof.
  intros W Hi P S. apply wf_board_iff in W as [L H].
  apply wf_board_iff; split; [now apply set_pocket_slots28|].
  intros j Hj. rewrite pocket_set_pocket by (auto; lia).
  destruct (Z.eqb_spec i j) as [->|N]; auto.
Qed.

(* ------------------------------------------------------------------ *)
(** ** What the legality filter accepts *)

Lemma rfold_invariant {A B} (P : B -> Prop) (body : B -> A -> result B) l :
  (forall acc x acc', P acc -> body acc x = Ok acc' -> P acc') ->
  forall acc r, P acc -> rfold body l acc = Ok r -> P r.
Proof.
  intros Hb. induction l as [|x l IH]; simpl; intros acc r Ha Hr.
  - now inversion Hr; subst.
  - destruct (body acc x) eqn:E; simpl in Hr; [|discriminate].
    eapply IH; [|exact Hr]. eapply Hb; eassumption.
Qed.

Lemma on_board_range i : on_board i = true <-> 1 <= i <= 24.
Proof. unfold on_board. rewrite andb_true_iff, !Z.leb_le. tauto. Qed.

Lemma is_blocked_for_pocket b e p :
  slots28 b -> on_board e = true ->
  is_blocked_for b e p
  = Ok (owner_is (pocket b e) (opponent p) && (2 <=? checkers (pocket b e))).
Proof.
  intros L H. unfold is_blocked_for. rewrite H; simpl.
  apply on_board_range in H. rewrite getitem_pocket by (auto; lia).
  reflexivity.
Qed.

Lemma can_hit_pocket b e p :
  slots28 b -> on_board e = true ->
  can_hit b e p
  = Ok (owner_is (pocket b e) (opponent p) && (checkers (pocket b e) =? 1)).
Proof.
  intros L H. unfold can_hit. rewrite H; simpl.
  apply on_board_range in H. rewrite getitem_pocket by (auto; lia).
  reflexivity.
Qed.

Lemma bar_index_range p : 0 <= bar_index p < 28.
Proof. destruct p; simpl; lia. Qed.

Lemma off_index_range p : 0 <= off_index p < 28.
Proof. destruct p; simpl; lia. Qed.

Lemma count_on_bar_pocket b p :
  slots28 b -> count_on_bar b p = Ok (checkers (pocket b (bar_index p))).
Proof.
  intros L. unfold count_on_bar.
  now rewrite getitem_pocket by (auto using bar_index_range).
Qed.

Lemma count_off_pocket b p :
  slots28 b -> count_off b p = Ok (checkers (pocket b (off_index p))).
Proof.
  intros L. unfold count_off.
  now rewrite getitem_pocket by (auto using off_index_range).
Qed.

Lemma legal_single_targets_sound b p s ds l d e :
  slots28 b ->
  legal_single_targets b p s ds = Ok l -> In (d, e) l ->
  legal_move b p s e.
Proof.
  intros L H Hin. unfold legal_single_targets in H.
  rewrite count_on_bar_pocket in H by assumption. simpl in H.
  destruct (Z.ltb_spec 0 (checkers (pocket b (bar_index p)))) as [Hb|Hb];
    destruct (Z.eqb_spec s (bar_index p)) as [Hs|Hs]; simpl in H;
    try (inversion H; subst; contradiction).
  - (* entering, bar occupied *)
    revert Hin. pattern l. eapply rfold_invariant; [| |exact H]; [|intros []].
    intros acc x acc' IH Hx Hin. unfold enter_step in Hx.
    destruct (on_board (entry_point p x)) eqn:Ho.
    + rewrite is_blocked_for_pocket in Hx by assumption. simpl in Hx.
      inversion Hx; subst; clear Hx.
      destruct (owner_is _ _ && _) eqn:Hblk; simpl in Hin; auto.
      apply in_app_or in Hin as [Hin|[Hin|[]]]; auto.
      inversion Hin; subst. repeat split; auto.
    + inversion Hx; subst; auto.
  - (* entering, bar empty *)
    revert Hin. pattern l. eapply rfold_invariant; [| |exact H]; [|intros []].
    intros acc x acc' IH Hx Hin. unfold enter_step in Hx.
    destruct (on_board (entry_point p x)) eqn:Ho.
    + rewrite is_blocked_for_pocket in Hx by assumption. simpl in Hx.
      inversion Hx; subst; clear Hx.
      destruct (owner_is _ _ && _) eqn:Hblk; simpl in Hin; auto.
      apply in_app_or in Hin as [Hin|[Hin|[]]]; auto.
      inversion Hin; subst. repeat split; auto.
    + inversion Hx; subst; auto.
  - (* from a board point *)
    destruct (on_board s) eqn:Hon; simpl in H;
      [|inversion H; subst; contradiction].
    pose proof (proj1 (on_board_range s) Hon) as Hr.
    rewrite getitem_pocket in H by (auto; lia). simpl in H.
    destruct (owner_is (pocket b s) p) eqn:Hown; simpl in H;
      [|inversion H; subst; contradiction].
    destruct (Z.leb_spec (checkers (pocket b s)) 0) as [Hc|Hc]; simpl in H;
      [inversion H; subst; contradiction|].
    revert Hin. pattern l. eapply rfold_invariant; [| |exact H]; [|intros []].
    intros acc x acc' IH Hx Hin. unfold point_step in Hx.
    destruct (match p with WHITE => _ | BLACK => _ end).
    + inversion Hx; subst; clear Hx.
      destruct (all_in_home b p) eqn:Hh; auto.
      apply in_app_or in Hin as [Hin|[Hin|[]]]; auto.
      inversion Hin; subst.
      split; [lia|]. split; [right; auto|]. left; auto.
    + destruct (on_board (s + dir p * x)) eqn:Ho.
      * rewrite is_blocked_for_pocket in Hx by assumption. simpl in Hx.
        inversion Hx; subst; clear Hx.
        destruct (owner_is _ _ && _) eqn:Hblk; simpl in Hin; auto.
        apply in_app_or in Hin as [Hin|[Hin|[]]]; auto.
        inversion Hin; subst.
        split; [lia|]. split; [right; auto|]. right; auto.
      * inversion Hx; subst; auto.
Qed.

(* ------------------------------------------------------------------ *)
(** ** One legal move on a board of the data model *)

Lemma remove_at b s :
  slots28 b -> 0 <= s < 28 ->
  at_point s (Point_.remove 1) b
  = if checkers (pocket b s) <? 1 then (Raise ValueError, b)
    else (Ok tt,
          set_pocket b s
            (mkPoint (checkers (pocket b s) - 1)
                     (if checkers (pocket b s) - 1 =? 0 then None
                      else owner (pocket b s)))).
Proof.
  intros L H. rewrite at_point_run by assumption. unfold Point_.remove.
  destruct (checkers (pocket b s) <? 1); simpl; [|reflexivity].
  now rewrite set_pocket_same.
Qed.

Lemma add_at b i o n :
  slots28 b -> 0 <= i < 28 ->
  at_point i (Point_.add o n) b
  = match owner (pocket b i) with
    | None => (Ok tt, set_pocket b i (mkPoint n (Some o)))
    | Some o' =>
        if negb (Player_eqb o' o) then (Raise ValueError, b)
        else (Ok tt, set_pocket b i (mkPoint (checkers (pocket b i) + n) (Some o')))
    end.
Proof.
  intros L H. rewrite at_point_run by assumption. unfold Point_.add.
  destruct (owner (pocket b i)) as [o'|]; simpl; [|reflexivity].
  destruct (negb (Player_eqb o' o)); simpl; [|reflexivity].
  now rewrite set_pocket_same.
Qed.

Lemma conserves_refl b : wf_board b = true -> conserves b b.
Proof. intros W; repeat split; auto; intros; lia. Qed.

Lemma conserves_trans b1 b2 b3 :
  conserves b1 b2 -> conserves b2 b3 -> conserves b1 b3.
Proof.
  intros (W1 & T1 & O1) (W2 & T2 & O2). repeat split; auto.
  - intros q. now rewrite T2, T1.
  - intros q. specialize (O1 q); specialize (O2 q); lia.
Qed.

Ltac pockets :=
  repeat match goal with
  | |- context [pocket (set_pocket _ _ _) _] =>
      rewrite pocket_set_pocket
        by (auto using set_pocket_slots28, bar_index_range, off_index_range; lia)
  | |- context [total (set_pocket _ _ _) _] =>
      rewrite total_set_pocket
        by (auto using set_pocket_slots28, bar_index_range, off_index_range; lia)
  end.

Lemma Player_eqb_eq p q : Player_eqb p q = true <-> p = q.
Proof. destruct p, q; simpl; split; congruence. Qed.

Lemma slot_side_on_board i : on_board i = true -> slot_side i = None.
Proof.
  intros H; apply on_board_range in H. unfold slot_side.
  repeat match goal with
         | |- context [?a =? ?b] => destruct (Z.eqb_spec a b); try lia
         end.
  reflexivity.
Qed.

Lemma slot_ok_on_board i pt : on_board i = true -> slot_ok i pt = true.
Proof. intros H. unfold slot_ok. now rewrite slot_side_on_board. Qed.

Lemma slot_ok_off p pt :
  slot_ok (off_index p) pt = negb (owner_is pt (opponent p)).
Proof. now destruct p. Qed.

Lemma slot_ok_bar p pt :
  slot_ok (bar_index p) pt = negb (owner_is pt (opponent p)).
Proof. now destruct p. Qed.

Ltac point_facts b i P S :=
  match goal with
  | W : wf_board b = true |- _ =>
      destruct (wf_pocket b i W) as [P S];
      [ auto using bar_index_range, off_index_range; lia | ]
  end.

Lemma bind_run {S A B} (m : M S A) (k : A -> M S B) s :
  bind m k s = match m s with
               | (Ok a, s') => k a s'
               | (Raise e, s') => (Raise e, s')
               end.
Proof. reflexivity. Qed.

Ltac bool_cases :=
  repeat match goal with
         | |- context [?a =? ?b] => destruct (Z.eqb_spec a b); try lia
         | |- context [?a <=? ?b] => destruct (Z.leb_spec a b); try lia
         | |- context [?a <? ?b] => destruct (Z.ltb_spec a b); try lia
         | H : context [?a =? ?b] |- _ => destruct (Z.eqb_spec a b); try lia
         | H : context [?a <=? ?b] |- _ => destruct (Z.leb_spec a b); try lia
         | H : context [?a <? ?b] |- _ => destruct (Z.ltb_spec a b); try lia
         end.

Ltac red_points :=
  cbn [bar_index off_index opponent Player_eqb negb andb orb
       checkers owner] in *.

Ltac own_cases :=
  unfold point_inv, held, owner_is in *;
  repeat match goal with
         | q : Player |- _ => destruct q
         end;
  red_points; bool_cases;
  repeat match goal with
         | H : context [pocket ?b ?i] |- _ => destruct (pocket b i) as [? ?]
         | |- context [pocket ?b ?i] => destruct (pocket b i) as [? ?]
         end;
  repeat match goal with
         | pt : Point |- _ => destruct pt as [? ?]
         end;
  red_points;
  repeat match goal with
         | o : option Player |- _ => destruct o as [[]|]
         end;
  red_points; try discriminate; try congruence;
  repeat match goal with
         | H : _ /\ _ |- _ => destruct H
         | H : _ \/ _ |- _ => destruct H; try discriminate; try congruence
         end.

Lemma can_hit_true b e p :
  slots28 b -> can_hit b e p = Ok true ->
  1 <= e <= 24 /\ owner (pocket b e) = Some (opponent p)
  /\ checkers (pocket b e) = 1.
Proof.
  intros L H. unfold can_hit in H.
  destruct (on_board e) eqn:Ho; simpl in H; [|discriminate].
  apply on_board_range in Ho.
  rewrite getitem_pocket in H by (auto; lia). simpl in H.
  inversion H as [H']. apply andb_true_iff in H' as [H1 H2].
  apply Z.eqb_eq in H2. repeat split; auto; try lia.
  unfold owner_is in H1. destruct (owner (pocket b e)); [|discriminate].
  now apply Player_eqb_eq in H1 as ->.
Qed.

Ltac finish_move :=
  eexists _, _; split; [reflexivity|]; split; [|split; [|reflexivity]];
  [ repeat split;
    [ repeat apply wf_set_pocket; auto using slot_ok_on_board; try lia;
      try rewrite slot_ok_off; try rewrite slot_ok_bar;
      own_cases; bool_cases; try lia
    | intros q; pockets; own_cases; bool_cases; try lia
    | intros q; pose proof (off_index_range q); pockets;
      own_cases; bool_cases; try lia ]
  | let Hh := fresh "Hh" in
    intros _ Hh; apply can_hit_true in Hh as (? & ? & ?); [|assumption];
    pockets; own_cases; bool_cases; try lia; repeat split; try lia;
    try reflexivity; try (f_equal; lia) ].

(** The last step of [apply_single_move]: read the destination, place the
    checker. *)
Ltac land_on e :=
  cbv beta iota; rewrite bind_run; unfold query at 1; cbv beta iota;
  rewrite getitem_pocket by (auto using set_pocket_slots28; lia);
  pockets;
  repeat match goal with
         | |- context [?a =? ?b] =>
             destruct (Z.eqb_spec a b); [try contradiction; try lia|try lia]
         end;
  cbn [owner];
  rewrite add_at by (auto using set_pocket_slots28; lia);
  pockets;
  repeat match goal with
         | |- context [?a =? ?b] =>
             destruct (Z.eqb_spec a b); [try contradiction; try lia|try lia]
         end;
  cbn [owner checkers];
  finish_move.

Lemma apply_legal_move b p s e :
  wf_board b = true -> legal_move b p s e ->
  exists r b',
    apply_single_move p s e b = (r, b') /\ conserves b b'
    /\ (r = Ok tt -> hit_relocates b p e b')
    /\ (if checkers (pocket b s) <? 1 then r = Raise ValueError /\ b' = b
        else r = Ok tt).
Proof.
  intros W (Hbar & Hs & He). pose proof (wf_slots28 _ W) as L.
  assert (Rs : 0 <= s < 28 /\ s <> 25 /\ s <> 27).
  { destruct Hs as [->|(Hs & _)]; [destruct p; simpl; lia|].
    apply on_board_range in Hs; lia. }
  pose proof (off_index_range p) as Ro.
  pose proof (bar_index_range (opponent p)) as Rb.
  unfold apply_single_move. rewrite bind_run, remove_at by (auto; lia).
  destruct (Z.ltb_spec (checkers (pocket b s)) 1) as [Hc|Hc].
  { eexists _, _; split; [reflexivity|].
    split; [|split]; auto using conserves_refl. discriminate. }
  cbv beta iota.
  point_facts b s PI SO.
  assert (Hps : owner (pocket b s) = Some p).
  { destruct Hs as [->|(_ & Hs & _)].
    - rewrite slot_ok_bar in SO. clear - SO PI Hc.
      own_cases; bool_cases; lia.
    - clear - Hs. own_cases. }
  remember (mkPoint _ _) as pt1 eqn:E1 in |- *.
  assert (PI1 : point_inv pt1 = true) by (subst pt1; own_cases; bool_cases).
  assert (O1 : owner pt1 = None \/ owner pt1 = owner (pocket b s))
    by (subst pt1; simpl; destruct (_ =? _); auto).
  assert (C1 : checkers pt1 = checkers (pocket b s) - 1) by now subst pt1.
  assert (SO' : slot_ok s pt1 = true).
  { unfold slot_ok, owner_is in *. destruct (slot_side s); auto.
    destruct O1 as [->| ->]; auto. }
  clear E1 SO.
  destruct He as [(-> & Hns & _) | (Hon & Hblk)].
  - (* bearing off *)
    rewrite Z.eqb_refl.
    destruct Hs as [Hs|(Hs & Hown & _)]; [contradiction|].
    pose proof (proj1 (on_board_range s) Hs) as Hr.
    rewrite add_at by (auto using set_pocket_slots28, off_index_range; lia).
    point_facts b (off_index p) PIo SOo.
    pockets.
    assert (Hso : s <> off_index p) by (destruct p; simpl; lia).
    destruct (Z.eqb_spec s (off_index p)) as [|_]; [contradiction|].
    rewrite slot_ok_off in SOo.
    destruct (owner (pocket b (off_index p))) as [o'|] eqn:Eo.
    + assert (o' = p) as ->.
      { unfold owner_is in SOo. rewrite Eo in SOo. now destruct o', p. }
      replace (negb (Player_eqb p p)) with false by now destruct p.
      finish_move.
    + finish_move.
  - (* moving to a board point *)
    pose proof (proj1 (on_board_range e) Hon) as Hr.
    assert (Heo : e <> off_index p) by (destruct p; simpl; lia).
    destruct (Z.eqb_spec e (off_index p)) as [|_]; [contradiction|].
    point_facts b e PIe SOe. point_facts b (bar_index (opponent p)) PIb SOb.
    rewrite slot_ok_bar in SOb.
    rewrite bind_run. unfold query at 1. cbv beta iota.
    rewrite can_hit_pocket by (auto using set_pocket_slots28; lia).
    pockets.
    assert (Hbe : s = bar_index p -> s <> e) by (destruct p; simpl; lia).
    destruct (Z.eqb_spec s e) as [<-|Hse].
    + (* a die of zero: the checker lands where it left *)
      replace (owner_is pt1 (opponent p)) with false
        by (own_cases; bool_cases; try lia).
      rewrite bind_run. unfold ret at 1. cbn [andb]. cbv beta iota.
      rewrite bind_run. unfold query at 1. cbv beta iota.
      rewrite getitem_pocket by (auto using set_pocket_slots28; lia).
      pockets. rewrite Z.eqb_refl.
      destruct (owner pt1) as [o|] eqn:Eo.
      * replace (Player_eqb o p) with true by (own_cases; bool_cases; try lia).
        rewrite add_at by (auto using set_pocket_slots28; lia).
        pockets. rewrite Z.eqb_refl, Eo.
        replace (negb (Player_eqb o p)) with false
          by (own_cases; bool_cases; try lia).
        finish_move.
      * rewrite add_at by (auto using set_pocket_slots28; lia).
        pockets. rewrite Z.eqb_refl, Eo.
        finish_move.
    + assert (Heb : e <> bar_index (opponent p)) by (destruct p; simpl; lia).
      assert (Hsb : s <> bar_index (opponent p)).
      { intros ->. clear - SOb Hps. own_cases. }
      destruct (Z.eqb_spec s e) as [|_]; [contradiction|].
      destruct (owner_is (pocket b e) (opponent p)
                && (checkers (pocket b e) =? 1)) eqn:Hhit.
      * (* a hit: the blot goes to its owner's bar *)
        apply andb_true_iff in Hhit as [Ho Hc1]. apply Z.eqb_eq in Hc1.
        rewrite bind_run, bind_run.
        rewrite remove_at by (auto using set_pocket_slots28; lia).
        pockets.
        destruct (Z.eqb_spec s e) as [|_]; [contradiction|].
        rewrite Hc1. cbn [Z.ltb Z.compare Pos.compare Pos.compare_cont].
        cbv beta iota.
        change (mkPoint (1 - 1) (if 1 - 1 =? 0 then None
                                 else owner (pocket b e)))
          with (mkPoint 0 None).
        rewrite add_at by (auto using set_pocket_slots28; lia).
        pockets.
        destruct (Z.eqb_spec e (bar_index (opponent p))) as [|_];
          [contradiction|].
        destruct (Z.eqb_spec s (bar_index (opponent p))) as [|_];
          [contradiction|].
        assert (Hob : owner (pocket b (bar_index (opponent p))) = None \/
                      owner (pocket b (bar_index (opponent p)))
                      = Some (opponent p)).
        { clear - SOb. own_cases; auto. }
        destruct Hob as [Hob|Hob]; rewrite Hob.
        -- land_on e.
        -- replace (negb (Player_eqb (opponent p) (opponent p))) with false
             by now destruct p.
           land_on e.
      * (* an empty or own point *)
        assert (Hoe : owner (pocket b e) = None \/
                      owner (pocket b e) = Some p).
        { clear - Hblk Hhit PIe. own_cases; bool_cases; auto; lia. }
        rewrite bind_run. unfold ret at 1. cbv beta iota.
        rewrite bind_run. unfold query at 1. cbv beta iota.
        rewrite getitem_pocket by (auto using set_pocket_slots28; lia).
        pockets.
        destruct (Z.eqb_spec s e) as [|_]; [contradiction|].
        destruct Hoe as [Hoe|Hoe]; rewrite Hoe.
        -- rewrite add_at by (auto using set_pocket_slots28; lia).
           pockets.
           destruct (Z.eqb_spec s e) as [|_]; [contradiction|].
           rewrite Hoe. finish_move.
        -- replace (Player_eqb p p) with true by now destruct p.
           rewrite add_at by (auto using set_pocket_slots28; lia).
           pockets.
           destruct (Z.eqb_spec s e) as [|_]; [contradiction|].
           rewrite Hoe.
           replace (negb (Player_eqb p p)) with false by now destruct p.
           finish_move.
Qed.

(* ------------------------------------------------------------------ *)
(** ** Legal moves keep the board in the data model *)

Lemma legal_move_step b p s ds l d e r b' :
  wf_board b = true ->
  legal_single_targets b p s ds = Ok l -> In (d, e) l ->
  apply_single_move p s e b = (r, b') ->
  conserves b b'
  /\ (r = Ok tt -> hit_relocates b p e b')
  /\ (r = Ok tt \/ (r = Raise ValueError /\ b' = b)).
Proof.
  intros W Hl Hin Ha.
  pose proof (legal_single_targets_sound _ _ _ _ _ _ _ (wf_slots28 _ W) Hl Hin)
    as Hm.
  destruct (apply_legal_move b p s e W Hm) as (r0 & b0 & E & C & Hh & Hr).
  rewrite E in Ha. inversion Ha; subst.
  split; [exact C|]. split; [exact Hh|].
  destruct (checkers (pocket b s) <? 1); auto.
Qed.

Lemma wf_standard_setup : wf_board standard_setup = true.
Proof. reflexivity. Qed.

Lemma reachable_wf b : reachable b -> wf_board b = true.
Proof.
  induction 1 as [|b p s ds l d e b' _ IH Hl Hin Ha].
  - exact wf_standard_setup.
  - now destruct (legal_move_step _ _ _ _ _ _ _ _ _ IH Hl Hin Ha) as ((W & _) & _).
Qed.

Lemma reachable_total b q : reachable b -> total b q = 15.
Proof.
  induction 1 as [|b p s ds l d e b' Hr IH Hl Hin Ha].
  - now destruct q.
  - destruct (legal_move_step _ _ _ _ _ _ _ _ _ (reachable_wf _ Hr) Hl Hin Ha)
      as ((_ & T & _) & _).
    now rewrite T.
Qed.

Lemma point_inv_iff pt :
  point_inv pt = true <->
  0 <= checkers pt /\ (checkers pt = 0 <-> owner pt = None).
Proof.
  unfold point_inv. destruct pt as [c [o|]]; simpl;
    rewrite andb_true_iff, Z.leb_le.
  - rewrite negb_true_iff, Z.eqb_neq. intuition congruence.
  - rewrite Z.eqb_eq. intuition congruence.
Qed.

Lemma wf_In b pt :
  wf_board b = true -> In pt (points b) -> point_inv pt = true.
Proof.
  intros W Hin. apply wf_board_iff in W as [L W].
  destruct (In_nth _ _ (mkPoint 0 None) Hin) as (k & Hk & <-).
  rewrite L in Hk.
  destruct (W (Z.of_nat k)) as [P _]; [lia|].
  unfold pocket in P. now rewrite Nat2Z.id in P.
Qed.

(** C4, with the counts the engine uses: on every board reachable from the
    standard setup by legal single moves, every pocket has [checkers = 0]
    exactly when it has no owner (a pocket has one [owner] field, so it
    never holds checkers of two owners).  [Point.add] of [n >= 1] checkers
    and [Point.remove] of [n >= 0] checkers keep the invariant of a point
    (a non-negative count that is zero exactly when there is no owner),
    whether they return or raise; [add] on a point owned by the other
    player raises [ValueError] and leaves the point as it was. *)
Theorem point_exclusivity :
  (forall b pt, reachable b -> In pt (points b) ->
                (checkers pt = 0 <-> owner pt = None))
  /\ (forall pt o n r pt',
        point_inv pt = true -> 0 < n -> Point_.add o n pt = (r, pt') ->
        point_inv pt' = true
        /\ (owner pt = Some (opponent o) -> r = Raise ValueError /\ pt' = pt))
  /\ (forall pt n r pt',
        point_inv pt = true -> 0 <= n -> Point_.remove n pt = (r, pt') ->
        point_inv pt' = true).
Proof.
  split; [|split].
  - intros b pt Hr Hin.
    apply (point_inv_iff pt), (wf_In b); auto using reachable_wf.
  - intros [c o'] o n r pt' P Hn Ha. unfold Point_.add in Ha.
    unfold point_inv in *. simpl in *.
    destruct o' as [o'|].
    + destruct (negb (Player_eqb o' o)) eqn:E; inversion Ha; subst; simpl.
      * split; auto.
      * split; [bool_cases; lia|].
        intros Ho. inversion Ho; subst. now destruct o.
    + inversion Ha; subst; simpl. split; [bool_cases; lia|discriminate].
  - intros [c o] n r pt' P Hn Ha. unfold Point_.remove in Ha.
    unfold point_inv in *. simpl in *.
    destruct (Z.ltb_spec c n); inversion Ha; subst; simpl; auto.
    destruct o; bool_cases; simpl; try lia; bool_cases; lia.
Qed.

Lemma point_exclusivity_witness :
  point_inv (snd (Point_.add WHITE 2 (mkPoint 3 (Some WHITE)))) = true
  /\ (owner (mkPoint 3 (Some WHITE)) = Some (opponent WHITE) ->
      fst (Point_.add WHITE 2 (mkPoint 3 (Some WHITE))) = Raise ValueError
      /\ snd (Point_.add WHITE 2 (mkPoint 3 (Some WHITE)))
         = mkPoint 3 (Some WHITE)).
Proof.
  apply (proj1 (proj2 point_exclusivity)
           (mkPoint 3 (Some WHITE)) WHITE 2
           (fst (Point_.add WHITE 2 (mkPoint 3 (Some WHITE))))
           (snd (Point_.add WHITE 2 (mkPoint 3 (Some WHITE))))).
  - reflexivity.
  - lia.
  - reflexivity.
Defined.

(** C4 as stated fails: [Point.add] and [Point.remove] do not look at the
    sign of [n].  On an empty point, which has the invariant,
    [add(WHITE, 0)] returns and leaves an owner with no checkers, and
    [remove(-1)] returns and leaves one checker without an owner. *)
Lemma point_invariant_fails_on_odd_counts :
  checkers (mkPoint 0 None) = 0 /\ owner (mkPoint 0 None) = None
  /\ fst (Point_.add WHITE 0 (mkPoint 0 None)) = Ok tt
  /\ checkers (snd (Point_.add WHITE 0 (mkPoint 0 None))) = 0
  /\ owner (snd (Point_.add WHITE 0 (mkPoint 0 None))) = Some WHITE
  /\ fst (Point_.remove (-1) (mkPoint 0 None)) = Ok tt
  /\ checkers (snd (Point_.remove (-1) (mkPoint 0 None))) = 1
  /\ owner (snd (Point_.remove (-1) (mkPoint 0 None))) = None.
Proof. repeat split. Qed.

(** C3, with the board in the data model: on a board whose pockets are
    well formed and on which each player has 15 checkers, applying a move
    that [legal_single_targets] produced leaves each player with 15
    checkers, whether the call returns or raises; when it returns and the
    move hits, the blot is on its owner's bar and the mover's checker is
    alone on the point. *)
Theorem checker_conservation b p s ds l d e r b' :
  wf_board b = true ->
  total b WHITE = 15 -> total b BLACK = 15 ->
  legal_single_targets b p s ds = Ok l -> In (d, e) l ->
  apply_single_move p s e b = (r, b') ->
  total b' WHITE = 15 /\ total b' BLACK = 15
  /\ (r = Ok tt -> hit_relocates b p e b').
Proof.
  intros W TW TB Hl Hin Ha.
  destruct (legal_move_step _ _ _ _ _ _ _ _ _ W Hl Hin Ha)
    as ((_ & T & _) & Hh & _).
  rewrite !T. auto.
Qed.

Lemma checker_conservation_witness :
  total (snd (apply_single_move WHITE 24 21 standard_setup)) WHITE = 15
  /\ total (snd (apply_single_move WHITE 24 21 standard_setup)) BLACK = 15
  /\ (fst (apply_single_move WHITE 24 21 standard_setup) = Ok tt ->
      hit_relocates standard_setup WHITE 21
        (snd (apply_single_move WHITE 24 21 standard_setup))).
Proof.
  apply (checker_conservation standard_setup WHITE 24 [3; 1]
           [(3, 21); (1, 23)] 3 21
           (fst (apply_single_move WHITE 24 21 standard_setup))
           (snd (apply_single_move WHITE 24 21 standard_setup))).
  - reflexivity.
  - reflexivity.
  - reflexivity.
  - reflexivity.
  - simpl; auto.
  - reflexivity.
Defined.

(** C3 as stated fails: [stray_bar_board] has 28 pockets, each with the
    point invariant, and 15 checkers a side, but Black's checker lies on
    White's bar slot.  [legal_single_targets] lets White enter from the
    bar with a 3, and [apply_single_move] takes Black's checker off the
    slot and puts a White one on point 22: 16 White and 14 Black
    checkers. *)
Lemma conservation_fails_on_stray_bar :
  length (points stray_bar_board) = 28%nat
  /\ forallb point_inv (points stray_bar_board) = true
  /\ total stray_bar_board WHITE = 15 /\ total stray_bar_board BLACK = 15
  /\ legal_single_targets stray_bar_board WHITE 0 [3] = Ok [(3, 22)]
  /\ fst (apply_single_move WHITE 0 22 stray_bar_board) = Ok tt
  /\ total (snd (apply_single_move WHITE 0 22 stray_bar_board)) WHITE = 16
  /\ total (snd (apply_single_move WHITE 0 22 stray_bar_board)) BLACK = 14.
Proof. repeat split. Qed.

(* ------------------------------------------------------------------ *)
(** ** Winning *)

Lemma held_sum_nonneg p l :
  (forall pt, In pt l -> 0 <= held p pt) ->
  0 <= fold_right (fun pt n => held p pt + n) 0 l.
Proof.
  induction l as [|x l IH]; intros Hpos; simpl; [lia|].
  assert (0 <= held p x) by (apply Hpos; now left).
  assert (0 <= fold_right (fun pt n => held p pt + n) 0 l)
    by (apply IH; intros; apply Hpos; now right).
  lia.
Qed.

Lemma held_nonneg_sum p l :
  (forall pt, In pt l -> 0 <= held p pt) ->
  forall k, (k < length l)%nat ->
  held p (nth k l (mkPoint 0 None))
  <= fold_right (fun pt n => held p pt + n) 0 l.
Proof.
  induction l as [|x l IH]; intros Hpos k Hk; simpl in *; [lia|].
  assert (0 <= fold_right (fun pt n => held p pt + n) 0 l)
    by (apply held_sum_nonneg; intros; apply Hpos; now right).
  assert (0 <= held p x) by (apply Hpos; now left).
  destruct k as [|k]; [lia|].
  specialize (IH (fun pt Hin => Hpos pt (or_intror Hin)) k). lia.
Qed.

Lemma off_le_total b p :
  wf_board b = true -> checkers (pocket b (off_index p)) <= total b p.
Proof.
  intros W. pose proof (wf_slots28 _ W) as L.
  destruct (wf_pocket b (off_index p) W (off_index_range p)) as [P S].
  rewrite slot_ok_off in S.
  assert (E : checkers (pocket b (off_index p))
              = held p (pocket b (off_index p))).
  { clear - P S. own_cases; bool_cases; lia. }
  rewrite E. unfold total, pocket. apply held_nonneg_sum.
  - intros pt Hin. apply (wf_In b) in Hin; auto.
    clear - Hin. own_cases; bool_cases; lia.
  - rewrite L. pose proof (off_index_range p). lia.
Qed.

Lemma play_moves_reachable ms : forall b b',
  reachable b -> play_moves ms b = Some b' -> reachable b'.
Proof.
  induction ms as [|[[[p s] d] e] ms IH]; intros b b' R E; simpl in E.
  - now inversion E; subst.
  - destruct (legal_single_targets b p s [d]) as [l|] eqn:El; [|discriminate].
    destruct (existsb _ l) eqn:Ex; [|discriminate].
    destruct (apply_single_move p s e b) as [[[]|] b1] eqn:Ea; [|discriminate].
    apply (IH b1 b'); [|exact E].
    apply existsb_exists in Ex as ([d' e'] & Hin & Hde). simpl in Hde.
    apply andb_true_iff in Hde as [Hd He].
    apply Z.eqb_eq in Hd, He. subst d' e'.
    exact (reach_move b p s [d] l d e b1 R El Hin Ea).
Qed.

Lemma race_won_reachable : reachable race_won_board.
Proof.
  apply (play_moves_reachable white_race standard_setup);
    [exact reach_setup|].
  vm_compute. reflexivity.
Qed.

(** C7: in an engine state whose board is reachable from the standard
    setup, [has_won p] returns, and it returns true exactly when slot 25
    (for White) or slot 27 (for Black), the off-tray slot of [p], holds 15
    checkers.  Applying a move that [legal_single_targets] produced, for
    either player, never decreases the count of that slot, whether the call
    returns or raises, so that [has_won p] stays true once it is. *)
Theorem win_condition e p :
  reachable (board e) ->
  (exists won,
     Engine_.has_won e p = Ok won
     /\ (won = true <-> checkers (pocket (board e) (off_tray p)) = 15))
  /\ (forall q s ds l d e' r b',
        legal_single_targets (board e) q s ds = Ok l -> In (d, e') l ->
        apply_single_move q s e' (board e) = (r, b') ->
        checkers (pocket (board e) (off_tray p))
        <= checkers (pocket b' (off_tray p))
        /\ (Engine_.has_won e p = Ok true ->
            Engine_.has_won (mkEngine b' (turn e) (dice e)) p = Ok true)).
Proof.
  intros R. pose proof (reachable_wf _ R) as W.
  pose proof (reachable_total _ p R) as T.
  pose proof (off_le_total _ p W) as Hle.
  pose proof (wf_slots28 _ W) as L.
  change (off_tray p) with (off_index p).
  unfold Engine_.has_won. rewrite count_off_pocket by assumption. simpl.
  split.
  - eexists. split; [reflexivity|].
    rewrite Z.leb_le. lia.
  - intros q s ds l d e' r b' Hl Hin Ha.
    destruct (legal_move_step _ _ _ _ _ _ _ _ _ W Hl Hin Ha)
      as ((W' & _ & O) & _).
    rewrite count_off_pocket by now apply wf_slots28.
    specialize (O p). split; [exact O|]. simpl.
    intros H.
    assert (H' : (15 <=? checkers (pocket (board e) (off_index p))) = true)
      by congruence.
    apply Z.leb_le in H'. f_equal. apply Z.leb_le. lia.
Qed.

Lemma win_condition_witness :
  checkers (pocket race_won_board 25) = 15
  /\ Engine_.has_won (mkEngine race_won_board BLACK []) WHITE = Ok true.
Proof.
  split; [reflexivity|].
  destruct (proj1 (win_condition (mkEngine race_won_board BLACK []) WHITE
                     race_won_reachable)) as (won & E & I).
  rewrite E. f_equal. apply I. reflexivity.
Defined.

(* ------------------------------------------------------------------ *)
(** ** Entering from the bar *)

(** C8: when the player has a checker on the bar and [start] is not the
    player's bar slot, [legal_single_targets] returns the empty list,
    whatever the dice. *)
Theorem bar_entry_is_mandatory b p start_ dice_ n :
  count_on_bar b p = Ok n -> 0 < n -> start_ <> bar_index p ->
  legal_single_targets b p start_ dice_ = Ok [].
Proof.
  intros Hn Hpos Hs. unfold legal_single_targets. rewrite Hn. simpl.
  destruct (Z.ltb_spec 0 n); [|lia].
  destruct (Z.eqb_spec start_ (bar_index p)); [contradiction|].
  reflexivity.
Qed.

Lemma bar_entry_is_mandatory_witness :
  legal_single_targets sample_board WHITE 6 [3; 1] = Ok [].
Proof.
  apply (bar_entry_is_mandatory sample_board WHITE 6 [3; 1] 1).
  - reflexivity.
  - lia.
  - simpl; lia.
Defined.

(* ------------------------------------------------------------------ *)
(** ** Applying a route whose dice are gone *)

Lemma list_remove_absent d l : ~ In d l -> list_remove d l = Raise ValueError.
Proof.
  induction l as [|y l IH]; simpl; intros Hn; [reflexivity|].
  destruct (Z.eqb_spec y d) as [->|N]; [exfalso; auto|].
  rewrite IH by tauto. reflexivity.
Qed.

Lemma apply_move_missing_die e m :
  ~ In (die m) (dice e) ->
  Engine_.apply_move m e
  = (fst (apply_single_move (turn e) (start m) (end_ m) (board e)),
     mkEngine (snd (apply_single_move (turn e) (start m) (end_ m) (board e)))
              (turn e) (dice e)).
Proof.
  intros Hn.
  unfold Engine_.apply_move, bind, Engine_.on_engine_board.
  destruct (apply_single_move _ _ _ _) as [[[]|x] b']; simpl; auto.
  unfold Engine_.discard_die; simpl. now rewrite list_remove_absent.
Qed.

Lemma list_remove_raises d l e : list_remove d l = Raise e -> e = ValueError.
Proof.
  induction l as [|y l IH]; simpl; intros Hr; [congruence|].
  destruct (y =? d); [discriminate|].
  destruct (list_remove d l); simpl in Hr; [discriminate|].
  inversion Hr; subst. now apply IH.
Qed.

Lemma discard_die_returns d e :
  exists ds, Engine_.discard_die d e = (Ok tt, mkEngine (board e) (turn e) ds).
Proof.
  unfold Engine_.discard_die.
  destruct (list_remove d (dice e)) as [ds|x] eqn:E; [eauto|].
  apply list_remove_raises in E as ->. exists (dice e). now destruct e.
Qed.

Lemma apply_move_board m e :
  exists ds,
    Engine_.apply_move m e
    = (fst (apply_single_move (turn e) (start m) (end_ m) (board e)),
       mkEngine (snd (apply_single_move (turn e) (start m) (end_ m) (board e)))
                (turn e) ds).
Proof.
  unfold Engine_.apply_move. rewrite bind_run.
  unfold Engine_.on_engine_board.
  destruct (apply_single_move _ _ _ _) as [[[]|x] b']; simpl; [|eauto].
  destruct (discard_die_returns (die m) (mkEngine b' (turn e) (dice e)))
    as (ds & ->). simpl. eauto.
Qed.

Lemma apply_route_board ms : forall e,
  fst (mfold (fun _ m => Engine_.apply_move m) ms tt e)
  = fst (apply_moves (turn e) ms (board e))
  /\ board (snd (mfold (fun _ m => Engine_.apply_move m) ms tt e))
     = snd (apply_moves (turn e) ms (board e))
  /\ turn (snd (mfold (fun _ m => Engine_.apply_move m) ms tt e)) = turn e.
Proof.
  unfold apply_moves.
  induction ms as [|m ms IH]; intros e; simpl; [auto|].
  rewrite !bind_run. destruct (apply_move_board m e) as (ds & ->).
  destruct (apply_single_move _ _ _ _) as [[[]|x] b']; simpl; auto.
  pose proof (IH (mkEngine b' (turn e) ds)) as H. simpl in H. exact H.
Qed.

(** C9: removing a die that is not among the active dice returns normally
    and leaves the engine as it is; a route all of whose dice are missing is
    applied to the board move by move with the dice unchanged; and for any
    route, [apply_route] raises only what the board mutation raises and
    leaves the board that the moves alone produce. *)
Theorem apply_route_tolerates_missing_die :
  (forall e m, ~ In (die m) (dice e) ->
     Engine_.discard_die (die m) e = (Ok tt, e))
  /\ (forall e route,
        (forall m, In m (moves route) -> ~ In (die m) (dice e)) ->
        Engine_.apply_route route e
        = (fst (apply_moves (turn e) (moves route) (board e)),
           mkEngine (snd (apply_moves (turn e) (moves route) (board e)))
                    (turn e) (dice e)))
  /\ (forall e route,
        fst (Engine_.apply_route route e)
        = fst (apply_moves (turn e) (moves route) (board e))
        /\ board (snd (Engine_.apply_route route e))
           = snd (apply_moves (turn e) (moves route) (board e))).
Proof.
  split; [|split].
  - intros e m Hn. unfold Engine_.discard_die.
    now rewrite list_remove_absent.
  - intros e [ms]; simpl. unfold Engine_.apply_route, apply_moves; simpl.
    revert e. induction ms as [|m ms IH]; intros e Hn; simpl.
    + now destruct e.
    + rewrite !bind_run.
      rewrite apply_move_missing_die by (apply Hn; now left).
      destruct (apply_single_move _ _ _ _) as [[[]|x] b']; simpl; auto.
      rewrite IH by (simpl; intros; apply Hn; now right). reflexivity.
  - intros e [ms]. unfold Engine_.apply_route. simpl.
    destruct (apply_route_board ms e) as (H1 & H2 & _). auto.
Qed.

Lemma apply_route_tolerates_missing_die_witness :
  Engine_.apply_route (mkRoute [mkMove 24 21 3])
                      (mkEngine standard_setup WHITE [1])
  = (Ok tt,
     mkEngine (snd (apply_single_move WHITE 24 21 standard_setup)) WHITE [1]).
Proof.
  apply (proj1 (proj2 apply_route_tolerates_missing_die)
           (mkEngine standard_setup WHITE [1]) (mkRoute [mkMove 24 21 3])).
  simpl. intros m [<-|[]]. simpl. lia.
Defined.

(* ------------------------------------------------------------------ *)
(** ** The slots that the evaluators read *)

(** C2: for White the evaluator and the fuzzy features read the bar and
    off-tray slots of the data model.  For Black they read slot 25 as the
    bar and slot 0 as the off-tray, which are White's off-tray and White's
    bar: on [sample_board] Black has 1 checker on the bar and 2 borne off,
    and both modules report 3 and 1. *)
Theorem evaluators_read_white_slots_for_black :
  (forall b,
     Evaluator.count_on_bar b WHITE = count_on_bar b WHITE
     /\ Evaluator.count_borne_off b WHITE = count_off b WHITE
     /\ Fuzzy.on_bar b WHITE = count_on_bar b WHITE
     /\ Fuzzy.borne_off b WHITE = count_off b WHITE)
  /\ (forall b,
        Evaluator.count_on_bar b BLACK = count_off b WHITE
        /\ Evaluator.count_borne_off b BLACK = count_on_bar b WHITE
        /\ Fuzzy.on_bar b BLACK = count_off b WHITE
        /\ Fuzzy.borne_off b BLACK = count_on_bar b WHITE)
  /\ wf_board sample_board = true
  /\ count_on_bar sample_board BLACK = Ok 1
  /\ Evaluator.count_on_bar sample_board BLACK = Ok 3
  /\ Fuzzy.on_bar sample_board BLACK = Ok 3
  /\ count_off sample_board BLACK = Ok 2
  /\ Evaluator.count_borne_off sample_board BLACK = Ok 1
  /\ Fuzzy.borne_off sample_board BLACK = Ok 1.
Proof. repeat split. Qed.

(* ------------------------------------------------------------------ *)
(** ** Computations that only move the state along a preorder *)

Section Preserves.
Context {S : Type} (R : S -> S -> Prop).
Hypothesis R_refl : forall s, R s s.
Hypothesis R_trans : forall s1 s2 s3, R s1 s2 -> R s2 s3 -> R s1 s3.

Lemma preserves_ret {A} (a : A) : preserves R (ret a).
Proof. intros s r s' E. inversion E; subst; auto. Qed.

Lemma preserves_throw {A} e : preserves R (@throw S A e).
Proof. intros s r s' E. inversion E; subst; auto. Qed.

Lemma preserves_lift {A} (x : result A) : preserves R (lift x).
Proof. intros s r s' E. inversion E; subst; auto. Qed.

Lemma preserves_bind {A B} (m : M S A) (k : A -> M S B) :
  preserves R m -> (forall a, preserves R (k a)) -> preserves R (bind m k).
Proof.
  intros Hm Hk s r s' E. rewrite bind_run in E.
  destruct (m s) as [[a|e] s1] eqn:Em.
  - eapply R_trans; [eapply Hm|eapply Hk]; eauto.
  - inversion E; subst. eapply Hm; eauto.
Qed.

Lemma preserves_mfold {A B} (body : B -> A -> M S B) l :
  (forall acc x, In x l -> preserves R (body acc x)) ->
  forall acc, preserves R (mfold body l acc).
Proof.
  induction l as [|x l IH]; intros Hb acc; simpl.
  - apply preserves_ret.
  - apply preserves_bind; [apply Hb; now left|].
    intros a. apply IH. intros; apply Hb; now right.
Qed.
End Preserves.

(* ------------------------------------------------------------------ *)
(** ** The generator only allocates *)

Lemma grows_refl s : grows s s.
Proof. split; exists []; now rewrite app_nil_r. Qed.

Lemma grows_trans s1 s2 s3 : grows s1 s2 -> grows s2 s3 -> grows s1 s3.
Proof.
  intros [[h1 H1] [r1 R1]] [[h2 H2] [r2 R2]]. split.
  - exists (h1 ++ h2). now rewrite H2, H1, app_assoc.
  - exists (r1 ++ r2). now rewrite R2, R1, app_assoc.
Qed.

Lemma grows_lookup s s' k bd :
  grows s s' -> nth_error (heap s) k = Some bd ->
  nth_error (heap s') k = Some bd.
Proof.
  intros [[hx ->] _] E. rewrite nth_error_app1; auto.
  apply nth_error_Some. congruence.
Qed.

Lemma list_set_lookup {A} k (x : A) l :
  nth_error l k = Some x -> list_set k x l = l.
Proof.
  revert k; induction l as [|y l IH]; intros [|k]; simpl; intros E;
    try discriminate; auto.
  - now inversion E.
  - now rewrite IH.
Qed.

Lemma list_set_last {A} (x y : A) l :
  list_set (length l) y (l ++ [x]) = l ++ [y].
Proof. induction l as [|z l IH]; simpl; auto. now rewrite IH. Qed.

Lemma on_heap_query {A} b (f : Board -> result A) h :
  on_heap b (query f) h
  = (match nth_error h b with Some bd => f bd | None => Raise Dangling end, h).
Proof.
  unfold on_heap, query. destruct (nth_error h b) as [bd|] eqn:E; auto.
  now rewrite list_set_lookup.
Qed.

Lemma at_board_query {A} b (f : Board -> result A) s :
  at_board b (query f) s
  = (match nth_error (heap s) b with
     | Some bd => f bd
     | None => Raise Dangling
     end, s).
Proof. unfold at_board. rewrite on_heap_query. now destruct s. Qed.

Lemma preserves_at_board_query {A} b (f : Board -> result A) :
  preserves grows (at_board b (query f)).
Proof.
  intros s r s' E. rewrite at_board_query in E. inversion E; subst.
  apply grows_refl.
Qed.

Lemma preserves_record_route acc : preserves grows (record_route acc).
Proof.
  intros s r s' E. unfold record_route, modify in E. inversion E; subst.
  split; simpl; [exists []; now rewrite app_nil_r|eauto].
Qed.

(** Cloning and then mutating the clone leaves every older object alone. *)
Lemma clone_then_mutate {A} b (m : M Board A) s r s1 x s2 :
  clone b s = (Ok r, s1) -> at_board r m s1 = (x, s2) ->
  exists bd, nth_error (heap s) b = Some bd
             /\ r = length (heap s)
             /\ x = fst (m bd)
             /\ s2 = mkGen (heap s ++ [snd (m bd)]) (routes s).
Proof.
  unfold clone. destruct (nth_error (heap s) b) as [bd|] eqn:E;
    [|discriminate].
  intros Hc Ha. inversion Hc; subst; clear Hc.
  exists bd. split; auto. split; auto.
  unfold at_board, on_heap in Ha; simpl in Ha.
  rewrite nth_error_app2, Nat.sub_diag in Ha by lia. simpl in Ha.
  destruct (m bd) as [y bd']. rewrite list_set_last in Ha.
  inversion Ha; subst. auto.
Qed.

Lemma preserves_try_candidate p recurse b remaining acc start_ loc c :
  (forall b' rem acc', preserves grows (recurse b' rem acc')) ->
  preserves grows (try_candidate p recurse b remaining acc start_ loc c).
Proof.
  intros Hrec. unfold try_candidate. destruct c as [d e].
  destruct (existsb _ _); [apply preserves_ret; apply grows_refl|].
  intros s r s' E. rewrite bind_run in E.
  destruct (clone b s) as [[b2|x] s1] eqn:Ec.
  - rewrite bind_run in E.
    destruct (at_board b2 _ s1) as [y s2] eqn:Ea.
    destruct (clone_then_mutate _ _ _ _ _ _ _ Ec Ea) as (bd & _ & _ & _ & ->).
    assert (G : grows s (mkGen (heap s ++ [snd (apply_single_move p start_ e bd)])
                              (routes s))).
    { split; simpl; [eauto|exists []; now rewrite app_nil_r]. }
    destruct y as [[]|y]; [|inversion E; subst; exact G].
    eapply grows_trans; [exact G|].
    revert E. generalize (mkGen (heap s ++ [snd (apply_single_move p start_ e bd)])
                                (routes s)).
    intros s2 E.
    eapply (preserves_bind grows grows_trans); [| |exact E].
    + apply preserves_lift, grows_refl.
    + intros rem. apply (preserves_bind grows grows_trans);
        [apply Hrec|].
      intros _. apply preserves_ret, grows_refl.
  - unfold clone in Ec. destruct (nth_error (heap s) b); inversion Ec; subst.
    inversion E; subst. apply grows_refl.
Qed.

Lemma preserves_explore p recurse b remaining acc :
  (forall b' rem acc', preserves grows (recurse b' rem acc')) ->
  preserves grows (explore p recurse b remaining acc).
Proof.
  intros Hrec. unfold explore.
  apply (preserves_bind grows grows_trans);
    [apply preserves_at_board_query|].
  intros starts. apply (preserves_bind grows grows_trans).
  - apply (preserves_mfold grows grows_refl grows_trans).
    intros loc st _. unfold explore_start.
    apply (preserves_bind grows grows_trans);
      [apply preserves_at_board_query|].
    intros cands. apply (preserves_mfold grows grows_refl grows_trans).
    intros loc' c _. now apply preserves_try_candidate.
  - intros loc. destruct (negb _);
      [apply preserves_record_route|apply preserves_ret, grows_refl].
Qed.

Lemma preserves_backtrack fuel p :
  forall b remaining acc, preserves grows (backtrack fuel p b remaining acc).
Proof.
  induction fuel as [|fuel IH]; intros b [|d rem] acc; simpl;
    try apply preserves_record_route.
  - apply preserves_throw, grows_refl.
  - now apply preserves_explore.
Qed.

(** C10: [legal_single_targets], run on a board object of the heap,
    leaves the whole heap as it is; [generate_all_routes], whether it
    returns or raises, only allocates: the heap afterwards is the heap
    before followed by the clones, so the board it was given, like every
    other object that existed, has the pockets it had. *)
Theorem queries_leave_boards_unchanged :
  (forall b p start_ ds h,
     snd (legal_single_targets_at b p start_ ds h) = h)
  /\ (forall b p ds h r h',
        generate_all_routes b p ds h = (r, h') ->
        (exists fresh, h' = h ++ fresh)
        /\ forall k bd, nth_error h k = Some bd -> nth_error h' k = Some bd).
Proof.
  split.
  - intros. unfold legal_single_targets_at. now rewrite on_heap_query.
  - intros b p ds h r h' E. unfold generate_all_routes in E.
    destruct (backtrack _ _ _ _ _ _) as [x s] eqn:Eb.
    inversion E; subst.
    pose proof (preserves_backtrack _ _ _ _ _ _ _ _ Eb) as G.
    split; [now destruct G as [G _]|].
    intros k bd Hk. now apply (grows_lookup _ _ _ _ G).
Qed.

Lemma queries_leave_boards_unchanged_witness :
  (exists fresh,
     snd (generate_all_routes 0%nat WHITE [3; 1] [standard_setup])
     = [standard_setup] ++ fresh)
  /\ forall k bd,
       nth_error [standard_setup] k = Some bd ->
       nth_error (snd (generate_all_routes 0%nat WHITE [3; 1]
                         [standard_setup])) k = Some bd.
Proof.
  apply (proj2 queries_leave_boards_unchanged 0%nat WHITE [3; 1]
           [standard_setup]
           (fst (generate_all_routes 0%nat WHITE [3; 1] [standard_setup]))).
  apply surjective_pairing.
Defined.

(* ------------------------------------------------------------------ *)
(** ** What the generator records *)

Lemma list_remove_length d l l' :
  list_remove d l = Ok l' -> length l = S (length l').
Proof.
  revert l'; induction l as [|y l IH]; simpl; intros l' E; [discriminate|].
  destruct (y =? d); [now inversion E|].
  destruct (list_remove d l) as [r|]; simpl in E; inversion E; subst.
  simpl. now rewrite (IH r).
Qed.

Lemma plays_length p bd ds ms :
  plays p bd ds ms -> (length ms <= length ds)%nat.
Proof.
  induction 1; simpl; try lia.
  match goal with H : list_remove _ _ = Ok _ |- _ =>
    apply list_remove_length in H end. lia.
Qed.

Lemma plays_short p bd ds ms :
  plays p bd ds ms -> (length ms < length ds)%nat ->
  exists bd' ds', replay p ms bd ds = Ok (bd', ds')
                  /\ ds' <> [] /\ stuck p bd' ds'.
Proof.
  induction 1 as [bd|bd ds Hne Hst|bd ds starts st cands d e bd' ds' ms
                     Hs Hin Hc Hinc Ha Hr Hp IH]; simpl; intros Hlt.
  - lia.
  - eauto.
  - rewrite Ha, Hr. simpl. apply IH.
    apply list_remove_length in Hr. lia.
Qed.

Lemma rfold_app_nil {A B} (f : A -> result (list B)) l acc r :
  rfold (fun cands d => rbind (f d) (fun l => Ok (cands ++ l))) l acc = Ok r ->
  exists ls, r = acc ++ concat ls
             /\ Forall2 (fun d l' => f d = Ok l') l ls.
Proof.
  revert acc r; induction l as [|x l IH]; simpl; intros acc r E.
  - inversion E; subst. exists []. simpl. now rewrite app_nil_r.
  - destruct (f x) as [lx|] eqn:Ex; simpl in E; [|discriminate].
    destruct (IH _ _ E) as (ls & -> & F).
    exists (lx :: ls). simpl. rewrite app_assoc. auto.
Qed.

Lemma candidates_spec bd p st ds cands :
  candidates bd p st ds = Ok cands ->
  exists ls, cands = concat ls
             /\ Forall2 (fun d l => legal_single_targets bd p st [d] = Ok l)
                        ds ls.
Proof.
  intros E. unfold candidates in E.
  apply (rfold_app_nil (fun d => legal_single_targets bd p st [d])) in E.
  destruct E as (ls & -> & F). exists ls. auto.
Qed.

Lemma candidates_nil bd p st ds d :
  candidates bd p st ds = Ok [] -> In d ds ->
  legal_single_targets bd p st [d] = Ok [].
Proof.
  intros E Hin. apply candidates_spec in E as (ls & Hc & F).
  symmetry in Hc. revert Hc Hin. induction F as [|x l ds ls Hx F IH]; simpl.
  - intros _ [].
  - intros Hc [<-|Hin].
    + apply app_eq_nil in Hc as [-> _]. exact Hx.
    + apply app_eq_nil in Hc as [_ Hc]. auto.
Qed.

(* ------------------------------------------------------------------ *)
(** ** Loop invariants *)

Lemma mfold_invariant {S A B} (I : list A -> B -> S -> Prop)
    (body : B -> A -> M S B) l :
  (forall done x rest a st a' st',
     l = done ++ x :: rest -> I done a st ->
     body a x st = (Ok a', st') -> I (done ++ [x]) a' st') ->
  forall acc s acc' s',
    I [] acc s -> mfold body l acc s = (Ok acc', s') -> I l acc' s'.
Proof.
  intros Hb.
  assert (G : forall rest done acc s acc' s',
             l = done ++ rest -> I done acc s ->
             mfold body rest acc s = (Ok acc', s') -> I l acc' s').
  { induction rest as [|x rest IH]; intros done acc s acc' s' El Hi E.
    - simpl in E. inversion E; subst. now rewrite app_nil_r.
    - simpl in E. rewrite bind_run in E.
      destruct (body acc x s) as [[a|e] st] eqn:Eb; [|discriminate].
      apply (IH (done ++ [x]) a st); auto.
      + now rewrite <- app_assoc.
      + eapply Hb; eauto. }
  intros acc s acc' s'. now apply (G l []).
Qed.

Lemma records_refl p bd ds acc s : records p bd ds acc s s.
Proof. exists []. now rewrite app_nil_r. Qed.

Lemma records_trans p bd ds acc s1 s2 s3 :
  records p bd ds acc s1 s2 -> records p bd ds acc s2 s3 ->
  records p bd ds acc s1 s3.
Proof.
  intros (n1 & E1 & F1) (n2 & E2 & F2). exists (n1 ++ n2).
  rewrite E2, E1, app_assoc. split; auto. now apply Forall_app.
Qed.

Section ExploreSound.
Variables (p : Player)
          (recurse : ref -> list Z -> list Move -> M GenState unit).
Hypothesis rec_grows :
  forall b' rem acc', preserves grows (recurse b' rem acc').
Hypothesis rec_sound : sound_call p recurse.
Variables (b : ref) (remaining : list Z) (acc : list Move).
Variables (s0 : GenState) (bd : Board) (starts : list Z).
Hypothesis Hb : nth_error (heap s0) b = Some bd.
Hypothesis Hstarts : starts_of bd p = Ok starts.

Local Abbreviation inner := (inner_inv p bd remaining acc s0).
Local Abbreviation outer := (outer_inv p bd remaining acc s0).

Lemma try_candidate_inv before st cands done c rest loc s loc' s' :
  In st starts -> candidates bd p st remaining = Ok cands ->
  cands = done ++ c :: rest ->
  inner before done loc s ->
  try_candidate p recurse b remaining acc st loc c s = (Ok loc', s') ->
  inner before (done ++ [c]) loc' s'.
Proof.
  intros Hst Hc Hcs (G & R & U) E. subst cands.
  assert (G' : grows s s')
    by (eapply preserves_try_candidate; eauto).
  split; [eapply grows_trans; eauto|].
  unfold try_candidate in E. destruct c as [d e].
  destruct (existsb _ (used_mask loc)) eqn:Ex.
  - inversion E; subst. split; auto.
    intros Hu. destruct (U Hu) as (Hm & _). rewrite Hm in Ex. discriminate.
  - rewrite bind_run in E.
    destruct (clone b s) as [[b2|x] s1] eqn:Ec; [|discriminate].
    rewrite bind_run in E.
    destruct (at_board b2 _ s1) as [y s2] eqn:Ea.
    destruct (clone_then_mutate _ _ _ _ _ _ _ Ec Ea)
      as (bd0 & Hbd0 & -> & -> & ->).
    rewrite (grows_lookup _ _ _ _ G Hb) in Hbd0. inversion Hbd0; subst bd0.
    destruct (apply_single_move p st e bd) as [[[]|x] bd'] eqn:Eapp;
      simpl in E; [|discriminate].
    rewrite bind_run in E. unfold lift at 1 in E.
    destruct (list_remove d remaining) as [rem|] eqn:Er; [|discriminate].
    rewrite bind_run in E.
    destruct (recurse _ _ _ _) as [[[]|x] s3] eqn:Erec; [|discriminate].
    inversion E; subst; clear E. split; [|simpl; discriminate].
    eapply records_trans; [exact R|].
    apply (rec_sound _ _ _ _ _ bd') in Erec;
      [|simpl; now rewrite nth_error_app2, Nat.sub_diag by lia].
    destruct Erec as (new & En & Fn). exists new. simpl in En.
    split; auto. eapply Forall_impl; [|exact Fn].
    intros r (ms & Hm & Hp). exists (mkMove st e d :: ms). split.
    + now rewrite Hm, <- app_assoc.
    + eapply plays_move; eauto. apply in_elt.
Qed.

Lemma explore_start_inv done st rest loc s loc' s' :
  starts = done ++ st :: rest ->
  outer done loc s ->
  explore_start p recurse b remaining acc loc st s = (Ok loc', s') ->
  outer (done ++ [st]) loc' s'.
Proof.
  intros Hs (G & R & U) E. unfold explore_start in E.
  rewrite bind_run, at_board_query, (grows_lookup _ _ _ _ G Hb) in E.
  destruct (candidates bd p st remaining) as [cands|] eqn:Ec;
    [|discriminate].
  assert (Hst : In st starts) by (rewrite Hs; apply in_elt).
  apply (mfold_invariant (inner done)) in E.
  - destruct E as (G' & R' & U'). split; [exact G'|]. split; [exact R'|].
    intros Hu. destruct (U' Hu) as (Hm & -> & Hd). split; auto.
    intros x Hx. apply in_app_or in Hx as [Hx|[<-|[]]]; auto.
  - intros dc c rc a t a' t' Hcs Hi Et.
    eapply try_candidate_inv; eauto.
  - split; [exact G|]. split; [exact R|].
    intros Hu. destruct (U Hu) as (Hm & Hd). auto.
Qed.

Lemma explore_sound s' :
  remaining <> [] ->
  explore p recurse b remaining acc s0 = (Ok tt, s') ->
  records p bd remaining acc s0 s'.
Proof.
  intros Hne E. unfold explore in E.
  rewrite bind_run, at_board_query, Hb, Hstarts in E.
  rewrite bind_run in E.
  destruct (mfold _ starts _ s0) as [[loc|x] s1] eqn:Em; [|discriminate].
  apply (mfold_invariant outer) in Em.
  - destruct Em as (G & R & U).
    destruct (used_any loc) eqn:Hu; simpl in E.
    + now inversion E; subst.
    + unfold record_route, modify in E. inversion E; subst; clear E.
      eapply records_trans; [exact R|].
      exists [mkRoute acc]. split; auto. constructor; auto.
      exists []. rewrite app_nil_r. split; auto.
      apply plays_stuck; auto. exists starts. split; auto.
      intros st d Hst Hd. eapply candidates_nil; eauto.
      now apply U.
  - intros done st rest a t a' t' Hs Hi Et.
    eapply explore_start_inv; eauto.
  - split; [apply grows_refl|]. split; [apply records_refl|].
    intros _. split; auto. intros x [].
Qed.
End ExploreSound.

Lemma backtrack_sound p fuel : sound_call p (backtrack fuel p).
Proof.
  induction fuel as [|fuel IH]; intros b [|d ds] acc s s' bd Hb E;
    simpl in E.
  - unfold record_route, modify in E. inversion E; subst.
    exists [mkRoute acc]. split; auto. constructor; auto.
    exists []. rewrite app_nil_r. split; auto. constructor.
  - discriminate.
  - unfold record_route, modify in E. inversion E; subst.
    exists [mkRoute acc]. split; auto. constructor; auto.
    exists []. rewrite app_nil_r. split; auto. constructor.
  - assert (Hs : exists starts, starts_of bd p = Ok starts).
    { unfold explore in E.
      rewrite bind_run, at_board_query, Hb in E.
      destruct (starts_of bd p); [eauto|discriminate]. }
    destruct Hs as (starts & Hs).
    eapply explore_sound; eauto using preserves_backtrack. discriminate.
Qed.

(** The de-duplication returns routes that were recorded. *)
Lemma dict_set_values k r d x :
  In x (map snd (dict_set k r d)) -> x = r \/ In x (map snd d).
Proof.
  induction d as [|[k' r'] d IH]; simpl.
  - intros [<-|[]]; auto.
  - destruct (route_key_eqb k' k); simpl; intros [<-|H]; auto.
    destruct (IH H); auto.
Qed.

Lemma dedup_subset rs x : In x (dedup rs) -> In x rs.
Proof.
  unfold dedup.
  assert (G : forall d, In x (map snd (fold_left
                 (fun d r => dict_set (route_key r) r d) rs d)) ->
              In x rs \/ In x (map snd d)).
  { induction rs as [|r rs IH]; simpl; intros d H; auto.
    destruct (IH _ H) as [H'|H']; auto.
    destruct (dict_set_values _ _ _ _ H'); subst; auto. }
  intros H. destruct (G [] H) as [H'|[]]; auto.
Qed.


(** C1, as the generator has it: a returned route never has more moves
    than there are dice, and a returned route with fewer moves than dice
    ends stuck: replayed from the given board it returns a board and a
    non-empty list of unused dice for which no origin that the generator
    explores (the bar slot when the bar is occupied, the points 1 to 24
    otherwise) has a legal target. *)
Theorem short_routes_end_stuck b p ds h rs h' bd r :
  generate_all_routes b p ds h = (Ok rs, h') ->
  nth_error h b = Some bd ->
  In r rs ->
  (length (moves r) <= length ds)%nat
  /\ ((length (moves r) < length ds)%nat ->
      exists bd' ds',
        replay p (moves r) bd ds = Ok (bd', ds')
        /\ ds' <> [] /\ stuck p bd' ds').
Proof.
  intros E Hb Hin. unfold generate_all_routes in E.
  destruct (backtrack _ _ _ _ _ _) as [[[]|x] s] eqn:Eb; simpl in E;
    [|discriminate].
  inversion E; subst; clear E.
  apply (backtrack_sound _ _ _ _ _ _ _ bd) in Eb; [|exact Hb].
  destruct Eb as (new & En & Fn). simpl in En. subst new.
  apply dedup_subset in Hin.
  rewrite Forall_forall in Fn. destruct (Fn _ Hin) as (ms & Hm & Hp).
  simpl in Hm. rewrite Hm. split.
  - eapply plays_length; eauto.
  - intros Hlt. eapply plays_short; eauto.
Qed.

Lemma short_routes_end_stuck_witness :
  (length [mkMove 10 7 3] <= length [3; 5])%nat
  /\ ((length [mkMove 10 7 3] < length [3; 5])%nat ->
      exists bd' ds',
        replay WHITE [mkMove 10 7 3] detour_board [3; 5] = Ok (bd', ds')
        /\ ds' <> [] /\ stuck WHITE bd' ds').
Proof.
  apply (short_routes_end_stuck 0%nat WHITE [3; 5] [detour_board]
           [mkRoute [mkMove 10 7 3];
            mkRoute [mkMove 10 5 5; mkMove 20 17 3];
            mkRoute [mkMove 20 17 3; mkMove 10 5 5];
            mkRoute [mkMove 20 17 3; mkMove 17 12 5]]
           (snd (generate_all_routes 0%nat WHITE [3; 5] [detour_board]))
           detour_board (mkRoute [mkMove 10 7 3])).
  - vm_compute. reflexivity.
  - reflexivity.
  - simpl. auto.
Defined.

(** C1 as stated fails: on [detour_board], a board of the data model with
    15 checkers a side, White rolls 3 and 5.  The generator returns three
    routes that play both dice and also the route that plays 10 to 7 with
    the 3, after which the 5 cannot be played. *)
Lemma maximal_usage_fails :
  wf_board detour_board = true
  /\ total detour_board WHITE = 15 /\ total detour_board BLACK = 15
  /\ Engine_.generate_routes (mkEngine detour_board WHITE [3; 5])
     = Ok [mkRoute [mkMove 10 7 3];
           mkRoute [mkMove 10 5 5; mkMove 20 17 3];
           mkRoute [mkMove 20 17 3; mkMove 10 5 5];
           mkRoute [mkMove 20 17 3; mkMove 17 12 5]].
Proof. repeat split; vm_compute; reflexivity. Qed.

(* ------------------------------------------------------------------ *)
(** ** The generator returns on boards of the data model *)

Lemma rfold_total {A B} (body : B -> A -> result B) l :
  (forall acc x, In x l -> exists acc', body acc x = Ok acc') ->
  forall acc, exists r, rfold body l acc = Ok r.
Proof.
  induction l as [|x l IH]; intros Hb acc; simpl; eauto.
  destruct (Hb acc x) as (acc' & ->); [now left|]. simpl.
  apply IH. intros; apply Hb; now right.
Qed.

Lemma rfold_invariant_in {A B} (P : B -> Prop) (body : B -> A -> result B) l :
  (forall acc x acc', In x l -> P acc -> body acc x = Ok acc' -> P acc') ->
  forall acc r, P acc -> rfold body l acc = Ok r -> P r.
Proof.
  induction l as [|x l IH]; simpl; intros Hb acc r Ha Hr.
  - now inversion Hr; subst.
  - destruct (body acc x) eqn:E; simpl in Hr; [|discriminate].
    eapply IH; [| |exact Hr].
    + intros; eapply Hb; eauto.
    + eapply Hb; eauto.
Qed.

Lemma legal_single_targets_total b p s ds :
  slots28 b -> exists l, legal_single_targets b p s ds = Ok l.
Proof.
  intros L. unfold legal_single_targets.
  rewrite count_on_bar_pocket by assumption. simpl.
  destruct (_ && _); eauto.
  destruct (s =? bar_index p).
  { apply rfold_total. intros acc x _. unfold enter_step.
    destruct (on_board _) eqn:Ho; eauto.
    rewrite is_blocked_for_pocket by assumption. simpl. eauto. }
  destruct (on_board s) eqn:Hs; simpl; eauto.
  apply on_board_range in Hs.
  rewrite getitem_pocket by (auto; lia). simpl.
  destruct (_ || _); eauto.
  apply rfold_total. intros acc x _. unfold point_step.
  destruct (match p with WHITE => _ | BLACK => _ end); eauto.
  destruct (on_board _) eqn:Ho; eauto.
  rewrite is_blocked_for_pocket by assumption. simpl. eauto.
Qed.

Lemma legal_single_targets_die b p s ds l d e :
  legal_single_targets b p s ds = Ok l -> In (d, e) l -> In d ds.
Proof.
  intros H Hin. unfold legal_single_targets in H.
  destruct (count_on_bar b p) as [n|]; simpl in H; [|discriminate].
  destruct (_ && _); [inversion H; subst; contradiction|].
  assert (Step : forall body,
    (forall acc x acc', body acc x = Ok acc' ->
        acc' = acc \/ exists e', acc' = acc ++ [(x, e')]) ->
    forall l, rfold body ds [] = Ok l -> In (d, e) l -> In d ds).
  { intros body Hbody l0 Hl. pattern l0.
    eapply rfold_invariant_in; [| |exact Hl]; [|intros []].
    intros acc x acc' Hx IH Hb Hi.
    destruct (Hbody _ _ _ Hb) as [->|(e' & ->)]; auto.
    apply in_app_or in Hi as [Hi|[Hi|[]]]; auto. now inversion Hi; subst. }
  destruct (s =? bar_index p).
  { eapply Step; [|exact H|exact Hin].
    intros acc x acc' Hb. unfold enter_step in Hb.
    destruct (on_board _); [|inversion Hb; auto].
    destruct (is_blocked_for _ _ _) as [[]|]; simpl in Hb;
      inversion Hb; eauto. }
  destruct (negb (on_board s)); [inversion H; subst; contradiction|].
  destruct (getitem (points b) s) as [pt|]; simpl in H; [|discriminate].
  destruct (_ || _); [inversion H; subst; contradiction|].
  eapply Step; [|exact H|exact Hin].
  intros acc x acc' Hb. unfold point_step in Hb.
  destruct (match p with WHITE => _ | BLACK => _ end).
  { destruct (all_in_home b p); inversion Hb; eauto. }
  destruct (on_board _); [|inversion Hb; auto].
  destruct (is_blocked_for _ _ _) as [[]|]; simpl in Hb; inversion Hb; eauto.
Qed.

Lemma candidates_total bd p st ds :
  slots28 bd -> exists cands, candidates bd p st ds = Ok cands.
Proof.
  intros L. unfold candidates. apply rfold_total. intros acc x _.
  destruct (legal_single_targets_total bd p st [x] L) as (l & ->).
  simpl. eauto.
Qed.

Lemma candidates_member bd p st ds cands d e :
  slots28 bd ->
  candidates bd p st ds = Ok cands -> In (d, e) cands ->
  In d ds /\ legal_move bd p st e.
Proof.
  intros L E Hin. apply candidates_spec in E as (ls & -> & F).
  induction F as [|x l ds ls Hx F IH]; simpl in Hin; [contradiction|].
  apply in_app_or in Hin as [Hin|Hin].
  - split.
    + left. pose proof (legal_single_targets_die _ _ _ _ _ _ _ Hx Hin) as H.
      destruct H as [H|[]]; auto.
    + eapply legal_single_targets_sound; eauto.
  - destruct (IH Hin); split; auto. now right.
Qed.

Lemma list_remove_present d l : In d l -> exists l', list_remove d l = Ok l'.
Proof.
  induction l as [|y l IH]; simpl; intros Hin; [contradiction|].
  destruct (Z.eqb_spec y d); eauto.
  destruct Hin as [|Hin]; [contradiction|].
  destruct (IH Hin) as (l' & ->). simpl. eauto.
Qed.

Lemma starts_of_member bd p starts st :
  slots28 bd -> starts_of bd p = Ok starts -> In st starts ->
  (st = bar_index p /\ 0 < checkers (pocket bd (bar_index p)))
  \/ 1 <= st <= 24.
Proof.
  intros L E Hin. unfold starts_of in E.
  rewrite count_on_bar_pocket in E by assumption. simpl in E.
  inversion E; subst; clear E.
  destruct (Z.ltb_spec 0 (checkers (pocket bd (bar_index p)))).
  - destruct Hin as [<-|[]]. auto.
  - right. unfold all_starts in Hin. apply in_map_iff in Hin as (k & <- & Hk).
    apply in_seq in Hk. lia.
Qed.

Lemma mfold_total {S A B} (I : S -> Prop) (body : B -> A -> M S B) l :
  (forall x a s, In x l -> I s ->
                 exists a' s', body a x s = (Ok a', s') /\ I s') ->
  forall acc s, I s ->
                exists acc' s', mfold body l acc s = (Ok acc', s') /\ I s'.
Proof.
  induction l as [|x l IH]; intros Hb acc s Hi; simpl.
  - unfold ret. eauto.
  - rewrite bind_run.
    destruct (Hb x acc s) as (a' & s1 & -> & Hi1); [now left|exact Hi|].
    apply IH; auto. intros; apply Hb; auto. now right.
Qed.

Lemma explore_total p n recurse b remaining acc s0 bd :
  (forall b' rem acc', preserves grows (recurse b' rem acc')) ->
  total_call p n recurse ->
  (length remaining <= S n)%nat ->
  nth_error (heap s0) b = Some bd -> wf_board bd = true ->
  exists s', explore p recurse b remaining acc s0 = (Ok tt, s').
Proof.
  intros Hg Ht Hlen Hb W. pose proof (wf_slots28 _ W) as L.
  unfold explore. rewrite bind_run, at_board_query, Hb.
  destruct (starts_of bd p) as [starts|] eqn:Es.
  2:{ unfold starts_of in Es. rewrite count_on_bar_pocket in Es by assumption.
      discriminate. }
  rewrite bind_run.
  destruct (mfold_total (grows s0)
              (explore_start p recurse b remaining acc) starts)
    with (acc := mkLocals false []) (s := s0) as (loc & s1 & -> & G1);
    [|apply grows_refl|].
  - intros st a s Hst G. unfold explore_start.
    rewrite bind_run, at_board_query, (grows_lookup _ _ _ _ G Hb).
    destruct (candidates_total bd p st remaining L) as (cands & Ec).
    rewrite Ec.
    apply (mfold_total (grows s0)); [|exact G].
    intros [d e] a' s' Hc G'.
    destruct (candidates_member _ _ _ _ _ _ _ L Ec Hc) as (Hd & Hm).
    unfold try_candidate.
    destruct (existsb _ _); [unfold ret; eauto|].
    rewrite bind_run. unfold clone.
    rewrite (grows_lookup _ _ _ _ G' Hb).
    rewrite bind_run. unfold at_board, on_heap. simpl.
    rewrite nth_error_app2, Nat.sub_diag by lia. simpl.
    destruct (apply_legal_move bd p st e W Hm)
      as (r & bd' & Ea & (W' & _) & _ & Hr).
    assert (Hok : r = Ok tt).
    { destruct (Z.ltb_spec (checkers (pocket bd st)) 1) as [Hlt|]; auto.
      exfalso.
      destruct (starts_of_member _ _ _ _ L Es Hst) as [[-> Hpos]|Hrange];
        [lia|].
      destruct Hm as (_ & [->|(_ & _ & Hpos)] & _); [|lia].
      destruct p; simpl in Hrange; lia. }
    subst r. rewrite Ea, list_set_last.
    rewrite bind_run. unfold lift at 1.
    destruct (list_remove_present _ _ Hd) as (rem & Er). rewrite Er.
    rewrite bind_run.
    set (s2 := mkGen _ _).
    destruct (Ht (length (heap s')) rem
                 (acc ++ [mkMove st e d]) s2 bd') as (s3 & E3); auto.
    { apply list_remove_length in Er. lia. }
    { subst s2; simpl. now rewrite nth_error_app2, Nat.sub_diag by lia. }
    rewrite E3. unfold ret. do 2 eexists. split; [reflexivity|].
    eapply grows_trans; [exact G'|].
    eapply grows_trans; [|eapply Hg; exact E3].
    subst s2. split; simpl; [eauto|exists []; now rewrite app_nil_r].
  - destruct (negb (used_any loc)); unfold record_route, modify, ret; eauto.
Qed.

Lemma backtrack_total p fuel : total_call p fuel (backtrack fuel p).
Proof.
  induction fuel as [|fuel IH]; intros b [|d ds] acc s bd Hlen Hb W;
    simpl in *; try lia.
  - unfold record_route, modify. eauto.
  - unfold record_route, modify. eauto.
  - eapply explore_total; eauto using preserves_backtrack.
Qed.

Lemma generate_routes_total e :
  wf_board (board e) = true ->
  exists rs, Engine_.generate_routes e = Ok rs.
Proof.
  intros W. unfold Engine_.generate_routes, generate_all_routes.
  destruct (backtrack_total (turn e) (length (dice e)) 0%nat (dice e) []
              (mkGen [board e] []) (board e)) as (s' & ->); auto.
  simpl. eauto.
Qed.

(* ------------------------------------------------------------------ *)
(** ** Search at depth 0 *)

(** C6: a call of [minimax] with depth 0 counts one node, generates the
    routes of the root and, when that returns, counts one leaf evaluation
    and returns the evaluator's score of the root board for the side to
    move with an empty principal variation; the random source is not
    consulted.  On a board of the data model route generation does return.
    Were it to raise, the search would raise the same exception, as every
    search function propagates errors. *)
Theorem depth_zero_search randint_1_6 random_random fuel e eval_fn alpha beta w :
  let search :=
    minimax randint_1_6 random_random (S fuel) e 0 eval_fn alpha beta w in
  let visited :=
    mkDebug (nodes (debug w) + 1) (leaf_evals (debug w))
            (best_line (debug w)) in
  let evaluated :=
    mkDebug (nodes (debug w) + 1) (leaf_evals (debug w) + 1)
            (best_line (debug w)) in
  (forall rs v,
      Engine_.generate_routes e = Ok rs ->
      eval_fn (board e) (turn e) = Ok v ->
      search = (Ok (v, []), mkWorld (draws w) evaluated))
  /\ (wf_board (board e) = true ->
      exists rs, Engine_.generate_routes e = Ok rs)
  /\ (forall x, Engine_.generate_routes e = Raise x ->
                search = (Raise x, mkWorld (draws w) visited)).
Proof.
  simpl. split; [|split].
  - intros rs v Hr Hv.
    unfold bind, count_node, count_leaf, modify, lift, ret, _terminal_eval.
    rewrite Hr. simpl. rewrite Hv. reflexivity.
  - apply generate_routes_total.
  - intros x Hr. unfold bind, count_node, modify, lift. rewrite Hr.
    reflexivity.
Qed.

Lemma depth_zero_search_witness :
  minimax (fun _ => 0) (fun _ => 0%float) 1 (mkEngine standard_setup WHITE [3; 1])
          0 default_eval neg_infinity infinity (mkWorld 0 (mkDebug 0 0 []))
  = (Ok (0%float, []), mkWorld 0 (mkDebug 1 1 [])).
Proof.
  destruct (depth_zero_search (fun _ => 0) (fun _ => 0%float) 0
              (mkEngine standard_setup WHITE [3; 1]) default_eval
              neg_infinity infinity (mkWorld 0 (mkDebug 0 0 [])))
    as (H & _ & _).
  destruct (Engine_.generate_routes (mkEngine standard_setup WHITE [3; 1]))
    as [rs|] eqn:E; [|vm_compute in E; discriminate].
  apply (H rs 0%float); reflexivity.
Defined.

(* ------------------------------------------------------------------ *)
(** ** The fuzzy score in exact arithmetic *)

Create HintDb degrees.

Section FuzzyExact.
Local Open Scope Q_scope.

Lemma Qle_bool_false x y : Qle_bool x y = false -> y < x.
Proof.
  intros H. apply Qnot_le_lt. intros L. apply Qle_bool_iff in L. congruence.
Qed.

Lemma fdiv_exact (x y : Q) : 0 < y -> fdiv x y = Ok (x / y).
Proof.
  intros H. unfold fdiv. simpl.
  destruct (Qeq_bool y 0) eqn:E; [|reflexivity].
  apply Qeq_bool_iff in E. lra.
Qed.

Lemma eps_pos : 0 < (lit 1 1000000000 : Q).
Proof. reflexivity. Qed.

Lemma degree_quotient n d : 0 <= n -> n <= d -> 0 < d -> degree (n / d).
Proof.
  intros H0 H1 H2. split.
  - apply Qle_shift_div_l; lra.
  - apply Qle_shift_div_r; lra.
Qed.

Lemma tri_exact x a b c :
  a <= b -> b <= c -> exists v, Fuzzy.tri x a b c = Ok v /\ degree v.
Proof.
  intros Hab Hbc. pose proof eps_pos as He. unfold Fuzzy.tri. simpl.
  destruct (Qle_bool x a) eqn:E1; simpl.
  { exists (int 0). split; auto. split; unfold int; simpl; lra. }
  destruct (Qle_bool c x) eqn:E2; simpl.
  { exists (int 0). split; auto. split; unfold int; simpl; lra. }
  apply Qle_bool_false in E1, E2.
  destruct (Qeq_bool x b) eqn:E3.
  { exists (int 1). split; auto. split; unfold int; simpl; lra. }
  destruct (Qle_bool b x) eqn:E4; simpl.
  - apply Qle_bool_iff in E4.
    rewrite fdiv_exact by lra. eexists; split; [reflexivity|].
    apply degree_quotient; lra.
  - apply Qle_bool_false in E4.
    rewrite fdiv_exact by lra. eexists; split; [reflexivity|].
    apply degree_quotient; lra.
Qed.

Lemma trap_exact x a b c d :
  a <= b -> b <= c -> c <= d ->
  exists v, Fuzzy.trap x a b c d = Ok v /\ degree v.
Proof.
  intros Hab Hbc Hcd. pose proof eps_pos as He. unfold Fuzzy.trap. simpl.
  destruct (Qle_bool x a) eqn:E1; simpl.
  { exists (int 0). split; auto. split; unfold int; simpl; lra. }
  destruct (Qle_bool d x) eqn:E2; simpl.
  { exists (int 0). split; auto. split; unfold int; simpl; lra. }
  apply Qle_bool_false in E1, E2.
  destruct (Qle_bool b x && Qle_bool x c) eqn:E3.
  { exists (int 1). split; auto. split; unfold int; simpl; lra. }
  destruct (Qle_bool x a) eqn:E5; simpl.
  { apply Qle_bool_iff in E5. lra. }
  destruct (Qle_bool b x) eqn:E4; simpl.
  - apply Qle_bool_iff in E4. simpl in E3. apply Qle_bool_false in E3.
    rewrite fdiv_exact by lra. eexists; split; [reflexivity|].
    apply degree_quotient; lra.
  - apply Qle_bool_false in E4.
    rewrite fdiv_exact by lra. eexists; split; [reflexivity|].
    apply degree_quotient; lra.
Qed.

Lemma degree_int0 : degree (int 0).
Proof. split; unfold int; simpl; lra. Qed.

Lemma degree_int1 : degree (int 1).
Proof. split; unfold int; simpl; lra. Qed.

Lemma degree_fmax a b : degree a -> degree b -> degree (fmax a b).
Proof. intros Ha Hb. unfold fmax. now destruct (fltb a b). Qed.

Lemma degree_fmin a b : degree a -> degree b -> degree (fmin a b).
Proof. intros Ha Hb. unfold fmin. now destruct (fltb b a). Qed.

Lemma degree_fmin3 a b c :
  degree a -> degree b -> degree c -> degree (fmin3 a b c).
Proof. intros. unfold fmin3. auto using degree_fmin. Qed.

#[local] Hint Resolve degree_int0 degree_int1 degree_fmax degree_fmin
  degree_fmin3 : degrees.

Lemma rule_activations_exact (feat : Fuzzy.RouteFeatures Q) :
  exists p o g,
    Fuzzy.rule_activations feat = Ok (p, o, g)
    /\ degree p /\ degree o /\ degree g.
Proof.
  unfold Fuzzy.rule_activations.
  repeat match goal with
  | |- context [Fuzzy.tri ?x ?a ?b ?c] =>
      let v := fresh "v" in
      let E := fresh "E" in
      let D := fresh "D" in
      destruct (tri_exact x a b c) as (v & E & D);
      [ unfold int; simpl; lra | unfold int; simpl; lra | ];
      rewrite E; clear E; cbn [rbind]
  | |- context [Fuzzy.trap ?x ?a ?b ?c ?d] =>
      let v := fresh "v" in
      let E := fresh "E" in
      let D := fresh "D" in
      destruct (trap_exact x a b c d) as (v & E & D);
      [ unfold int; simpl; lra | unfold int; simpl; lra
      | unfold int; simpl; lra | ];
      rewrite E; clear E; cbn [rbind]
  end.
  do 3 eexists. split; [reflexivity|].
  split; [|split]; auto 20 with degrees.
Qed.




End FuzzyExact.


Lemma rfold_collect {A B} (sel : A -> option B)
    (body : list B -> A -> result (list B)) l :
  (forall acc x, In x l ->
     body acc x = Ok (match sel x with Some y => acc ++ [y] | None => acc end)) ->
  forall acc,
    rfold body l acc
    = Ok (acc ++ flat_map (fun x => match sel x with
                                    | Some y => [y]
                                    | None => []
                                    end) l).
Proof.
  induction l as [|x l IH]; intros Hb acc; simpl.
  - now rewrite app_nil_r.
  - rewrite Hb by now left. simpl.
    rewrite IH by (intros; apply Hb; now right).
    destruct (sel x); simpl; [now rewrite <- app_assoc|reflexivity].
Qed.

Lemma in_collect {A B} (sel : A -> option B) l y :
  In y (flat_map (fun x => match sel x with Some y => [y] | None => [] end) l)
  <-> exists x, In x l /\ sel x = Some y.
Proof.
  rewrite in_flat_map. split; intros (x & Hx & H); exists x; split; auto.
  - destruct (sel x); simpl in H; [destruct H as [->|[]]; auto|contradiction].
  - rewrite H. now left.
Qed.

Lemma length_collect {A B} (sel : A -> option B) l :
  (length (flat_map (fun x => match sel x with Some y => [y] | None => [] end) l)
   <= length l)%nat.
Proof.
  induction l as [|x l IH]; simpl; [lia|].
  rewrite length_app. destruct (sel x); simpl; lia.
Qed.

Lemma enter_step_target b p acc d :
  slots28 b ->
  enter_step b p acc d
  = Ok (match entry_target b p d with Some y => acc ++ [y] | None => acc end).
Proof.
  intros L. unfold enter_step, entry_target.
  destruct (on_board (entry_point p d)) eqn:Ho; simpl; [|reflexivity].
  rewrite is_blocked_for_pocket by assumption. simpl.
  now destruct (owner_is _ _ && _).
Qed.

Lemma point_step_target b p s acc d :
  slots28 b ->
  point_step b p s acc d
  = Ok (match point_target b p s d with Some y => acc ++ [y] | None => acc end).
Proof.
  intros L. unfold point_step, point_target.
  destruct (match p with WHITE => _ | BLACK => _ end).
  { now destruct (all_in_home b p). }
  destruct (on_board (s + dir p * d)) eqn:Ho; simpl; [|reflexivity].
  rewrite is_blocked_for_pocket by assumption. simpl.
  now destruct (owner_is _ _ && _).
Qed.

(** What [legal_single_targets] returns on a board of 28 pockets. *)
Lemma legal_single_targets_run b p s ds :
  slots28 b ->
  legal_single_targets b p s ds
  = Ok (if (0 <? checkers (pocket b (bar_index p))) && negb (s =? bar_index p)
        then []
        else if s =? bar_index p then
          flat_map (fun d => match entry_target b p d with
                             | Some y => [y] | None => [] end) ds
        else if negb (on_board s) then []
        else if negb (owner_is (pocket b s) p) || (checkers (pocket b s) <=? 0)
        then []
        else flat_map (fun d => match point_target b p s d with
                                | Some y => [y] | None => [] end) ds).
Proof.
  intros L. unfold legal_single_targets.
  rewrite count_on_bar_pocket by assumption. simpl.
  destruct (_ && _); [reflexivity|].
  destruct (s =? bar_index p).
  { rewrite (rfold_collect (entry_target b p)); [reflexivity|].
    intros; now apply enter_step_target. }
  destruct (on_board s) eqn:Hs; simpl; [|reflexivity].
  apply on_board_range in Hs.
  rewrite getitem_pocket by (auto; lia). simpl.
  destruct (_ || _); [reflexivity|].
  rewrite (rfold_collect (point_target b p s)); [reflexivity|].
  intros; now apply point_step_target.
Qed.

Lemma off_index_not_on_board p : on_board (off_index p) = false.
Proof. now destruct p. Qed.

Lemma entry_target_spec b p x d e :
  entry_target b p x = Some (d, e)
  <-> x = d /\ e = entry_point p d /\ on_board e = true
      /\ owner_is (pocket b e) (opponent p) && (2 <=? checkers (pocket b e))
         = false.
Proof.
  unfold entry_target.
  destruct (on_board (entry_point p x)) eqn:Ho; simpl.
  - destruct (owner_is _ _ && _) eqn:Hb; simpl.
    + split; [discriminate|]. intros (-> & -> & _ & H). congruence.
    + split.
      * intros H; inversion H; subst. auto.
      * now intros (-> & -> & _).
  - split; [discriminate|]. intros (-> & -> & H & _). congruence.
Qed.

Lemma point_target_spec b p s x d e :
  point_target b p s x = Some (d, e)
  <-> x = d
      /\ ((overshoots p (s + dir p * d) /\ all_in_home b p = true
           /\ e = off_index p)
          \/ (e = s + dir p * d /\ on_board e = true
              /\ owner_is (pocket b e) (opponent p)
                 && (2 <=? checkers (pocket b e)) = false)).
Proof.
  unfold point_target.
  assert (Hov : (match p with
                 | WHITE => s + dir p * x <? 1
                 | BLACK => 24 <? s + dir p * x
                 end) = true <-> overshoots p (s + dir p * x)).
  { destruct p; simpl; [rewrite Z.ltb_lt|rewrite Z.ltb_lt]; tauto. }
  assert (Hon : on_board (s + dir p * x) = true ->
                ~ overshoots p (s + dir p * x)).
  { intros H; apply on_board_range in H. destruct p; simpl in *; lia. }
  destruct (match p with WHITE => _ | BLACK => _ end) eqn:Ht.
  - assert (Hy : overshoots p (s + dir p * x)) by now apply Hov.
    destruct (all_in_home b p) eqn:Hh.
    + split.
      * intros H; inversion H; subst. split; [reflexivity|]. left. auto.
      * intros (-> & [(_ & _ & ->)|(-> & H & _)]); auto.
        now apply Hon in H.
    + split; [discriminate|].
      intros (-> & [(_ & H & _)|(-> & H & _)]); [discriminate|].
      now apply Hon in H.
  - assert (Hn : ~ overshoots p (s + dir p * x)).
    { intros H; apply Hov in H. discriminate. }
    destruct (on_board (s + dir p * x)) eqn:Ho; simpl.
    + destruct (owner_is _ _ && _) eqn:Hb; simpl.
      * split; [discriminate|].
        intros (-> & [(H & _)|(-> & _ & H)]); [contradiction|congruence].
      * split.
        -- intros H; inversion H; subst. auto.
        -- intros (-> & [(H & _)|(-> & _)]); [contradiction|reflexivity].
    + split; [discriminate|].
      intros (-> & [(H & _)|(-> & H & _)]); [contradiction|congruence].
Qed.

(** On a board of 28 pockets [legal_single_targets] raises nothing and
    returns exactly the pairs [(d, e)] where [d] is one of the dice, [e] is
    where [d] leads from the origin (the entry point from the bar, the
    point [d] steps on, or the off-tray when the step leaves the board on
    the home side) and the move is one the legality rules accept. *)
Theorem legal_single_targets_exact b p s ds :
  slots28 b ->
  exists l,
    legal_single_targets b p s ds = Ok l
    /\ forall d e,
         In (d, e) l
         <-> In d ds /\ steps_to p s d e /\ legal_move b p s e.
Proof.
  intros L. rewrite legal_single_targets_run by assumption.
  eexists; split; [reflexivity|]. intros d e. unfold steps_to, legal_move.
  destruct (Z.ltb_spec 0 (checkers (pocket b (bar_index p)))) as [Hb|Hb];
    destruct (Z.eqb_spec s (bar_index p)) as [->|Hs]; simpl.
  - rewrite in_collect. split.
    + intros (x & Hx & H). apply entry_target_spec in H as (-> & -> & Ho & Hk).
      repeat split; auto.
    + intros (Hd & -> & _ & _ & [(He & C & _)|(Ho & Hk)]); [congruence|].
      exists d. split; auto. apply entry_target_spec. auto.
  - split; [contradiction|]. intros (_ & _ & H & _). now apply H in Hb.
  - rewrite in_collect. split.
    + intros (x & Hx & H). apply entry_target_spec in H as (-> & -> & Ho & Hk).
      repeat split; auto.
    + intros (Hd & -> & _ & _ & [(He & C & _)|(Ho & Hk)]); [congruence|].
      exists d. split; auto. apply entry_target_spec. auto.
  - destruct (on_board s) eqn:Hon; simpl.
    2:{ split; [contradiction|].
        intros (_ & _ & _ & [C|(C & _)] & _); congruence. }
    destruct (owner_is (pocket b s) p) eqn:Hown; simpl.
    2:{ split; [contradiction|].
        intros (_ & _ & _ & [C|(_ & C & _)] & _); congruence. }
    destruct (Z.leb_spec (checkers (pocket b s)) 0) as [Hc|Hc]; simpl.
    { split; [contradiction|].
      intros (_ & _ & _ & [C|(_ & _ & C)] & _); [congruence|lia]. }
    rewrite in_collect. split.
    + intros (x & Hx & H). apply point_target_spec in H as (-> & H).
      split; auto.
      destruct H as [(Ho & Hh & ->)|(-> & Ho & Hk)].
      * split; [now right|]. split; [intros; lia|]. split; [now right|].
        left; auto.
      * split; [now left|]. split; [intros; lia|]. split; [now right|].
        right; auto.
    + intros (Hd & Hst & _ & _ & Hl). exists d. split; auto.
      apply point_target_spec. split; auto.
      destruct Hst as [(Ho & ->)|(-> & Hov)].
      * right. destruct Hl as [(He & _)|(_ & Hk)]; auto.
        rewrite He, off_index_not_on_board in Ho. discriminate.
      * left. destruct Hl as [(_ & _ & Hh)|(Ho & _)]; auto.
        rewrite off_index_not_on_board in Ho. discriminate.
Qed.

Lemma legal_single_targets_exact_witness :
  exists l,
    legal_single_targets standard_setup WHITE 24 [3; 1] = Ok l
    /\ forall d e,
         In (d, e) l
         <-> In d [3; 1] /\ steps_to WHITE 24 d e
             /\ legal_move standard_setup WHITE 24 e.
Proof.
  apply (legal_single_targets_exact standard_setup WHITE 24 [3; 1]).
  reflexivity.
Defined.

(** [legal_single_targets] returns at most one target per die. *)
Theorem legal_single_targets_one_per_die b p s ds l :
  slots28 b -> legal_single_targets b p s ds = Ok l ->
  (length l <= length ds)%nat
  /\ forall d e e', In (d, e) l -> In (d, e') l -> e = e'.
Proof.
  intros L H. rewrite legal_single_targets_run in H by assumption.
  inversion H; subst; clear H.
  destruct (_ && _); [split; [simpl; lia|contradiction]|].
  destruct (s =? bar_index p).
  { split; [apply length_collect|].
    intros d e e' H1 H2. apply in_collect in H1 as (x & _ & H1).
    apply in_collect in H2 as (y & _ & H2).
    apply entry_target_spec in H1 as (-> & -> & _).
    apply entry_target_spec in H2 as (-> & -> & _). reflexivity. }
  destruct (negb (on_board s)); [split; [simpl; lia|contradiction]|].
  destruct (_ || _); [split; [simpl; lia|contradiction]|].
  split; [apply length_collect|].
  intros d e e' H1 H2. apply in_collect in H1 as (x & _ & H1).
  apply in_collect in H2 as (y & _ & H2).
  pose proof (proj1 (proj1 (point_target_spec _ _ _ _ _ _) H1)) as ->.
  pose proof (proj1 (proj1 (point_target_spec _ _ _ _ _ _) H2)) as ->.
  congruence.
Qed.

Lemma legal_single_targets_one_per_die_witness :
  Nat.le (length [(3, 21); (1, 23)]) (length [3; 1])
  /\ forall d e e',
       In (d, e) [(3, 21); (1, 23)] -> In (d, e') [(3, 21); (1, 23)] ->
       e = e'.
Proof.
  apply (legal_single_targets_one_per_die standard_setup WHITE 24 [3; 1]);
    reflexivity.
Defined.

(* ------------------------------------------------------------------ *)
(** ** Routes that the generator returns *)

Lemma generated_route_plays b p ds h rs h' bd r :
  generate_all_routes b p ds h = (Ok rs, h') ->
  nth_error h b = Some bd -> In r rs ->
  plays p bd ds (moves r).
Proof.
  intros E Hb Hin. unfold generate_all_routes in E.
  destruct (backtrack _ _ _ _ _ _) as [[[]|x] s] eqn:Eb; simpl in E;
    [|discriminate].
  inversion E; subst; clear E.
  apply (backtrack_sound _ _ _ _ _ _ _ bd) in Eb; [|exact Hb].
  destruct Eb as (new & En & Fn). simpl in En. subst new.
  apply dedup_subset in Hin.
  rewrite Forall_forall in Fn. destruct (Fn _ Hin) as (ms & Hm & Hp).
  simpl in Hm. now rewrite Hm.
Qed.

Lemma plays_replay p bd ds ms :
  plays p bd ds ms ->
  exists bd' ds',
    replay p ms bd ds = Ok (bd', ds')
    /\ length ds = (length ms + length ds')%nat.
Proof.
  induction 1 as [bd|bd ds Hne Hst|bd ds starts st cands d e bd' ds' ms
                     Hs Hin Hc Hinc Ha Hr Hp IH]; simpl.
  - eauto.
  - eauto.
  - rewrite Ha, Hr. simpl. destruct IH as (bd2 & ds2 & -> & Hl).
    do 2 eexists. split; [reflexivity|].
    apply list_remove_length in Hr. lia.
Qed.

Lemma discard_die_present d e ds :
  list_remove d (dice e) = Ok ds ->
  Engine_.discard_die d e = (Ok tt, mkEngine (board e) (turn e) ds).
Proof. intros H. unfold Engine_.discard_die. now rewrite H. Qed.

Lemma replay_apply_route p ms : forall bd ds bd' ds',
  replay p ms bd ds = Ok (bd', ds') ->
  Engine_.apply_route (mkRoute ms) (mkEngine bd p ds)
  = (Ok tt, mkEngine bd' p ds').
Proof.
  unfold Engine_.apply_route. simpl.
  induction ms as [|m ms IH]; intros bd ds bd' ds' H; simpl in *.
  - now inversion H.
  - destruct (apply_single_move p (start m) (end_ m) bd) as [[[]|x] b1] eqn:Ea;
      [|discriminate].
    destruct (list_remove (die m) ds) as [ds1|] eqn:Er; simpl in H;
      [|discriminate].
    rewrite bind_run. unfold Engine_.apply_move at 1. rewrite bind_run.
    unfold Engine_.on_engine_board at 1. simpl. rewrite Ea.
    rewrite (discard_die_present _ _ ds1) by exact Er. simpl.
    now apply IH.
Qed.

(** Every route that [generate_routes] returns can be applied to the
    engine it was generated for: [apply_route] returns normally, keeps the
    side to move, and leaves as many dice as the route did not use. *)
Theorem generated_routes_apply e rs r :
  Engine_.generate_routes e = Ok rs -> In r rs ->
  exists e',
    Engine_.apply_route r e = (Ok tt, e')
    /\ turn e' = turn e
    /\ length (dice e) = (length (moves r) + length (dice e'))%nat.
Proof.
  intros E Hin. unfold Engine_.generate_routes in E.
  destruct (generate_all_routes _ _ _ _) as [x h'] eqn:Eg. simpl in E.
  subst x.
  pose proof (generated_route_plays _ _ _ _ _ _ (board e) r Eg eq_refl Hin)
    as Hp.
  destruct (plays_replay _ _ _ _ Hp) as (bd' & ds' & Hr & Hl).
  apply replay_apply_route in Hr.
  exists (mkEngine bd' (turn e) ds'). destruct e as [bd p ds], r as [ms].
  simpl in *. auto.
Qed.

Lemma generated_routes_apply_witness :
  exists e',
    Engine_.apply_route (mkRoute [mkMove 20 17 3; mkMove 17 12 5])
                        (mkEngine detour_board WHITE [3; 5])
    = (Ok tt, e')
    /\ turn e' = WHITE
    /\ length [3; 5]
       = (length [mkMove 20 17 3; mkMove 17 12 5] + length (dice e'))%nat.
Proof.
  apply (generated_routes_apply (mkEngine detour_board WHITE [3; 5])
           [mkRoute [mkMove 10 7 3];
            mkRoute [mkMove 10 5 5; mkMove 20 17 3];
            mkRoute [mkMove 20 17 3; mkMove 10 5 5];
            mkRoute [mkMove 20 17 3; mkMove 17 12 5]]
           (mkRoute [mkMove 20 17 3; mkMove 17 12 5])).
  - vm_compute. reflexivity.
  - simpl. auto.
Defined.

Lemma candidates_member_target bd p st ds cands d e :
  candidates bd p st ds = Ok cands -> In (d, e) cands ->
  exists d' l, legal_single_targets bd p st [d'] = Ok l /\ In (d, e) l.
Proof.
  intros E Hin. apply candidates_spec in E as (ls & -> & F).
  induction F as [|x l ds ls Hx F IH]; simpl in Hin; [contradiction|].
  apply in_app_or in Hin as [Hin|Hin]; eauto.
Qed.

Lemma plays_reachable p bd ds ms :
  plays p bd ds ms -> reachable bd ->
  forall bd' ds', replay p ms bd ds = Ok (bd', ds') -> reachable bd'.
Proof.
  induction 1 as [bd|bd ds Hne Hst|bd ds starts st cands d e bd' ds' ms
                     Hs Hin Hc Hinc Ha Hr Hp IH]; simpl; intros R b2 d2 E.
  - now inversion E; subst.
  - now inversion E; subst.
  - rewrite Ha, Hr in E. simpl in E.
    apply (IH) with (ds' := d2); auto.
    destruct (candidates_member_target _ _ _ _ _ _ _ Hc Hinc)
      as (d' & l & Hl & Hil).
    eapply reach_move; eauto.
Qed.

(** Applying a generated route to a board reachable from the standard
    setup gives a board that is reachable again: it is a board of the data
    model on which each player still has 15 checkers. *)
Theorem generated_routes_stay_reachable e rs r e' :
  reachable (board e) ->
  Engine_.generate_routes e = Ok rs -> In r rs ->
  Engine_.apply_route r e = (Ok tt, e') ->
  reachable (board e')
  /\ wf_board (board e') = true
  /\ total (board e') WHITE = 15 /\ total (board e') BLACK = 15.
Proof.
  intros R E Hin Ha. unfold Engine_.generate_routes in E.
  destruct (generate_all_routes _ _ _ _) as [x h'] eqn:Eg. simpl in E.
  subst x.
  pose proof (generated_route_plays _ _ _ _ _ _ (board e) r Eg eq_refl Hin)
    as Hp.
  destruct (plays_replay _ _ _ _ Hp) as (bd' & ds' & Hr & Hl).
  pose proof (plays_reachable _ _ _ _ Hp R _ _ Hr) as R'.
  apply replay_apply_route in Hr.
  destruct e as [bd p ds], r as [ms]. simpl in *.
  rewrite Hr in Ha. inversion Ha; subst; simpl.
  split; [exact R'|]. split; [now apply reachable_wf|].
  split; now apply reachable_total.
Qed.

Lemma generated_routes_stay_reachable_witness :
  reachable (board (snd (Engine_.apply_route (mkRoute [mkMove 24 23 1])
                           (mkEngine standard_setup WHITE [1]))))
  /\ wf_board (board (snd (Engine_.apply_route (mkRoute [mkMove 24 23 1])
                             (mkEngine standard_setup WHITE [1])))) = true
  /\ total (board (snd (Engine_.apply_route (mkRoute [mkMove 24 23 1])
                          (mkEngine standard_setup WHITE [1])))) WHITE = 15
  /\ total (board (snd (Engine_.apply_route (mkRoute [mkMove 24 23 1])
                          (mkEngine standard_setup WHITE [1])))) BLACK = 15.
Proof.
  eapply (generated_routes_stay_reachable
            (mkEngine standard_setup WHITE [1]) _ (mkRoute [mkMove 24 23 1])).
  - exact reach_setup.
  - vm_compute. reflexivity.
  - simpl. auto.
  - vm_compute. reflexivity.
Defined.

(* ------------------------------------------------------------------ *)
(** ** De-duplication *)

Lemma list_eqb_eq {A} (eqb : A -> A -> bool) :
  (forall x y, eqb x y = true <-> x = y) ->
  forall l1 l2, list_eqb eqb l1 l2 = true <-> l1 = l2.
Proof.
  intros He. induction l1 as [|x l1 IH]; intros [|y l2]; simpl;
    try (split; [discriminate|congruence]); [tauto|].
  rewrite andb_true_iff, He, IH. split; [intros [-> ->]|intros H; inversion H];
    auto.
Qed.

Lemma triple_eqb_eq a b : triple_eqb a b = true <-> a = b.
Proof.
  destruct a as [[a1 a2] a3], b as [[b1 b2] b3]. simpl.
  rewrite !andb_true_iff, !Z.eqb_eq. split.
  - intros [[-> ->] ->]; reflexivity.
  - intros H; inversion H; auto.
Qed.

Lemma route_key_eqb_eq k1 k2 : route_key_eqb k1 k2 = true <-> k1 = k2.
Proof. apply list_eqb_eq, triple_eqb_eq. Qed.

Lemma route_key_inj r1 r2 : route_key r1 = route_key r2 -> r1 = r2.
Proof.
  destruct r1 as [m1], r2 as [m2]. unfold route_key; simpl. intros H.
  f_equal. revert m2 H.
  induction m1 as [|[s e d] m1 IH]; intros [|[s' e' d'] m2] H; simpl in H;
    try discriminate; auto.
  inversion H; subst. f_equal. auto.
Qed.

Lemma dict_set_keyed r d : keyed d -> keyed (dict_set (route_key r) r d).
Proof.
  unfold keyed. induction 1 as [|[k' r'] d Hk F IH]; simpl.
  - repeat constructor.
  - destruct (route_key_eqb k' (route_key r)) eqn:E.
    + apply route_key_eqb_eq in E. constructor; auto.
    + constructor; auto.
Qed.

Lemma dict_set_keys r d :
  forall k, In k (map fst (dict_set (route_key r) r d))
            <-> k = route_key r \/ In k (map fst d).
Proof.
  induction d as [|[k' r'] d IH]; intros k; simpl.
  - intuition.
  - destruct (route_key_eqb k' (route_key r)) eqn:E; simpl.
    + apply route_key_eqb_eq in E. subst k'. intuition.
    + rewrite IH. intuition.
Qed.

Lemma dict_set_nodup r d :
  NoDup (map fst d) -> NoDup (map fst (dict_set (route_key r) r d)).
Proof.
  induction d as [|[k' r'] d IH]; simpl; intros N.
  - constructor; [intros []|constructor].
  - inversion N as [|? ? Hn N']; subst.
    destruct (route_key_eqb k' (route_key r)) eqn:E; simpl.
    + constructor; auto.
    + constructor; auto. rewrite dict_set_keys. intros [->|H]; auto.
      assert (route_key_eqb (route_key r) (route_key r) = true)
        by now apply route_key_eqb_eq.
      congruence.
Qed.

Lemma keyed_values d r :
  keyed d -> (In r (map snd d) <-> In (route_key r) (map fst d)).
Proof.
  unfold keyed. induction 1 as [|[k' r'] d Hk F IH]; simpl in *; [tauto|].
  rewrite IH. subst k'. split.
  - intros [->|H]; auto.
  - intros [H|H]; auto. apply route_key_inj in H. auto.
Qed.

Lemma keyed_nodup d : keyed d -> NoDup (map fst d) -> NoDup (map snd d).
Proof.
  intros K. induction K as [|[k' r'] d Hk F IH]; simpl; intros N;
    [constructor|].
  inversion N; subst. constructor; auto.
  rewrite (keyed_values d r' F). simpl in *. now subst.
Qed.

Lemma dedup_fold rs : forall d,
  keyed d -> NoDup (map fst d) ->
  let d' := fold_left (fun d r => dict_set (route_key r) r d) rs d in
  keyed d' /\ NoDup (map fst d')
  /\ forall k, In k (map fst d') <-> In k (map route_key rs) \/ In k (map fst d).
Proof.
  induction rs as [|r rs IH]; intros d K N; simpl.
  - intuition.
  - destruct (IH (dict_set (route_key r) r d)) as (K' & N' & H');
      auto using dict_set_keyed, dict_set_nodup.
    split; auto. split; auto. intros k. rewrite H', dict_set_keys.
    intuition.
Qed.

(** The de-duplication keeps every route once: the result has no
    repetition and the same members. *)
Lemma dedup_spec rs :
  NoDup (dedup rs) /\ forall r, In r (dedup rs) <-> In r rs.
Proof.
  unfold dedup.
  destruct (dedup_fold rs []) as (K & N & H); [constructor|constructor|].
  split; [now apply keyed_nodup|].
  intros r. rewrite (keyed_values _ r K), H. simpl. split.
  - intros [Hk|[]]. apply in_map_iff in Hk as (r' & Hr & Hin).
    now apply route_key_inj in Hr as <-.
  - intros Hin. left. now apply in_map.
Qed.

(* ------------------------------------------------------------------ *)
(** ** The generator always records a route *)

Lemma try_candidate_recorded p recurse b remaining acc s0 st loc c s loc' s' :
  appends recurse ->
  recorded s0 loc s ->
  try_candidate p recurse b remaining acc st loc c s = (Ok loc', s') ->
  recorded s0 loc' s'.
Proof.
  intros Hrec (Hle & Hlt) E. unfold try_candidate in E. destruct c as [d e].
  destruct (existsb _ (used_mask loc)).
  { inversion E; subst. split; auto. }
  rewrite bind_run in E.
  destruct (clone b s) as [[b2|x] s1] eqn:Ec; [|discriminate].
  rewrite bind_run in E.
  destruct (at_board b2 _ s1) as [y s2] eqn:Ea.
  destruct (clone_then_mutate _ _ _ _ _ _ _ Ec Ea) as (bd0 & _ & -> & -> & ->).
  destruct (apply_single_move p st e bd0) as [[[]|x] bd'] eqn:Eapp;
    simpl in E; [|discriminate].
  rewrite bind_run in E. unfold lift at 1 in E.
  destruct (list_remove d remaining) as [rem|] eqn:Er; [|discriminate].
  rewrite bind_run in E.
  destruct (recurse _ _ _ _) as [[[]|x] s3] eqn:Erec; [|discriminate].
  inversion E; subst; clear E.
  apply Hrec in Erec. simpl in Erec. split; [lia|intros _; lia].
Qed.

Lemma mfold_preserved {S A B} (I : B -> S -> Prop) (body : B -> A -> M S B) l :
  (forall x a st a' st',
     In x l -> I a st -> body a x st = (Ok a', st') -> I a' st') ->
  forall acc s acc' s',
    I acc s -> mfold body l acc s = (Ok acc', s') -> I acc' s'.
Proof.
  induction l as [|x l IH]; intros Hb acc s acc' s' Hi E; simpl in E.
  - now inversion E; subst.
  - rewrite bind_run in E.
    destruct (body acc x s) as [[a|e] st] eqn:Eb; [|discriminate].
    eapply IH; [| |exact E].
    + intros; eapply Hb; eauto. now right.
    + eapply Hb; eauto. now left.
Qed.

Lemma explore_appends p recurse b remaining acc :
  appends recurse ->
  forall s s', explore p recurse b remaining acc s = (Ok tt, s') ->
               (length (routes s) < length (routes s'))%nat.
Proof.
  intros Hrec s0 s' E. unfold explore in E.
  rewrite bind_run, at_board_query in E.
  destruct (match nth_error (heap s0) b with
            | Some bd => starts_of bd p
            | None => Raise Dangling
            end) as [starts|]; [|discriminate].
  rewrite bind_run in E.
  destruct (mfold _ starts _ s0) as [[loc|x] s1] eqn:Em; [|discriminate].
  apply (mfold_preserved (recorded s0)) in Em.
  - destruct Em as (Hle & Hlt).
    destruct (used_any loc); simpl in E.
    + inversion E; subst. auto.
    + unfold record_route, modify in E. inversion E; subst. simpl.
      rewrite length_app. simpl. lia.
  - intros st a t a' t' _ Hi Et. unfold explore_start in Et.
    rewrite bind_run, at_board_query in Et.
    destruct (match nth_error (heap t) b with
              | Some bd => candidates bd p st remaining
              | None => Raise Dangling
              end) as [cands|]; [|discriminate].
    apply (mfold_preserved (recorded s0)) in Et; auto.
    intros c a1 t1 a2 t2 _ Hi1 Ec.
    eapply try_candidate_recorded; eauto.
  - split; [lia|discriminate].
Qed.

Lemma backtrack_appends fuel p : appends (backtrack fuel p).
Proof.
  induction fuel as [|fuel IH]; intros b [|d ds] acc s s' E; simpl in E.
  - unfold record_route, modify in E. inversion E; subst. simpl.
    rewrite length_app. simpl. lia.
  - discriminate.
  - unfold record_route, modify in E. inversion E; subst. simpl.
    rewrite length_app. simpl. lia.
  - eapply explore_appends; eauto.
Qed.

Lemma generated_routes_some b p ds h rs h' :
  generate_all_routes b p ds h = (Ok rs, h') -> rs <> [].
Proof.
  intros E. unfold generate_all_routes in E.
  destruct (backtrack _ _ _ _ _ _) as [[[]|x] s] eqn:Eb; simpl in E;
    [|discriminate].
  inversion E; subst; clear E.
  apply backtrack_appends in Eb. simpl in Eb.
  destruct (routes s) as [|r rs] eqn:Er; [simpl in Eb; lia|].
  intros Hd.
  assert (Hin : In r (dedup (r :: rs)))
    by (apply dedup_spec; now left).
  rewrite Hd in Hin. contradiction.
Qed.

Lemma plays_stuck_nil p bd ds ms :
  plays p bd ds ms -> stuck p bd ds -> ms = [].
Proof.
  intros Hp (starts & Hs & Hst). destruct Hp as [bd|bd ds Hne Hk|
    bd ds starts' st cands d e bd' ds' ms Hs' Hin Hc Hinc Ha Hr Hp]; auto.
  exfalso. rewrite Hs in Hs'. inversion Hs'; subst starts'.
  apply candidates_spec in Hc as (ls & -> & F).
  clear - F Hinc Hst Hin.
  induction F as [|x l ds ls Hx F IH]; simpl in Hinc; [contradiction|].
  apply in_app_or in Hinc as [Hi|Hi].
  - rewrite (Hst st x) in Hx by (auto; now left).
    inversion Hx; subst. contradiction.
  - apply IH; auto. intros; apply Hst; auto. now right.
Qed.

Lemma routes_shape b p ds h rs h' bd :
  generate_all_routes b p ds h = (Ok rs, h') ->
  nth_error h b = Some bd ->
  rs <> [] /\ NoDup rs
  /\ (ds = [] -> rs = [mkRoute []])
  /\ (ds <> [] -> (stuck p bd ds <-> rs = [mkRoute []])).
Proof.
  intros E Hb.
  pose proof (generated_routes_some _ _ _ _ _ _ E) as Hne.
  assert (Hnd : NoDup rs).
  { unfold generate_all_routes in E.
    destruct (backtrack _ _ _ _ _ _) as [[[]|x] s]; simpl in E;
      [|discriminate].
    inversion E; subst. apply dedup_spec. }
  assert (Hall : (forall r, In r rs -> moves r = []) -> rs = [mkRoute []]).
  { intros H. destruct rs as [|[m1] rs]; [congruence|].
    pose proof (H (mkRoute m1) (or_introl eq_refl)) as H1. simpl in H1.
    subst m1. f_equal. destruct rs as [|[m2] rs]; auto.
    pose proof (H (mkRoute m2) (or_intror (or_introl eq_refl))) as H2.
    simpl in H2. subst m2. inversion Hnd as [|? ? Hn _]; subst.
    exfalso. apply Hn. now left. }
  split; [exact Hne|]. split; [exact Hnd|]. split.
  - intros ->. apply Hall. intros r Hin.
    pose proof (generated_route_plays _ _ _ _ _ _ _ _ E Hb Hin) as Hp.
    apply plays_length in Hp. simpl in Hp.
    destruct (moves r); simpl in Hp; [reflexivity|lia].
  - intros Hds. split.
    + intros Hst. apply Hall. intros r Hin.
      pose proof (generated_route_plays _ _ _ _ _ _ _ _ E Hb Hin) as Hp.
      eapply plays_stuck_nil; eauto.
    + intros ->.
      pose proof (generated_route_plays _ _ _ _ _ _ _ (mkRoute []) E Hb
                    (or_introl eq_refl)) as Hp.
      simpl in Hp. inversion Hp; subst; congruence.
Qed.

(** [generate_all_routes] never returns an empty list and never returns a
    route twice.  With no dice it returns the empty route alone; with dice
    it returns the empty route alone exactly when the position is stuck,
    that is when no origin it explores has a legal target for any die. *)
Theorem generated_routes_never_empty b p ds h rs h' bd :
  generate_all_routes b p ds h = (Ok rs, h') ->
  nth_error h b = Some bd ->
  rs <> [] /\ NoDup rs
  /\ (ds = [] -> rs = [mkRoute []])
  /\ (ds <> [] -> (stuck p bd ds <-> rs = [mkRoute []])).
Proof. apply routes_shape. Qed.

Lemma generated_routes_never_empty_witness :
  [mkRoute [mkMove 10 7 3];
   mkRoute [mkMove 10 5 5; mkMove 20 17 3];
   mkRoute [mkMove 20 17 3; mkMove 10 5 5];
   mkRoute [mkMove 20 17 3; mkMove 17 12 5]] <> []
  /\ NoDup [mkRoute [mkMove 10 7 3];
            mkRoute [mkMove 10 5 5; mkMove 20 17 3];
            mkRoute [mkMove 20 17 3; mkMove 10 5 5];
            mkRoute [mkMove 20 17 3; mkMove 17 12 5]]
  /\ ([3; 5] = [] ->
      [mkRoute [mkMove 10 7 3];
       mkRoute [mkMove 10 5 5; mkMove 20 17 3];
       mkRoute [mkMove 20 17 3; mkMove 10 5 5];
       mkRoute [mkMove 20 17 3; mkMove 17 12 5]] = [mkRoute []])
  /\ ([3; 5] <> [] ->
      (stuck WHITE detour_board [3; 5]
       <-> [mkRoute [mkMove 10 7 3];
            mkRoute [mkMove 10 5 5; mkMove 20 17 3];
            mkRoute [mkMove 20 17 3; mkMove 10 5 5];
            mkRoute [mkMove 20 17 3; mkMove 17 12 5]] = [mkRoute []])).
Proof.
  apply (generated_routes_never_empty 0%nat WHITE [3; 5] [detour_board] _
           (snd (generate_all_routes 0%nat WHITE [3; 5] [detour_board]))
           detour_board).
  - vm_compute. reflexivity.
  - reflexivity.
Defined.

(* ------------------------------------------------------------------ *)
(** ** The generator misses no play *)

Lemma covered_grows p bd remaining acc st e d s s' :
  grows s s' -> covered p bd remaining acc st e d s ->
  covered p bd remaining acc st e d s'.
Proof.
  intros [_ [rx Hr]] H bd' ds' ms Ha Hl Hp. rewrite Hr.
  apply in_or_app. left. eauto.
Qed.

Lemma Key_eqb_eq k1 k2 : Key_eqb k1 k2 = true -> k1 = k2.
Proof.
  destruct k1 as [[[s1 e1] d1] r1], k2 as [[[s2 e2] d2] r2]. simpl.
  rewrite !andb_true_iff, !Z.eqb_eq. intros [[[-> ->] ->] H].
  apply (list_eqb_eq Z.eqb Z.eqb_eq) in H. now subst.
Qed.

Section ExploreComplete.
Variables (p : Player)
          (recurse : ref -> list Z -> list Move -> M GenState unit).
Hypothesis rec_grows :
  forall b' rem acc', preserves grows (recurse b' rem acc').
Hypothesis rec_complete : complete_call p recurse.
Variables (b : ref) (remaining : list Z) (acc : list Move).
Variables (s0 : GenState) (bd : Board).
Hypothesis Hb : nth_error (heap s0) b = Some bd.

Local Abbreviation outer := (outer_cov p bd remaining acc s0).
Local Abbreviation inner := (inner_cov p bd remaining acc s0).

Lemma try_candidate_cov before st done c loc s loc' s' :
  inner before st done loc s ->
  try_candidate p recurse b remaining acc st loc c s = (Ok loc', s') ->
  inner before st (done ++ [c]) loc' s'.
Proof.
  intros ((G & Mk & Out) & Inn) E.
  assert (G' : grows s s') by (eapply preserves_try_candidate; eauto).
  assert (G0 : grows s0 s') by (eapply grows_trans; eauto).
  assert (Keep : forall st' e' d', covered p bd remaining acc st' e' d' s ->
                                   covered p bd remaining acc st' e' d' s')
    by (intros st' e' d' H; exact (covered_grows _ _ _ _ _ _ _ _ _ G' H)).
  unfold try_candidate in E. destruct c as [d e].
  destruct (existsb _ (used_mask loc)) eqn:Ex.
  - inversion E; subst; clear E.
    split; [split; [exact G|split; [exact Mk|exact Out]]|].
    intros d' e' Hin. apply in_app_or in Hin as [Hin|[Hin|[]]]; auto.
    inversion Hin; subst d' e'.
    apply existsb_exists in Ex as (k & Hk & Heq).
    apply Key_eqb_eq in Heq. subst k. eapply Mk; eauto.
  - rewrite bind_run in E.
    destruct (clone b s) as [[b2|x] s1] eqn:Ec; [|discriminate].
    rewrite bind_run in E.
    destruct (at_board b2 _ s1) as [y s2] eqn:Ea.
    destruct (clone_then_mutate _ _ _ _ _ _ _ Ec Ea)
      as (bd0 & Hbd0 & -> & -> & ->).
    rewrite (grows_lookup _ _ _ _ G Hb) in Hbd0. inversion Hbd0; subst bd0.
    destruct (apply_single_move p st e bd) as [[[]|x] bd'] eqn:Eapp;
      simpl in E; [|discriminate].
    rewrite bind_run in E. unfold lift at 1 in E.
    destruct (list_remove d remaining) as [rem|] eqn:Er; [|discriminate].
    rewrite bind_run in E.
    destruct (recurse _ _ _ _) as [[[]|x] s3] eqn:Erec; [|discriminate].
    inversion E; subst; clear E.
    assert (Cov : covered p bd remaining acc st e d s').
    { intros bd2 ds2 ms Ha Hl Hp. rewrite Eapp in Ha. inversion Ha; subst bd2.
      rewrite Er in Hl. inversion Hl; subst ds2.
      pose proof (fun H1 => rec_complete _ _ _ _ _ bd' ms H1 Erec Hp) as H.
      rewrite <- app_assoc in H. apply H.
      simpl. now rewrite nth_error_app2, Nat.sub_diag by lia. }
    split; [split; [exact G0|split]|].
    + intros st' e' d' r Hin. simpl in Hin. destruct Hin as [Hin|Hin].
      * inversion Hin; subst. exact Cov.
      * eapply Keep, Mk; eauto.
    + intros st' cands d' e' H1 H2 H3. eapply Keep, Out; eauto.
    + intros d' e' Hin. apply in_app_or in Hin as [Hin|[Hin|[]]]; auto.
      inversion Hin; subst. exact Cov.
Qed.

Lemma explore_start_cov done st loc s loc' s' :
  outer done loc s ->
  explore_start p recurse b remaining acc loc st s = (Ok loc', s') ->
  outer (done ++ [st]) loc' s'.
Proof.
  intros (G & Mk & Out) E. unfold explore_start in E.
  rewrite bind_run, at_board_query, (grows_lookup _ _ _ _ G Hb) in E.
  destruct (candidates bd p st remaining) as [cands|] eqn:Ec;
    [|discriminate].
  apply (mfold_invariant (inner done st)) in E.
  - destruct E as ((G' & Mk' & Out') & Inn').
    split; [exact G'|]. split; [exact Mk'|].
    intros st' cands' d e Hin Hc Hi.
    apply in_app_or in Hin as [Hin|[<-|[]]]; eauto.
    rewrite Ec in Hc. inversion Hc; subst. auto.
  - intros dc c rc a t a' t' _ Hi Et. eapply try_candidate_cov; eauto.
  - split; [split; [exact G|split; [exact Mk|exact Out]]|]. intros d e [].
Qed.

Lemma explore_complete s' ms :
  remaining <> [] ->
  explore p recurse b remaining acc s0 = (Ok tt, s') ->
  plays p bd remaining ms ->
  In (mkRoute (acc ++ ms)) (routes s').
Proof.
  intros Hne E Hp. unfold explore in E.
  rewrite bind_run, at_board_query, Hb in E.
  destruct (starts_of bd p) as [starts|] eqn:Hs; [|discriminate].
  rewrite bind_run in E.
  destruct (mfold _ starts _ s0) as [[loc|x] s1] eqn:Em; [|discriminate].
  pose proof Em as Em'.
  apply (mfold_invariant outer) in Em.
  2:{ intros done st rest a t a' t' _ Hi Et. eapply explore_start_cov; eauto. }
  2:{ split; [apply grows_refl|]. split; [intros st e d r []|].
      intros st cands d e []. }
  destruct Em as (G & Mk & Out).
  assert (Fin : forall r, In r (routes s1) -> In r (routes s')).
  { intros r Hr. destruct (negb (used_any loc)); simpl in E.
    - unfold record_route, modify in E. inversion E; subst. simpl.
      apply in_or_app. now left.
    - now inversion E; subst. }
  inversion Hp as [bd1|bd1 ds1 _ Hst|bd1 ds1 starts' st cands d e bd' ds' ms'
                     Hs' Hin Hc Hinc Ha Hr Hp']; subst.
  - congruence.
  - (* stuck: nothing is played and the empty continuation is recorded *)
    destruct Hst as (starts' & Hs' & Hst). rewrite Hs in Hs'.
    inversion Hs'; subst starts'.
    assert (Hnone : forall l loc0 t loc1 t1,
              (forall x, In x l -> In x starts) ->
              mfold (explore_start p recurse b remaining acc) l loc0 t
              = (Ok loc1, t1) ->
              grows s0 t -> loc1 = loc0 /\ t1 = t).
    { induction l as [|x l IH]; intros loc0 t loc1 t1 Hl Ef Gt; simpl in Ef.
      - now inversion Ef.
      - rewrite bind_run in Ef. unfold explore_start at 1 in Ef.
        rewrite bind_run, at_board_query, (grows_lookup _ _ _ _ Gt Hb) in Ef.
        assert (Hc : candidates bd p x remaining = Ok []).
        { unfold candidates.
          assert (Hg : forall l', (forall d, In d l' -> In d remaining) ->
                    rfold (fun cands d =>
                             rbind (legal_single_targets bd p x [d])
                                   (fun l0 => Ok (cands ++ l0))) l' [] = Ok []).
          { induction l' as [|d l' IHl]; intros Hd; simpl; auto.
            rewrite (Hst x d) by (auto; apply Hl || apply Hd; now left).
            simpl. apply IHl. intros; apply Hd; now right. }
          apply Hg. auto. }
        rewrite Hc in Ef. simpl in Ef.
        apply IH in Ef; auto. intros; apply Hl; now right. }
    apply Hnone in Em' as [-> ->]; auto using grows_refl.
    simpl in E. unfold record_route, modify in E. inversion E; subst.
    simpl. rewrite app_nil_r. apply in_or_app. right. now left.
  - apply Fin. rewrite Hs in Hs'. inversion Hs'; subst starts'.
    eapply Out; eauto.
Qed.

End ExploreComplete.

Lemma plays_no_dice p bd ms : plays p bd [] ms -> ms = [].
Proof.
  intros H. inversion H; subst; auto. simpl in *. discriminate.
Qed.

Lemma backtrack_complete p fuel : complete_call p (backtrack fuel p).
Proof.
  induction fuel as [|fuel IH]; intros b [|d ds] acc s s' bd ms Hb E Hp;
    simpl in E.
  - apply plays_no_dice in Hp as ->.
    unfold record_route, modify in E. inversion E; subst. simpl.
    rewrite app_nil_r. apply in_or_app. right. now left.
  - discriminate.
  - apply plays_no_dice in Hp as ->.
    unfold record_route, modify in E. inversion E; subst. simpl.
    rewrite app_nil_r. apply in_or_app. right. now left.
  - eapply explore_complete; eauto using preserves_backtrack. discriminate.
Qed.

Lemma routes_iff_plays b p ds h rs h' bd :
  generate_all_routes b p ds h = (Ok rs, h') ->
  nth_error h b = Some bd ->
  forall ms, In (mkRoute ms) rs <-> plays p bd ds ms.
Proof.
  intros E Hb ms. split.
  - intros Hin. apply (generated_route_plays _ _ _ _ _ _ _ _ E Hb Hin).
  - intros Hp. unfold generate_all_routes in E.
    destruct (backtrack _ _ _ _ _ _) as [[[]|x] s] eqn:Eb; simpl in E;
      [|discriminate].
    inversion E; subst; clear E.
    apply dedup_spec.
    apply (backtrack_complete p (length ds) b ds [] (mkGen h []) s bd ms Hb Eb Hp).
Qed.

(** [generate_all_routes] returns exactly the plays of the position: the
    sequences of moves, each from an origin that is explored (the bar slot
    when the bar is occupied, the points 1 to 24 otherwise) to a target
    that [legal_single_targets] gives for one of the dice still unused and
    applied before the next move is chosen, that end when the dice are
    used up or when the position is stuck. *)
Theorem generated_routes_are_the_plays b p ds h rs h' bd :
  generate_all_routes b p ds h = (Ok rs, h') ->
  nth_error h b = Some bd ->
  forall ms, In (mkRoute ms) rs <-> plays p bd ds ms.
Proof. apply routes_iff_plays. Qed.

Lemma generated_routes_are_the_plays_witness :
  In (mkRoute [mkMove 10 7 3])
     [mkRoute [mkMove 10 7 3];
      mkRoute [mkMove 10 5 5; mkMove 20 17 3];
      mkRoute [mkMove 20 17 3; mkMove 10 5 5];
      mkRoute [mkMove 20 17 3; mkMove 17 12 5]]
  <-> plays WHITE detour_board [3; 5] [mkMove 10 7 3].
Proof.
  apply (generated_routes_are_the_plays 0%nat WHITE [3; 5] [detour_board] _
           (snd (generate_all_routes 0%nat WHITE [3; 5] [detour_board]))
           detour_board).
  - vm_compute. reflexivity.
  - reflexivity.
Defined.

(* ------------------------------------------------------------------ *)
(** ** The order of the dice does not matter *)

Lemma list_remove_perm d l l' :
  list_remove d l = Ok l' -> Permutation l (d :: l').
Proof.
  revert l'; induction l as [|y l IH]; simpl; intros l' E; [discriminate|].
  destruct (Z.eqb_spec y d) as [->|N]; [now inversion E|].
  destruct (list_remove d l) as [r|]; simpl in E; inversion E; subst.
  rewrite (IH r eq_refl). apply perm_swap.
Qed.

Lemma candidates_members bd p st ds :
  (forall d, In d ds -> exists l, legal_single_targets bd p st [d] = Ok l) ->
  exists cands,
    candidates bd p st ds = Ok cands
    /\ forall x, In x cands <->
                 exists d l, In d ds
                             /\ legal_single_targets bd p st [d] = Ok l
                             /\ In x l.
Proof.
  unfold candidates.
  assert (G : forall ds acc,
    (forall d, In d ds -> exists l, legal_single_targets bd p st [d] = Ok l) ->
    exists cands,
      rfold (fun cands d =>
               rbind (legal_single_targets bd p st [d])
                     (fun l => Ok (cands ++ l))) ds acc = Ok cands
      /\ forall x, In x cands <->
                   In x acc
                   \/ exists d l, In d ds
                                  /\ legal_single_targets bd p st [d] = Ok l
                                  /\ In x l).
  { clear ds. induction ds as [|d ds IH]; intros acc H; simpl.
    - exists acc. split; auto. intros x. split; auto.
      intros [Hx|(d & l & [] & _)]; auto.
    - destruct (H d (or_introl eq_refl)) as (l & El). rewrite El. simpl.
      destruct (IH (acc ++ l)) as (cands & -> & Hc);
        [intros; apply H; now right|].
      exists cands. split; auto. intros x. rewrite Hc, in_app_iff.
      split.
      + intros [[Hx|Hx]|(d' & l' & Hd & Hl & Hx)]; auto.
        * right. exists d, l. auto.
        * right. exists d', l'. auto.
      + intros [Hx|(d' & l' & [<-|Hd] & Hl & Hx)]; auto.
        * rewrite El in Hl. inversion Hl; subst. auto.
        * right. exists d', l'. auto. }
  intros H. destruct (G ds [] H) as (cands & E & Hc).
  exists cands. split; auto. intros x. rewrite Hc. split; auto.
  intros [[]|Hx]; auto.
Qed.

Lemma candidates_member_die bd p st ds cands d e :
  candidates bd p st ds = Ok cands -> In (d, e) cands ->
  exists d' l, In d' ds /\ legal_single_targets bd p st [d'] = Ok l
               /\ In (d, e) l.
Proof.
  intros E Hin. apply candidates_spec in E as (ls & -> & F).
  induction F as [|x l ds ls Hx F IH]; simpl in Hin; [contradiction|].
  apply in_app_or in Hin as [Hin|Hin].
  - exists x, l. split; [now left|auto].
  - destruct (IH Hin) as (d' & l' & Hd & Hl & Hi).
    exists d', l'. split; [now right|auto].
Qed.

Lemma candidates_singles bd p st ds cands d :
  candidates bd p st ds = Ok cands -> In d ds ->
  exists l, legal_single_targets bd p st [d] = Ok l.
Proof.
  intros E Hin. apply candidates_spec in E as (ls & _ & F).
  induction F as [|x l ds ls Hx F IH]; [contradiction|].
  destruct Hin as [<-|Hin]; eauto.
Qed.

Lemma plays_perm p bd ds ms :
  plays p bd ds ms -> forall ds2, Permutation ds ds2 -> plays p bd ds2 ms.
Proof.
  induction 1 as [bd|bd ds Hne Hst|bd ds starts st cands d e bd' ds' ms
                     Hs Hin Hc Hinc Ha Hr Hp IH]; intros ds2 P.
  - apply Permutation_nil in P. subst. constructor.
  - apply plays_stuck.
    + intros ->. apply Permutation_sym, Permutation_nil in P. congruence.
    + destruct Hst as (starts & Hs & Hst). exists starts. split; auto.
      intros st d Hi Hd. apply Hst; auto.
      eapply Permutation_in; [apply Permutation_sym|]; eauto.
  - destruct (candidates_members bd p st ds2) as (cands2 & Ec2 & Hm2).
    { intros d' Hd'. eapply candidates_singles; eauto.
      eapply Permutation_in; [apply Permutation_sym|]; eauto. }
    destruct (candidates_member_die _ _ _ _ _ _ _ Hc Hinc)
      as (d' & l & Hd' & Hl & Hil).
    pose proof (list_remove_perm _ _ _ Hr) as P1.
    assert (Hd2 : In d ds2).
    { eapply Permutation_in; [exact P|]. eapply Permutation_in;
        [apply Permutation_sym; exact P1|]. now left. }
    destruct (list_remove_present _ _ Hd2) as (ds2' & Er2).
    pose proof (list_remove_perm _ _ _ Er2) as P2.
    eapply plays_move; eauto.
    + apply Hm2. exists d', l. split; auto.
      eapply Permutation_in; eauto.
    + apply IH. eapply Permutation_cons_inv.
      rewrite <- P1, <- P2. exact P.
Qed.

(** The routes that [generate_all_routes] returns do not depend on the
    order in which the dice are given: two calls on the same board with
    dice lists that are permutations of each other return the same routes
    (possibly in another order). *)
Theorem dice_order_is_irrelevant b p ds ds2 h rs h1 rs2 h2 bd :
  Permutation ds ds2 ->
  nth_error h b = Some bd ->
  generate_all_routes b p ds h = (Ok rs, h1) ->
  generate_all_routes b p ds2 h = (Ok rs2, h2) ->
  forall r, In r rs <-> In r rs2.
Proof.
  intros P Hb E1 E2 [ms].
  rewrite (routes_iff_plays _ _ _ _ _ _ _ E1 Hb ms).
  rewrite (routes_iff_plays _ _ _ _ _ _ _ E2 Hb ms).
  split; intros H; eapply plays_perm; eauto. now apply Permutation_sym.
Qed.

Lemma dice_order_is_irrelevant_witness :
  In (mkRoute [mkMove 10 7 3])
     [mkRoute [mkMove 10 7 3];
      mkRoute [mkMove 10 5 5; mkMove 20 17 3];
      mkRoute [mkMove 20 17 3; mkMove 10 5 5];
      mkRoute [mkMove 20 17 3; mkMove 17 12 5]]
  <-> In (mkRoute [mkMove 10 7 3])
         [mkRoute [mkMove 10 5 5; mkMove 20 17 3];
          mkRoute [mkMove 10 7 3];
          mkRoute [mkMove 20 17 3; mkMove 10 5 5];
          mkRoute [mkMove 20 17 3; mkMove 17 12 5]].
Proof.
  apply (dice_order_is_irrelevant 0%nat WHITE [3; 5] [5; 3] [detour_board]
           _ (snd (generate_all_routes 0%nat WHITE [3; 5] [detour_board]))
           _ (snd (generate_all_routes 0%nat WHITE [5; 3] [detour_board]))
           detour_board).
  - apply perm_swap.
  - reflexivity.
  - vm_compute. reflexivity.
  - vm_compute. reflexivity.
Defined.

(* ------------------------------------------------------------------ *)
(** ** Points and single moves: round trips and failures *)

(** Adding [n >= 1] checkers of [o] to a point that is empty or owned by
    [o] and then removing [n] gives the point back; removing [n] from a
    point of [o] that holds at least [n] and then adding them gives the
    point back; removing more than the point holds raises [ValueError] and
    leaves the point as it is. *)
Theorem point_add_remove_round_trip :
  (forall pt o n,
     point_inv pt = true -> 0 < n ->
     owner pt = None \/ owner pt = Some o ->
     (Point_.add o n ;;; Point_.remove n)%mut pt = (Ok tt, pt))
  /\ (forall pt o n,
        point_inv pt = true -> 0 < n <= checkers pt -> owner pt = Some o ->
        (Point_.remove n ;;; Point_.add o n)%mut pt = (Ok tt, pt))
  /\ (forall pt n,
        checkers pt < n -> Point_.remove n pt = (Raise ValueError, pt)).
Proof.
  split; [|split].
  - intros [c ow] o n P Hn Ho. unfold bind, Point_.add, Point_.remove.
    unfold point_inv in P. simpl in *.
    destruct Ho as [->| ->]; simpl.
    + apply andb_true_iff in P as [_ P]. apply Z.eqb_eq in P. subst c.
      destruct (Z.ltb_spec n n); [lia|]. rewrite Z.sub_diag. reflexivity.
    + assert (Player_eqb o o = true) as -> by now destruct o. simpl.
      apply andb_true_iff in P as [P1 P2]. apply Z.leb_le in P1.
      apply negb_true_iff, Z.eqb_neq in P2.
      destruct (Z.ltb_spec (c + n) n); [lia|].
      replace (c + n - n) with c by lia.
      destruct (Z.eqb_spec c 0); [lia|reflexivity].
  - intros [c ow] o n P Hn Ho. unfold bind, Point_.add, Point_.remove.
    simpl in *. subst ow.
    destruct (Z.ltb_spec c n); [lia|]. simpl.
    destruct (Z.eqb_spec (c - n) 0) as [E|E]; simpl.
    + replace n with c by lia. reflexivity.
    + assert (Player_eqb o o = true) as -> by now destruct o. simpl.
      replace (c - n + n) with c by lia. reflexivity.
  - intros pt n H. unfold Point_.remove.
    destruct (Z.ltb_spec (checkers pt) n); [reflexivity|lia].
Qed.

Lemma point_add_remove_round_trip_witness :
  (Point_.add WHITE 2 ;;; Point_.remove 2)%mut (mkPoint 3 (Some WHITE))
  = (Ok tt, mkPoint 3 (Some WHITE)).
Proof.
  apply (proj1 point_add_remove_round_trip (mkPoint 3 (Some WHITE)) WHITE 2).
  - reflexivity.
  - lia.
  - now right.
Defined.

Lemma at_point_out_of_range {A} (m : M Point A) b i :
  slots28 b -> i < -28 \/ 28 <= i -> at_point i m b = (Raise IndexError, b).
Proof.
  intros L H.
  assert (E : py_index (points b) i = None).
  { unfold py_index. rewrite L. change (Z.of_nat 28) with 28.
    bool_cases; simpl; try reflexivity; lia. }
  unfold at_point. now rewrite E.
Qed.

(** [apply_single_move] fails before it touches the board when the origin
    holds no checker ([ValueError]) or is no index of the board
    ([IndexError]). *)
Theorem move_from_nowhere_fails b p s e :
  slots28 b ->
  (0 <= s < 28 -> checkers (pocket b s) < 1 ->
   apply_single_move p s e b = (Raise ValueError, b))
  /\ (s < -28 \/ 28 <= s ->
      apply_single_move p s e b = (Raise IndexError, b)).
Proof.
  intros L. split.
  - intros Hs Hc. unfold apply_single_move. rewrite bind_run.
    rewrite remove_at by assumption.
    destruct (Z.ltb_spec (checkers (pocket b s)) 1); [reflexivity|lia].
  - intros Hs. unfold apply_single_move. rewrite bind_run.
    now rewrite at_point_out_of_range.
Qed.

Lemma move_from_nowhere_fails_witness :
  apply_single_move WHITE 0 22 standard_setup
  = (Raise ValueError, standard_setup)
  /\ apply_single_move WHITE 28 22 standard_setup
     = (Raise IndexError, standard_setup).
Proof.
  split.
  - apply (proj1 (move_from_nowhere_fails standard_setup WHITE 0 22
                    eq_refl)); [lia|simpl; lia].
  - apply (proj2 (move_from_nowhere_fails standard_setup WHITE 28 22
                    eq_refl)).
    right. lia.
Defined.

(** On a board of the data model, a target that [legal_single_targets]
    gives can be applied whenever the origin holds a checker, which it
    does for every origin but an empty bar: [apply_single_move] returns
    normally (the [RuntimeError] for a blocked point is never raised) and
    the result is a board of the data model; from an empty bar it raises
    [ValueError] and leaves the board as it is. *)
Theorem filtered_moves_apply b p s ds l d e :
  wf_board b = true ->
  legal_single_targets b p s ds = Ok l -> In (d, e) l ->
  (s <> bar_index p \/ 0 < checkers (pocket b (bar_index p)) ->
   exists b', apply_single_move p s e b = (Ok tt, b')
              /\ wf_board b' = true)
  /\ (s = bar_index p -> checkers (pocket b (bar_index p)) = 0 ->
      apply_single_move p s e b = (Raise ValueError, b)).
Proof.
  intros W Hl Hin.
  pose proof (legal_single_targets_sound _ _ _ _ _ _ _ (wf_slots28 _ W) Hl Hin)
    as Hm.
  destruct (apply_legal_move b p s e W Hm) as (r & b' & E & (W' & _) & _ & Hr).
  split.
  - intros Hs. exists b'. split; [|exact W'].
    destruct (Z.ltb_spec (checkers (pocket b s)) 1) as [Hc|Hc].
    + exfalso. destruct Hm as (_ & [->|(_ & _ & Hpos)] & _); [|lia].
      destruct Hs as [Hs|Hs]; [congruence|lia].
    + now rewrite E, Hr.
  - intros -> Hc. rewrite Hc in Hr. simpl in Hr. destruct Hr as [-> ->].
    exact E.
Qed.

Lemma filtered_moves_apply_witness :
  exists b', apply_single_move WHITE 24 21 standard_setup = (Ok tt, b')
             /\ wf_board b' = true.
Proof.
  apply (proj1 (filtered_moves_apply standard_setup WHITE 24 [3; 1]
                  [(3, 21); (1, 23)] 3 21 eq_refl eq_refl
                  (or_introl eq_refl))).
  left. simpl. lia.
Defined.

(* ------------------------------------------------------------------ *)
(** ** The features of the two evaluators *)

Lemma fold_left_pointwise {A B} (f g : A -> B -> A) l :
  (forall a x, f a x = g a x) ->
  forall a, fold_left f l a = fold_left g l a.
Proof.
  intros H. induction l as [|x l IH]; intros a; simpl; auto.
  now rewrite H, IH.
Qed.

(** The copies of the board features in [ai_fuzzy.py] compute what the
    methods of [Evaluator] compute, on every board and for both players:
    pip count, blots, anchors, home progress, and the (White-indexed) bar
    and off-tray counts. *)
Theorem fuzzy_features_agree_with_evaluator {F} `{Arith F} b p :
  Fuzzy.pip_count b p = Evaluator.pip_count b p
  /\ Fuzzy.blot_count b p = Evaluator.blot_count b p
  /\ Fuzzy.anchor_count b p = Evaluator.anchor_count b p
  /\ Fuzzy.on_bar b p = Evaluator.count_on_bar b p
  /\ Fuzzy.borne_off b p = Evaluator.count_borne_off b p
  /\ Fuzzy.home_progress b p = Evaluator.home_progress (F := F) b p.
Proof.
  split; [|split; [|split; [|split; [|split]]]]; try reflexivity.
  - unfold Fuzzy.pip_count, Evaluator.pip_count.
    apply fold_left_pointwise. intros a [i pt]. now destruct p.
  - unfold Fuzzy.blot_count, Evaluator.blot_count.
    apply fold_left_pointwise. intros a [i pt].
    now destruct (on_board i), (owner_is pt p), (checkers pt =? 1).
  - unfold Fuzzy.anchor_count, Evaluator.anchor_count.
    apply fold_left_pointwise. intros a [i pt].
    now destruct (on_board i), (owner_is pt p), (2 <=? checkers pt).
Qed.

Lemma in_enumerate_from {A} (l : list A) s i x :
  In (i, x) (enumerate_from s l) -> In x l.
Proof.
  revert s; induction l as [|y l IH]; intros s; simpl; [tauto|].
  intros [E|Hin]; [inversion E; auto|eauto].
Qed.

Lemma home_sums_bounds b me :
  Forall (fun pt => 0 <= checkers pt) (points b) ->
  0 <= snd (Evaluator.home_sums b me) <= fst (Evaluator.home_sums b me).
Proof.
  intros Hpos. unfold Evaluator.home_sums, enumerate.
  assert (G : forall l (ti : Z * Z),
             (forall i pt, In (i, pt) l -> 0 <= checkers pt) ->
             0 <= snd ti <= fst ti ->
             0 <= snd (fold_left
                         (fun (ti : Z * Z) (ip : Z * Point) =>
                            let (total_, inside) := ti in
                            let (i, pt) := ip in
                            if owner_is pt me then
                              (total_ + checkers pt,
                               if in_home_range me i
                                  || (i =? match me with WHITE => 25 | BLACK => 0 end)
                               then inside + checkers pt else inside)
                            else ti) l ti)
             <= fst (fold_left
                       (fun (ti : Z * Z) (ip : Z * Point) =>
                          let (total_, inside) := ti in
                          let (i, pt) := ip in
                          if owner_is pt me then
                            (total_ + checkers pt,
                             if in_home_range me i
                                || (i =? match me with WHITE => 25 | BLACK => 0 end)
                             then inside + checkers pt else inside)
                          else ti) l ti)).
  { induction l as [|[i pt] l IH]; intros [t n] Hl Hti; simpl; auto.
    apply IH; [intros; eapply Hl; right; eauto|].
    pose proof (Hl i pt (or_introl eq_refl)).
    destruct (owner_is pt me); simpl in *; auto.
    destruct (_ || _); simpl; lia. }
  apply G; [|simpl; lia].
  intros i pt Hin. apply in_enumerate_from in Hin.
  rewrite Forall_forall in Hpos. now apply Hpos.
Qed.

(** With depth 0 [pick_best_route] returns no route: the score is the
    evaluation of the current position and [debug] counts one node and one
    leaf. *)
Theorem pick_best_route_depth_zero randint_1_6 random_random fuel e w wd rs v :
  Engine_.generate_routes e = Ok rs ->
  Evaluator.evaluate (board e) (turn e) w = Ok v ->
  pick_best_route randint_1_6 random_random (S fuel) e 0 w wd
  = (Ok (None, v), mkWorld (draws wd) (mkDebug 1 1 [])).
Proof.
  intros Hr Hv. unfold pick_best_route. simpl.
  unfold bind, count_node, count_leaf, modify, lift, ret, _terminal_eval,
    set_best_line.
  simpl. rewrite Hr. simpl. rewrite Hv. reflexivity.
Qed.

Lemma pick_best_route_depth_zero_witness :
  pick_best_route (fun _ => 0) (fun _ => 0%float) 1
    (mkEngine standard_setup WHITE [3; 1]) 0 DEFAULT_WEIGHTS
    (mkWorld 0 (mkDebug 0 0 []))
  = (Ok (None, 0%float), mkWorld 0 (mkDebug 1 1 [])).
Proof.
  destruct (Engine_.generate_routes (mkEngine standard_setup WHITE [3; 1]))
    as [rs|] eqn:E; [|vm_compute in E; discriminate].
  apply (pick_best_route_depth_zero (fun _ => 0) (fun _ => 0%float) 0
           (mkEngine standard_setup WHITE [3; 1]) DEFAULT_WEIGHTS
           (mkWorld 0 (mkDebug 0 0 [])) rs 0%float E).
  vm_compute. reflexivity.
Defined.

(* ------------------------------------------------------------------ *)
(** ** Membership functions and home progress in exact arithmetic *)

Section AiExact.
Local Open Scope Q_scope.

Lemma int_pos (z : Z) : (0 < z)%Z -> 0 < (int z : Q).
Proof. intros H. unfold int, Qlt. simpl. lia. Qed.

Lemma int_le (y z : Z) : (y <= z)%Z -> (int y : Q) <= int z.
Proof. intros H. unfold int, Qle. simpl. lia. Qed.

Lemma home_progress_exact b me :
  Forall (fun pt => (0 <= checkers pt)%Z) (points b) ->
  exists v : Q,
    Evaluator.home_progress b me = Ok v
    /\ Fuzzy.home_progress b me = Ok v
    /\ 0 <= v /\ v <= 1.
Proof.
  intros Hpos. pose proof (home_sums_bounds b me Hpos) as Hb.
  change (Fuzzy.home_progress b me) with (Evaluator.home_progress (F := Q) b me).
  unfold Evaluator.home_progress.
  destruct (Evaluator.home_sums b me) as [t n]. simpl in Hb.
  destruct (Z.eqb_spec t 0) as [->|Ht].
  - exists (int 1). repeat split; unfold int; simpl; lra.
  - rewrite fdiv_exact by (apply int_pos; lia).
    eexists. split; [reflexivity|]. split; [reflexivity|].
    apply degree_quotient.
    + apply (int_le 0 n). lia.
    + apply int_le. lia.
    + apply int_pos. lia.
Qed.

(** Read over exact arithmetic, [home_progress] returns a fraction between
    0 and 1 on every board whose counts are not negative, without dividing
    by zero; the copy in [ai_fuzzy.py] returns the same. *)
Theorem home_progress_is_a_fraction b me :
  Forall (fun pt => (0 <= checkers pt)%Z) (points b) ->
  exists v : Q,
    Evaluator.home_progress b me = Ok v
    /\ Fuzzy.home_progress b me = Ok v
    /\ 0 <= v /\ v <= 1.
Proof. apply home_progress_exact. Qed.

Lemma home_progress_is_a_fraction_witness :
  exists v : Q,
    Evaluator.home_progress standard_setup WHITE = Ok v
    /\ Fuzzy.home_progress standard_setup WHITE = Ok v
    /\ 0 <= v /\ v <= 1.
Proof.
  apply (home_progress_is_a_fraction standard_setup WHITE).
  repeat constructor; simpl; lia.
Defined.

(** Read over exact arithmetic, the triangular membership function with
    [a < b < c] returns a degree between 0 and 1 that is 0 outside
    [(a, c)], 1 at the peak [b] and positive inside [(a, c)]. *)
Theorem tri_shape (x a b c : Q) :
  a < b -> b < c ->
  exists v,
    Fuzzy.tri x a b c = Ok v
    /\ 0 <= v /\ v <= 1
    /\ (x <= a \/ c <= x -> v == 0)
    /\ (x == b -> v == 1)
    /\ (a < x /\ x < c -> 0 < v).
Proof.
  intros Hab Hbc. pose proof eps_pos as He. unfold Fuzzy.tri. simpl.
  destruct (Qle_bool x a) eqn:E1; simpl.
  { apply Qle_bool_iff in E1. exists (int 0).
    repeat split; unfold int; simpl; try lra; intros; lra. }
  destruct (Qle_bool c x) eqn:E2; simpl.
  { apply Qle_bool_iff in E2. exists (int 0).
    repeat split; unfold int; simpl; try lra; intros; lra. }
  apply Qle_bool_false in E1, E2.
  destruct (Qeq_bool x b) eqn:E3.
  { exists (int 1). repeat split; unfold int; simpl; try lra; intros; lra. }
  apply Qeq_bool_neq in E3.
  destruct (Qle_bool b x) eqn:E4; simpl.
  - apply Qle_bool_iff in E4.
    rewrite fdiv_exact by lra. eexists; split; [reflexivity|].
    assert (D : degree ((c - x) / (c - b + lit 1 1000000000)))
      by (apply degree_quotient; lra).
    destruct D as [D0 D1].
    repeat split; auto; try (intros; lra).
    intros _. apply Qlt_shift_div_l; lra.
  - apply Qle_bool_false in E4.
    rewrite fdiv_exact by lra. eexists; split; [reflexivity|].
    assert (D : degree ((x - a) / (b - a + lit 1 1000000000)))
      by (apply degree_quotient; lra).
    destruct D as [D0 D1].
    repeat split; auto; try (intros; lra).
    intros _. apply Qlt_shift_div_l; lra.
Qed.

Lemma tri_shape_witness :
  exists v,
    Fuzzy.tri (3#1) (2#1) (6#1) (10#1) = Ok v
    /\ 0 <= v /\ v <= 1
    /\ (3#1 <= 2#1 \/ 10#1 <= 3#1 -> v == 0)
    /\ (3#1 == 6#1 -> v == 1)
    /\ (2#1 < 3#1 /\ 3#1 < 10#1 -> 0 < v).
Proof.
  apply (tri_shape (3#1) (2#1) (6#1) (10#1)); reflexivity.
Defined.

(** Read over exact arithmetic, the trapezoidal membership function with
    [a <= b <= c <= d] returns a degree between 0 and 1 that is 0 outside
    [(a, d)], 1 on the part of the plateau [[b, c]] inside [(a, d)] and
    positive inside [(a, d)]. *)
Theorem trap_shape (x a b c d : Q) :
  a <= b -> b <= c -> c <= d ->
  exists v,
    Fuzzy.trap x a b c d = Ok v
    /\ 0 <= v /\ v <= 1
    /\ (x <= a \/ d <= x -> v == 0)
    /\ (a < x /\ x < d /\ b <= x /\ x <= c -> v == 1)
    /\ (a < x /\ x < d -> 0 < v).
Proof.
  intros Hab Hbc Hcd. pose proof eps_pos as He. unfold Fuzzy.trap. simpl.
  destruct (Qle_bool x a) eqn:E1; simpl.
  { apply Qle_bool_iff in E1. exists (int 0).
    repeat split; unfold int; simpl; try lra; intros; lra. }
  destruct (Qle_bool d x) eqn:E2; simpl.
  { apply Qle_bool_iff in E2. exists (int 0).
    repeat split; unfold int; simpl; try lra; intros; lra. }
  apply Qle_bool_false in E1, E2.
  destruct (Qle_bool b x && Qle_bool x c) eqn:E3.
  { exists (int 1). repeat split; unfold int; simpl; try lra; intros; lra. }
  assert (Hnp : ~ (b <= x /\ x <= c)).
  { intros [H1 H2]. apply Qle_bool_iff in H1, H2. rewrite H1, H2 in E3.
    discriminate. }
  destruct (Qle_bool x a) eqn:E5; simpl.
  { apply Qle_bool_iff in E5. lra. }
  destruct (Qle_bool b x) eqn:E4; simpl.
  - apply Qle_bool_iff in E4. simpl in E3. apply Qle_bool_false in E3.
    rewrite fdiv_exact by lra. eexists; split; [reflexivity|].
    assert (D : degree ((d - x) / (d - c + lit 1 1000000000)))
      by (apply degree_quotient; lra).
    destruct D as [D0 D1].
    repeat split; auto; try (intros; lra).
    intros _. apply Qlt_shift_div_l; lra.
  - apply Qle_bool_false in E4.
    rewrite fdiv_exact by lra. eexists; split; [reflexivity|].
    assert (D : degree ((x - a) / (b - a + lit 1 1000000000)))
      by (apply degree_quotient; lra).
    destruct D as [D0 D1].
    repeat split; auto; try (intros; lra).
    intros _. apply Qlt_shift_div_l; lra.
Qed.

Lemma trap_shape_witness :
  exists v,
    Fuzzy.trap 0 (-5#10) 0 0 (5#10) = Ok v
    /\ 0 <= v /\ v <= 1
    /\ (0 <= -5#10 \/ 5#10 <= 0 -> v == 0)
    /\ (-5#10 < 0 /\ 0 < 5#10 /\ 0 <= 0 /\ 0 <= 0 -> v == 1)
    /\ (-5#10 < 0 /\ 0 < 5#10 -> 0 < v).
Proof.
  apply (trap_shape 0 (-5#10) 0 0 (5#10)); discriminate.
Defined.

(* ------------------------------------------------------------------ *)
(** ** The fuzzy player picks a best route *)

Lemma plays_wf p bd ds ms :
  plays p bd ds ms -> wf_board bd = true ->
  forall bd' ds', replay p ms bd ds = Ok (bd', ds') -> wf_board bd' = true.
Proof.
  induction 1 as [bd|bd ds Hne Hst|bd ds starts st cands d e bd' ds' ms
                     Hs Hin Hc Hinc Ha Hr Hp IH]; simpl; intros W b2 d2 E.
  - now inversion E; subst.
  - now inversion E; subst.
  - rewrite Ha, Hr in E. simpl in E.
    apply (IH) with (ds' := d2); auto.
    destruct (candidates_member_target _ _ _ _ _ _ _ Hc Hinc)
      as (d' & l & Hl & Hil).
    now destruct (legal_move_step _ _ _ _ _ _ _ _ _ W Hl Hil Ha)
      as ((W' & _) & _).
Qed.

Lemma on_bar_returns b p :
  slots28 b -> exists n, Fuzzy.on_bar b p = Ok n.
Proof.
  intros L. unfold Fuzzy.on_bar.
  rewrite getitem_pocket by (auto; destruct p; lia). simpl. eauto.
Qed.

Lemma borne_off_returns b p :
  slots28 b -> exists n, Fuzzy.borne_off b p = Ok n.
Proof.
  intros L. unfold Fuzzy.borne_off.
  rewrite getitem_pocket by (auto; destruct p; lia). simpl. eauto.
Qed.

Lemma wf_counts b :
  wf_board b = true -> Forall (fun pt => (0 <= checkers pt)%Z) (points b).
Proof.
  intros W. apply Forall_forall. intros pt Hin.
  apply (wf_In b) in Hin; auto. apply point_inv_iff in Hin. tauto.
Qed.

Lemma features_returns e rs r :
  wf_board (board e) = true ->
  Engine_.generate_routes e = Ok rs -> In r rs ->
  exists f : Fuzzy.RouteFeatures Q, Fuzzy.extract_route_features e r = Ok f.
Proof.
  intros W E Hin. unfold Engine_.generate_routes in E.
  destruct (generate_all_routes _ _ _ _) as [x h'] eqn:Eg. simpl in E.
  subst x.
  pose proof (generated_route_plays _ _ _ _ _ _ (board e) r Eg eq_refl Hin)
    as Hp.
  destruct (plays_replay _ _ _ _ Hp) as (bd' & ds' & Hr & _).
  pose proof (plays_wf _ _ _ _ Hp W _ _ Hr) as W'.
  apply replay_apply_route in Hr.
  unfold Fuzzy.extract_route_features.
  destruct e as [bd p ds], r as [ms]. simpl in *. rewrite Hr. simpl.
  pose proof (wf_slots28 _ W) as L. pose proof (wf_slots28 _ W') as L'.
  unfold Fuzzy.hits_made.
  destruct (on_bar_returns bd' (opponent p) L') as (n1 & ->).
  destruct (on_bar_returns bd (opponent p) L) as (n2 & ->).
  destruct (on_bar_returns bd' p L') as (n3 & ->).
  destruct (home_progress_exact bd' p (wf_counts _ W')) as (v & _ & -> & _).
  destruct (borne_off_returns bd' p L') as (n4 & ->).
  simpl. eauto.
Qed.

Lemma fuzzy_score_nonneg (f : Fuzzy.RouteFeatures Q) :
  exists s, Fuzzy.fuzzy_score f Fuzzy.DEFAULT_OUT = Ok s /\ 0 <= s.
Proof.
  destruct (rule_activations_exact f) as (p & o & g & E & Dp & Do & Dg).
  pose proof eps_pos as He. unfold degree in *.
  unfold Fuzzy.fuzzy_score. rewrite E. simpl rbind.
  cbn [Fuzzy.out_centers Fuzzy.DEFAULT_OUT].
  rewrite fdiv_exact by lra.
  eexists. split; [reflexivity|].
  apply Qle_shift_div_l; [lra|].
  assert (0 <= (lit 2 10 : Q)) by discriminate.
  assert (0 <= (lit 5 10 : Q)) by discriminate.
  assert (0 <= (lit 85 100 : Q)) by discriminate.
  nra.
Qed.

Lemma route_score_returns e rs r :
  wf_board (board e) = true ->
  Engine_.generate_routes e = Ok rs -> In r rs ->
  exists s, route_score e r = Ok s /\ 0 <= s.
Proof.
  intros W E Hin. unfold route_score.
  destruct (features_returns e rs r W E Hin) as (f & ->). simpl.
  apply fuzzy_score_nonneg.
Qed.

Lemma pick_loop e rs : forall best,
  (forall r, In r rs -> exists s, route_score e r = Ok s /\ 0 <= s) ->
  exists best',
    rfold (fun (best : option TurnRoute * Q) r =>
             (f <- Fuzzy.extract_route_features e r ;;
              s <- Fuzzy.fuzzy_score f Fuzzy.DEFAULT_OUT ;;
              Ok (if (snd best <? s)%fl then (Some r, s) else best))%py)
          rs best = Ok best'
    /\ snd best <= snd best'
    /\ (forall r, In r rs ->
                  exists s, route_score e r = Ok s /\ s <= snd best')
    /\ (best' = best
        \/ exists r, In r rs /\ fst best' = Some r
                     /\ route_score e r = Ok (snd best')).
Proof.
  induction rs as [|r rs IH]; intros best Hs; simpl.
  - exists best. split; [reflexivity|]. split; [lra|]. split; [intros ? []|].
    now left.
  - destruct (Hs r (or_introl eq_refl)) as (s & Es & _).
    unfold route_score in Es.
    destruct (Fuzzy.extract_route_features e r) as [f|] eqn:Ef;
      cbn [rbind] in Es; [|discriminate].
    assert (Er : route_score e r = Ok s)
      by (unfold route_score; now rewrite Ef).
    cbn [rbind]. rewrite Es. cbn [rbind].
    destruct (Qle_bool s (snd best)) eqn:Ec; cbn [negb].
    + apply Qle_bool_iff in Ec.
      destruct (IH best) as (b' & Eb & Hle & Hall & Hsel);
        [intros; apply Hs; now right|].
      exists b'. split; [exact Eb|]. split; [exact Hle|]. split.
      * intros r' [<-|Hin]; auto. exists s. split; auto. lra.
      * destruct Hsel as [->|(r' & Hin & H1 & H2)]; [now left|].
        right. exists r'. auto.
    + apply Qle_bool_false in Ec.
      destruct (IH (Some r, s)) as (b' & Eb & Hle & Hall & Hsel);
        [intros; apply Hs; now right|].
      simpl in Hle.
      exists b'. split; [exact Eb|]. split; [lra|]. split.
      * intros r' [<-|Hin]; auto. exists s. split; auto.
      * right. destruct Hsel as [->|(r' & Hin & H1 & H2)].
        -- exists r. simpl. auto.
        -- exists r'. auto.
Qed.

(** Read over exact arithmetic, on a board of the data model
    [pick_best_route_fuzzy] returns one of the generated routes, never
    [None]: its score is not negative and no generated route scores
    higher. *)
Theorem pick_best_route_fuzzy_picks_a_best_route e :
  wf_board (board e) = true ->
  exists rs r s,
    Engine_.generate_routes e = Ok rs
    /\ Fuzzy.pick_best_route_fuzzy e = Ok (Some r, s)
    /\ In r rs /\ route_score e r = Ok s /\ 0 <= s
    /\ forall r', In r' rs -> exists s', route_score e r' = Ok s' /\ s' <= s.
Proof.
  intros W. destruct (generate_routes_total e W) as (rs & E).
  assert (Hne : rs <> []).
  { unfold Engine_.generate_routes in E.
    destruct (generate_all_routes _ _ _ _) as [x h'] eqn:Eg. simpl in E.
    subst x. eapply generated_routes_some; eauto. }
  assert (Hs : forall r, In r rs -> exists s, route_score e r = Ok s /\ 0 <= s)
    by (intros; eapply route_score_returns; eauto).
  destruct (pick_loop e rs (None, int (-1)) Hs) as (b' & Eb & Hle & Hall & Hsel).
  destruct rs as [|r0 rs0]; [congruence|].
  destruct (Hall r0 (or_introl eq_refl)) as (s0 & Es0 & Hs0).
  destruct (Hs r0 (or_introl eq_refl)) as (s0' & Es0' & Hp0).
  rewrite Es0 in Es0'. inversion Es0'; subst s0'.
  destruct Hsel as [->|(r & Hin & H1 & H2)].
  { simpl in Hs0. unfold int in Hs0. simpl in Hs0. exfalso.
    assert (s0 <= -1 # 1) by exact Hs0. lra. }
  exists (r0 :: rs0), r, (snd b'). split; [exact E|]. split.
  - unfold Fuzzy.pick_best_route_fuzzy. rewrite E. cbn [rbind is_empty].
    destruct b' as [o s]. simpl in H1. subst o. exact Eb.
  - split; [exact Hin|]. split; [exact H2|]. split; [lra|exact Hall].
Qed.

Lemma pick_best_route_fuzzy_picks_a_best_route_witness :
  exists rs r s,
    Engine_.generate_routes opening_roll = Ok rs
    /\ Fuzzy.pick_best_route_fuzzy opening_roll = Ok (Some r, s)
    /\ In r rs
    /\ route_score opening_roll r = Ok s
    /\ 0 <= s
    /\ forall r', In r' rs ->
         exists s', route_score opening_roll r'
                    = Ok s' /\ s' <= s.
Proof.
  apply (pick_best_route_fuzzy_picks_a_best_route opening_roll).
  reflexivity.
Defined.

End AiExact.

(* ------------------------------------------------------------------ *)
(** ** The legality cache of the user interface *)

Lemma flat_map_nil {A B} (l : list A) :
  flat_map (fun _ : A => @nil B) l = [].
Proof. induction l; simpl; auto. Qed.

(** The targets for a list of dice are those for each die, in order. *)
Lemma legal_single_targets_per_die b p s :
  slots28 b ->
  exists g : Z -> list (Z * Z),
    forall ds, legal_single_targets b p s ds = Ok (flat_map g ds).
Proof.
  intros L.
  destruct (s =? bar_index p) eqn:E2.
  { eexists. intros ds. rewrite legal_single_targets_run by assumption.
    rewrite E2. cbn [negb]. rewrite andb_false_r. reflexivity. }
  destruct (0 <? checkers (pocket b (bar_index p))) eqn:E1.
  { exists (fun _ => []). intros ds.
    rewrite legal_single_targets_run by assumption.
    rewrite E2, E1. cbn [negb andb]. now rewrite flat_map_nil. }
  destruct (negb (on_board s)) eqn:E3.
  { exists (fun _ => []). intros ds.
    rewrite legal_single_targets_run by assumption.
    rewrite E2, E1, E3. cbn [negb andb]. now rewrite flat_map_nil. }
  destruct (negb (owner_is (pocket b s) p) || (checkers (pocket b s) <=? 0))
    eqn:E4.
  { exists (fun _ => []). intros ds.
    rewrite legal_single_targets_run by assumption.
    rewrite E2, E1, E3, E4. cbn [negb andb]. now rewrite flat_map_nil. }
  eexists. intros ds.
  rewrite legal_single_targets_run by assumption.
  rewrite E2, E1, E3, E4. cbn [negb andb]. reflexivity.
Qed.

Lemma no_target_iff b p s ds l :
  slots28 b -> legal_single_targets b p s ds = Ok l ->
  (l = [] <-> forall d, In d ds -> legal_single_targets b p s [d] = Ok []).
Proof.
  intros L E. destruct (legal_single_targets_per_die b p s L) as (g & Hg).
  rewrite Hg in E. inversion E; subst; clear E. split.
  - intros H d Hd. rewrite Hg. simpl. rewrite app_nil_r.
    destruct (g d) as [|x xs] eqn:Eg; auto. exfalso.
    assert (Hin : In x (flat_map g ds))
      by (apply in_flat_map; exists d; rewrite Eg; simpl; auto).
    rewrite H in Hin. contradiction.
  - intros H. destruct (flat_map g ds) as [|x xs] eqn:Ef; auto. exfalso.
    assert (Hin : In x (flat_map g ds)) by (rewrite Ef; now left).
    apply in_flat_map in Hin as (d & Hd & Hx).
    specialize (H d Hd). rewrite Hg in H. simpl in H.
    rewrite app_nil_r in H. inversion H as [H']. rewrite H' in Hx.
    contradiction.
Qed.

Lemma assign_not_nil {K V} eqb (k : K) (v : V) d : assign eqb k v d <> [].
Proof. destruct d as [|[k' v'] d]; simpl; [|destruct (eqb k' k)]; discriminate. Qed.

Lemma refresh_start_run s u :
  slots28 (board (eng u)) ->
  exists pairs u',
    legal_single_targets (board (eng u)) (turn (eng u)) s (dice (eng u))
    = Ok pairs
    /\ refresh_start s u = (Ok tt, u')
    /\ eng u' = eng u
    /\ (legal_map u' = [] <-> legal_map u = [] /\ pairs = []).
Proof.
  intros L. unfold refresh_start, Engine_.legal_targets_from.
  destruct (legal_single_targets_total (board (eng u)) (turn (eng u)) s
              (dice (eng u)) L) as (pairs & ->).
  exists pairs. destruct pairs as [|x xs]; simpl.
  - exists u. repeat split; auto; tauto.
  - eexists. split; [reflexivity|]. split; [reflexivity|]. split; auto.
    simpl. split; [|intros [_ H]; discriminate].
    intros H. now apply assign_not_nil in H.
Qed.

Lemma refresh_loop starts : forall u,
  slots28 (board (eng u)) ->
  exists u',
    mfold (fun _ s => refresh_start s) starts tt u = (Ok tt, u')
    /\ eng u' = eng u
    /\ (legal_map u' = [] <->
        legal_map u = []
        /\ forall s, In s starts ->
             legal_single_targets (board (eng u)) (turn (eng u)) s
               (dice (eng u)) = Ok []).
Proof.
  induction starts as [|s starts IH]; intros u L; simpl.
  - exists u. unfold ret. repeat split; auto; tauto.
  - rewrite bind_run.
    destruct (refresh_start_run s u L) as (pairs & u1 & Ep & -> & He & Hm).
    destruct (IH u1) as (u2 & -> & He2 & Hm2); [now rewrite He|].
    exists u2. split; [reflexivity|]. split; [congruence|].
    rewrite Hm2, Hm, He. split.
    + intros [[H1 ->] H2]. split; auto. intros s' [<-|Hin]; auto.
    + intros [H1 H2]. pose proof (H2 s (or_introl eq_refl)) as H3.
      rewrite Ep in H3. inversion H3; subst. auto.
Qed.

Lemma has_any_legal_run u :
  slots28 (board (eng u)) ->
  exists bv u',
    has_any_legal u = (Ok bv, u') /\ eng u' = eng u
    /\ (bv = false <->
        stuck (turn (eng u)) (board (eng u)) (dice (eng u))).
Proof.
  intros L. unfold has_any_legal. rewrite bind_run. unfold refresh_legals.
  rewrite getitem_pocket by (auto using bar_index_range).
  set (starts := if 0 <? checkers (pocket (board (eng u))
                                          (bar_index (turn (eng u))))
                 then [bar_index (turn (eng u))] else all_starts).
  destruct (refresh_loop starts (mkUI (eng u) (selected_start u) [] []) L)
    as (u' & -> & He & Hm). simpl in He, Hm.
  unfold query. do 2 eexists. split; [reflexivity|]. split; [exact He|].
  assert (Hs : starts_of (board (eng u)) (turn (eng u)) = Ok starts).
  { unfold starts_of. now rewrite count_on_bar_pocket by assumption. }
  split.
  - intros Hb. apply negb_false_iff in Hb.
    assert (Hnil : legal_map u' = [])
      by (destruct (legal_map u'); [reflexivity|discriminate]).
    apply Hm in Hnil as [_ Hall].
    exists starts. split; [exact Hs|]. intros st d Hst Hd.
    eapply no_target_iff; eauto.
  - intros (starts' & Hs' & Hst). rewrite Hs in Hs'. inversion Hs'; subst starts'.
    assert (Hnil : legal_map u' = []).
    { apply Hm. split; auto. intros s Hin.
      destruct (legal_single_targets_total (board (eng u)) (turn (eng u)) s
                  (dice (eng u)) L) as (l & El).
      rewrite El. f_equal. eapply no_target_iff; eauto. }
    now rewrite Hnil.
Qed.

(** On a board of the data model, [has_any_legal] of the user interface
    and the route generator agree on when the side to move cannot play:
    [has_any_legal] returns [False] exactly when [generate_routes] returns
    the empty route alone.  It leaves the engine as it is. *)
Theorem has_any_legal_agrees_with_generator u :
  wf_board (board (eng u)) = true ->
  exists bv u' rs,
    has_any_legal u = (Ok bv, u') /\ eng u' = eng u
    /\ Engine_.generate_routes (eng u) = Ok rs
    /\ (bv = false <-> rs = [mkRoute []]).
Proof.
  intros W. pose proof (wf_slots28 _ W) as L.
  destruct (has_any_legal_run u L) as (bv & u' & E & He & Hst).
  destruct (generate_routes_total (eng u) W) as (rs & Er).
  exists bv, u', rs. split; [exact E|]. split; [exact He|].
  split; [exact Er|]. rewrite Hst.
  unfold Engine_.generate_routes in Er.
  destruct (generate_all_routes _ _ _ _) as [x h'] eqn:Eg. simpl in Er.
  subst x.
  destruct (routes_shape _ _ _ _ _ _ (board (eng u)) Eg eq_refl)
    as (_ & _ & H0 & H1).
  destruct (dice (eng u)) as [|d ds] eqn:Ed.
  - split; [intros _; now apply H0|]. intros _.
    exists (if 0 <? checkers (pocket (board (eng u))
                                     (bar_index (turn (eng u))))
            then [bar_index (turn (eng u))] else all_starts).
    split; [|intros st d _ []].
    unfold starts_of. now rewrite count_on_bar_pocket by assumption.
  - apply H1. discriminate.
Qed.

Lemma has_any_legal_agrees_with_generator_witness :
  exists bv u' rs,
    has_any_legal (mkUI opening_roll None [] []) = (Ok bv, u')
    /\ eng u' = opening_roll
    /\ Engine_.generate_routes opening_roll = Ok rs
    /\ (bv = false <-> rs = [mkRoute []]).
Proof.
  apply (has_any_legal_agrees_with_generator (mkUI opening_roll None [] [])).
  reflexivity.
Defined.

(* ------------------------------------------------------------------ *)
(** ** Dictionaries and sorting *)

Section Dict.
Context {K V : Type} (eqb : K -> K -> bool).
Hypothesis eqb_eq : forall a b, eqb a b = true <-> a = b.

Lemma lookup_assign_same (k : K) (v : V) d :
  lookup eqb k (assign eqb k v d) = Some v.
Proof.
  assert (R : eqb k k = true) by now apply eqb_eq.
  induction d as [|[k' v'] d IH]; simpl; [now rewrite R|].
  destruct (eqb k' k) eqn:E; simpl; now rewrite E.
Qed.

Lemma lookup_assign_other (k k' : K) (v : V) d :
  k' <> k -> lookup eqb k' (assign eqb k v d) = lookup eqb k' d.
Proof.
  intros N.
  assert (R : eqb k k' = false).
  { destruct (eqb k k') eqn:E; auto. apply eqb_eq in E. congruence. }
  induction d as [|[k0 v0] d IH]; simpl; [now rewrite R|].
  destruct (eqb k0 k) eqn:E; simpl.
  - apply eqb_eq in E. subst k0. now rewrite R.
  - now rewrite IH.
Qed.
End Dict.

Lemma pair_eqb_eq a b : pair_eqb a b = true <-> a = b.
Proof.
  destruct a as [a1 a2], b as [b1 b2]. unfold pair_eqb. simpl.
  rewrite andb_true_iff, !Z.eqb_eq. split; [intros [-> ->]|intros H; inversion H];
    auto.
Qed.

Lemma in_insert_sorted x y l : In y (insert_sorted x l) <-> y = x \/ In y l.
Proof.
  induction l as [|z l IH]; simpl; [intuition|].
  destruct (x <=? z); simpl; [intuition|]. rewrite IH. intuition.
Qed.

Lemma in_sorted y l : In y (sorted l) <-> In y l.
Proof.
  unfold sorted. induction l as [|x l IH]; simpl; [tauto|].
  rewrite in_insert_sorted, IH. intuition.
Qed.

Lemma insert_sorted_increasing x l :
  ~ In x l -> StronglySorted Z.lt l -> StronglySorted Z.lt (insert_sorted x l).
Proof.
  intros N S. induction S as [|z l S IH F]; simpl.
  - repeat constructor.
  - destruct (Z.leb_spec x z) as [H|H].
    + assert (x < z) by (simpl in N; lia).
      constructor; [constructor; auto|].
      constructor; auto. rewrite Forall_forall in *. intros w Hw.
      specialize (F w Hw). lia.
    + constructor; [apply IH; simpl in N; tauto|].
      rewrite Forall_forall in *. intros w Hw.
      apply in_insert_sorted in Hw as [->|Hw]; auto.
Qed.

Lemma sorted_increasing l : NoDup l -> StronglySorted Z.lt (sorted l).
Proof.
  unfold sorted. induction 1 as [|x l N D IH]; simpl; [constructor|].
  apply insert_sorted_increasing; auto.
  intros H. apply (in_sorted x l) in H. contradiction.
Qed.

(* ------------------------------------------------------------------ *)
(** ** What [refresh_legals] caches *)

Lemma note_targets s pairs : forall td,
  let td' := fold_left (note_target s) pairs td in
  (forall s' e, s' <> s ->
     lookup pair_eqb (s', e) td' = lookup pair_eqb (s', e) td)
  /\ ((forall e, lookup pair_eqb (s, e) td = None) ->
      forall e, smallest_die pairs e (lookup pair_eqb (s, e) td')).
Proof.
  assert (G : forall rest done td,
    (forall e, smallest_die done e (lookup pair_eqb (s, e) td)) ->
    forall e, smallest_die (done ++ rest) e
                (lookup pair_eqb (s, e) (fold_left (note_target s) rest td))).
  { induction rest as [|[d0 e0] rest IH]; intros done td H e; simpl.
    - rewrite app_nil_r. apply H.
    - replace (done ++ (d0, e0) :: rest) with ((done ++ [(d0, e0)]) ++ rest)
        by now rewrite <- app_assoc.
      apply IH. clear e. intros e. unfold note_target.
      pose proof (H e0) as H0. pose proof (H e) as He.
      destruct (Z.eq_dec e e0) as [->|N].
      + destruct (lookup pair_eqb (s, e0) td) as [x|] eqn:El.
        * rewrite (lookup_assign_same pair_eqb pair_eqb_eq). simpl.
          destruct H0 as [Hin Hmin]. split.
          -- apply in_or_app.
             destruct (Z.min_spec x d0) as [[_ ->]|[_ ->]]; [now left|].
             right. now left.
          -- intros d Hd. apply in_app_or in Hd as [Hd|[Hd|[]]].
             ++ specialize (Hmin d Hd). lia.
             ++ inversion Hd; subst. lia.
        * rewrite (lookup_assign_same pair_eqb pair_eqb_eq). simpl. split.
          -- apply in_or_app. right. now left.
          -- intros d Hd. apply in_app_or in Hd as [Hd|[Hd|[]]].
             ++ now apply H0 in Hd.
             ++ inversion Hd; subst. lia.
      + assert (Hk : (s, e) <> (s, e0)) by congruence.
        assert (Hl : forall v,
                  lookup pair_eqb (s, e) (assign pair_eqb (s, e0) v td)
                  = lookup pair_eqb (s, e) td)
          by (intros; now apply (lookup_assign_other pair_eqb pair_eqb_eq)).
        assert (Hsame : forall d, In (d, e) (done ++ [(d0, e0)])
                                  <-> In (d, e) done).
        { intros d. rewrite in_app_iff. simpl. split; [|auto].
          intros [Hd|[Hd|[]]]; auto. inversion Hd; congruence. }
        destruct (lookup pair_eqb (s, e0) td); rewrite Hl;
          destruct (lookup pair_eqb (s, e) td); simpl in *.
        all: try (destruct He as [Hi Hm]; split;
                  [now apply Hsame|intros d Hd; apply Hm; now apply Hsame]).
        all: intros d Hd; apply Hsame in Hd; now apply He in Hd. }
  intros td td'. split.
  - subst td'. revert td. induction pairs as [|[d0 e0] pairs IH]; intros td s' e N;
      simpl; auto.
    rewrite IH by assumption. unfold note_target.
    assert (Hk : (s', e) <> (s, e0)) by congruence.
    destruct (lookup pair_eqb (s, e0) td);
      now apply (lookup_assign_other pair_eqb pair_eqb_eq).
  - intros Hnone e. subst td'. apply (G pairs [] td).
    intros e'. rewrite Hnone. simpl. auto.
Qed.

Lemma refresh_start_spec s u :
  slots28 (board (eng u)) ->
  exists u',
    refresh_start s u = (Ok tt, u')
    /\ eng u' = eng u /\ selected_start u' = selected_start u
    /\ lookup Z.eqb s (legal_map u')
       = (if is_empty (targets_of (eng u) s) then lookup Z.eqb s (legal_map u)
          else Some (sorted (nodup Z.eq_dec (map snd (targets_of (eng u) s)))))
    /\ (forall s', s' <> s ->
          lookup Z.eqb s' (legal_map u') = lookup Z.eqb s' (legal_map u)
          /\ forall e, lookup pair_eqb (s', e) (target_die u')
                       = lookup pair_eqb (s', e) (target_die u))
    /\ ((forall e, lookup pair_eqb (s, e) (target_die u) = None) ->
        forall e, smallest_die (targets_of (eng u) s) e
                    (lookup pair_eqb (s, e) (target_die u'))).
Proof.
  intros L. unfold refresh_start, targets_of, Engine_.legal_targets_from.
  destruct (legal_single_targets_total (board (eng u)) (turn (eng u)) s
              (dice (eng u)) L) as (pairs & ->).
  destruct pairs as [|x xs]; cbn [is_empty].
  - exists u. repeat split; auto.
    intros H e. rewrite H. simpl. auto.
  - eexists. split; [reflexivity|]. cbn [eng selected_start legal_map target_die].
    split; [reflexivity|]. split; [reflexivity|].
    destruct (note_targets s (x :: xs) (target_die u)) as [Ho Hs].
    split; [apply (lookup_assign_same Z.eqb Z.eqb_eq)|]. split.
    + intros s' N. split; [now apply (lookup_assign_other Z.eqb Z.eqb_eq)|].
      intros e. now apply Ho.
    + exact Hs.
Qed.

Lemma all_starts_nodup : NoDup all_starts.
Proof.
  unfold all_starts. apply Finite.Injective_map_NoDup; [|apply seq_NoDup].
  intros a b. apply Nat2Z.inj.
Qed.

Lemma refresh_loop_spec e sel starts :
  slots28 (board e) -> NoDup starts ->
  exists u',
    mfold (fun _ s => refresh_start s) starts tt (mkUI e sel [] [])
    = (Ok tt, u')
    /\ cached e sel starts tt u'.
Proof.
  intros L N.
  destruct (refresh_loop starts (mkUI e sel [] []) L) as (u' & E & _).
  exists u'. split; [exact E|].
  apply (mfold_invariant (cached e sel)) in E; auto.
  - intros done s rest [] u1 [] u2 Hs (He & Hsel & Hout & Hin) Est.
    assert (Hnew : ~ In s done).
    { rewrite Hs in N. apply NoDup_remove_2 in N. intros H. apply N.
      apply in_or_app. now left. }
    destruct (refresh_start_spec s u1) as (u3 & E3 & He3 & Hs3 & Hl & Ho & Ht);
      [now rewrite He|].
    rewrite E3 in Est. inversion Est; subst u3. clear Est.
    rewrite He in *. destruct (Hout s Hnew) as [Hn1 Hn2].
    split; [exact He3|]. split; [congruence|]. split.
    + intros s' Hs'. assert (s' <> s /\ ~ In s' done) as [Hne Hnd].
      { split; intros H; apply Hs'; apply in_or_app; [right; left; auto|now left]. }
      destruct (Ho s' Hne) as [-> Htd]. destruct (Hout s' Hnd) as [-> Hn].
      split; auto. intros x. now rewrite Htd.
    + intros s' Hs'. apply in_app_or in Hs' as [Hd|[<-|[]]].
      * assert (Hne : s' <> s) by (intros ->; contradiction).
        destruct (Ho s' Hne) as [-> Htd]. destruct (Hin s' Hd) as [-> Hsm].
        split; auto. intros x. now rewrite Htd.
      * rewrite Hl, Hn1. split; [reflexivity|]. now apply Ht.
  - repeat split; auto; contradiction.
Qed.

(** On a board of 28 pockets [refresh_legals] returns normally, leaves the
    engine and the selection as they are, and caches the legal targets of
    the origins that may move (the bar slot when the bar is occupied, the
    points 1 to 24 otherwise): [legal_map] lists for an origin exactly the
    ends of its targets, in increasing order and without repetition, and
    has no entry for an origin without targets; [target_die] holds for an
    origin and an end the smallest die that reaches it. *)
Theorem refresh_legals_caches_the_targets u :
  slots28 (board (eng u)) ->
  exists u' starts,
    refresh_legals u = (Ok tt, u')
    /\ eng u' = eng u /\ selected_start u' = selected_start u
    /\ starts_of (board (eng u)) (turn (eng u)) = Ok starts
    /\ (forall s l, lookup Z.eqb s (legal_map u') = Some l ->
                    l <> [] /\ StronglySorted Z.lt l)
    /\ (forall s x,
          In x (match lookup Z.eqb s (legal_map u') with
                | Some l => l
                | None => []
                end)
          <-> In s starts /\ exists d, In (d, x) (targets_of (eng u) s))
    /\ (forall s x m,
          lookup pair_eqb (s, x) (target_die u') = Some m
          <-> In s starts /\ In (m, x) (targets_of (eng u) s)
              /\ forall d, In (d, x) (targets_of (eng u) s) -> m <= d).
Proof.
  intros L. unfold refresh_legals.
  rewrite getitem_pocket by (auto using bar_index_range).
  set (starts := if 0 <? checkers (pocket (board (eng u))
                                          (bar_index (turn (eng u))))
                 then [bar_index (turn (eng u))] else all_starts).
  assert (N : NoDup starts).
  { subst starts. destruct (0 <? _); [|apply all_starts_nodup].
    constructor; [intros []|constructor]. }
  destruct (refresh_loop_spec (eng u) (selected_start u) starts L N)
    as (u' & E & He & Hsel & Hout & Hin).
  exists u', starts. split; [exact E|]. split; [exact He|].
  split; [exact Hsel|]. split.
  { unfold starts_of. now rewrite count_on_bar_pocket by assumption. }
  assert (Hends : forall s x,
            In x (sorted (nodup Z.eq_dec (map snd (targets_of (eng u) s))))
            <-> exists d, In (d, x) (targets_of (eng u) s)).
  { intros s x. rewrite in_sorted, nodup_In, in_map_iff. split.
    - intros ([d x'] & Hx & Hi). simpl in Hx. subst x'. eauto.
    - intros (d & Hd). exists (d, x). auto. }
  split; [|split].
  - intros s l Hl. destruct (in_dec Z.eq_dec s starts) as [Hs|Hs].
    + destruct (Hin s Hs) as [Hlm _]. rewrite Hlm in Hl.
      destruct (is_empty (targets_of (eng u) s)) eqn:Ee; [discriminate|].
      inversion Hl; subst l. split.
      * assert (Hex : exists d x, In (d, x) (targets_of (eng u) s)).
        { destruct (targets_of (eng u) s) as [|[d x] t]; [discriminate|].
          exists d, x. now left. }
        destruct Hex as (d & x & Hd). intros Hnil.
        assert (Hx : In x (sorted (nodup Z.eq_dec
                                     (map snd (targets_of (eng u) s)))))
          by (apply Hends; eauto).
        rewrite Hnil in Hx. contradiction.
      * apply sorted_increasing, NoDup_nodup.
    + destruct (Hout s Hs) as [Hlm _]. congruence.
  - intros s x. destruct (in_dec Z.eq_dec s starts) as [Hs|Hs].
    + destruct (Hin s Hs) as [-> _].
      destruct (is_empty (targets_of (eng u) s)) eqn:Ee.
      * split; [contradiction|]. intros (_ & d & Hd).
        destruct (targets_of (eng u) s); [contradiction|discriminate].
      * rewrite Hends. tauto.
    + destruct (Hout s Hs) as [-> _]. split; [contradiction|tauto].
  - intros s x m. destruct (in_dec Z.eq_dec s starts) as [Hs|Hs].
    + destruct (Hin s Hs) as [_ Hsm]. specialize (Hsm x).
      destruct (lookup pair_eqb (s, x) (target_die u')) as [m'|];
        simpl in Hsm.
      * destruct Hsm as [Hi Hm]. split.
        -- intros H; inversion H; subst. auto.
        -- intros (_ & Hi' & Hm'). f_equal.
           specialize (Hm m Hi'). specialize (Hm' m' Hi). lia.
      * split; [discriminate|]. intros (_ & Hi & _). now apply Hsm in Hi.
    + destruct (Hout s Hs) as [_ Hn]. rewrite Hn.
      split; [discriminate|tauto].
Qed.

Lemma refresh_legals_caches_the_targets_witness :
  exists u' starts,
    refresh_legals (mkUI opening_roll None [] []) = (Ok tt, u')
    /\ eng u' = opening_roll /\ selected_start u' = None
    /\ starts_of (board opening_roll) (turn opening_roll) = Ok starts
    /\ (forall s l, lookup Z.eqb s (legal_map u') = Some l ->
                    l <> [] /\ StronglySorted Z.lt l)
    /\ (forall s x,
          In x (match lookup Z.eqb s (legal_map u') with
                | Some l => l
                | None => []
                end)
          <-> In s starts /\ exists d, In (d, x) (targets_of opening_roll s))
    /\ (forall s x m,
          lookup pair_eqb (s, x) (target_die u') = Some m
          <-> In s starts /\ In (m, x) (targets_of opening_roll s)
              /\ forall d, In (d, x) (targets_of opening_roll s) -> m <= d).
Proof.
  apply (refresh_legals_caches_the_targets (mkUI opening_roll None [] [])).
  reflexivity.
Defined.

(* ------------------------------------------------------------------ *)
(** ** The static evaluation in exact arithmetic *)

Section EvalExact.
Local Open Scope Q_scope.

Lemma int_sub (y z : Z) : (int (y - z) : Q) == int y - int z.
Proof. unfold int, Qeq, Qminus, Qplus, Qopp. simpl. lia. Qed.

Lemma blockade_loop b me l : forall (sc : Q) (run : Z),
  slots28 b -> (forall i, In i l -> (1 <= i <= 24)%Z) ->
  0 <= sc -> (0 <= run)%Z ->
  exists sc' run',
    rfold (fun (sr : Q * Z) i =>
             let (score, run) := sr in
             (pt <- getitem (points b) i ;;
              Ok (if owner_is pt me && (2 <=? checkers pt)%Z
                  then ((score + lit 5 10 * int (run + 1))%fl, (run + 1)%Z)
                  else (score, 0%Z)))%py) l (sc, run)
    = Ok (sc', run')
    /\ sc <= sc' /\ (0 <= run')%Z
    /\ (sc' == sc <->
        forall i, In i l ->
          owner_is (pocket b i) me && (2 <=? checkers (pocket b i))%Z = false).
Proof.
  induction l as [|i l IH]; intros sc run L Hl Hs Hr; simpl.
  - exists sc, run. split; [reflexivity|]. split; [lra|]. split; [lia|].
    split; [intros _ ? []|reflexivity].
  - pose proof (Hl i (or_introl eq_refl)) as Hi.
    rewrite getitem_pocket by (auto; lia). simpl.
    destruct (owner_is (pocket b i) me && (2 <=? checkers (pocket b i))%Z)
      eqn:Em.
    + assert (Hstep : sc < sc + lit 5 10 * int (run + 1)).
      { assert (0 < (int (run + 1) : Q)) by (apply int_pos; lia).
        assert (0 < (lit 5 10 : Q)) by reflexivity. nra. }
      destruct (IH (sc + lit 5 10 * int (run + 1)) (run + 1)%Z L
                  (fun j Hj => Hl j (or_intror Hj)))
        as (sc' & run' & E & Hle & Hr' & _); [lra|lia|].
      exists sc', run'. split; [exact E|]. split; [lra|]. split; [exact Hr'|].
      split.
      * intros H. lra.
      * intros H. specialize (H i (or_introl eq_refl)). congruence.
    + destruct (IH sc 0%Z L (fun j Hj => Hl j (or_intror Hj)))
        as (sc' & run' & E & Hle & Hr' & Hz); [lra|lia|].
      exists sc', run'. split; [exact E|]. split; [exact Hle|].
      split; [exact Hr'|]. rewrite Hz. split.
      * intros H j [<-|Hj]; auto.
      * intros H j Hj. apply H. now right.
Qed.

Lemma blockade_score_exact b me :
  slots28 b ->
  exists v : Q,
    Evaluator.blockade_score b me = Ok v /\ 0 <= v
    /\ (v == 0 <->
        forall i, (1 <= i <= 24)%Z ->
          owner_is (pocket b i) me && (2 <=? checkers (pocket b i))%Z = false).
Proof.
  intros L. unfold Evaluator.blockade_score.
  destruct (blockade_loop b me (map Z.of_nat (seq 1 24)) (int 0) 0%Z L)
    as (sc' & run' & E & Hle & _ & Hz).
  - intros i Hi. apply in_map_iff in Hi as (k & <- & Hk).
    apply in_seq in Hk. lia.
  - unfold int. simpl. lra.
  - lia.
  - rewrite E. simpl. exists sc'. split; [reflexivity|].
    assert (H0 : (int 0 : Q) == 0) by reflexivity.
    split; [lra|]. rewrite <- H0 at 1. rewrite Hz. split.
    + intros H i Hi. apply H. apply in_map_iff. exists (Z.to_nat i).
      split; [lia|]. apply in_seq. lia.
    + intros H i Hi. apply H. apply in_map_iff in Hi as (k & <- & Hk).
      apply in_seq in Hk. lia.
Qed.

(** Read over exact arithmetic, [blockade_score] returns on every board of
    28 pockets a score that is never negative and is zero exactly when the
    player holds no point with two or more checkers. *)
Theorem blockade_score_is_zero_without_made_points b me :
  slots28 b ->
  exists v : Q,
    Evaluator.blockade_score b me = Ok v /\ 0 <= v
    /\ (v == 0 <->
        forall i, (1 <= i <= 24)%Z ->
          owner_is (pocket b i) me && (2 <=? checkers (pocket b i))%Z = false).
Proof. apply blockade_score_exact. Qed.

Lemma blockade_score_is_zero_without_made_points_witness :
  exists v : Q,
    Evaluator.blockade_score standard_setup WHITE = Ok v /\ 0 <= v
    /\ (v == 0 <->
        forall i, (1 <= i <= 24)%Z ->
          owner_is (pocket standard_setup i) WHITE
          && (2 <=? checkers (pocket standard_setup i))%Z = false).
Proof.
  apply (blockade_score_is_zero_without_made_points standard_setup WHITE).
  reflexivity.
Defined.

Lemma evaluator_counts_return b p :
  slots28 b ->
  (exists n, Evaluator.count_on_bar b p = Ok n)
  /\ (exists n, Evaluator.count_borne_off b p = Ok n).
Proof.
  intros L. unfold Evaluator.count_on_bar, Evaluator.count_borne_off.
  rewrite !getitem_pocket by (auto; destruct p; lia). simpl. eauto.
Qed.

(** Read over exact arithmetic, on a board of the data model the static
    evaluation returns a score for either side, and the two scores cancel
    except for the bar terms: their sum is [bar_penalty + opp_bar_pressure]
    times the sum of the two bar features.  The search negates the score of
    the other side as if the sum were zero. *)
Theorem evaluation_is_zero_sum_up_to_bars b me (w : EvalWeights Q) :
  wf_board b = true ->
  exists v v' n n',
    Evaluator.evaluate b me w = Ok v
    /\ Evaluator.evaluate b (opponent me) w = Ok v'
    /\ Evaluator.count_on_bar b me = Ok n
    /\ Evaluator.count_on_bar b (opponent me) = Ok n'
    /\ v + v' == (bar_penalty w + opp_bar_pressure w) * (int n + int n').
Proof.
  intros W. pose proof (wf_slots28 _ W) as L.
  pose proof (wf_counts _ W) as C.
  assert (Hop : opponent (opponent me) = me) by now destruct me.
  destruct (evaluator_counts_return b me L) as [(n & En) (o & Eo)].
  destruct (evaluator_counts_return b (opponent me) L) as [(n' & En') (o' & Eo')].
  destruct (home_progress_exact b me C) as (h & Eh & _).
  destruct (home_progress_exact b (opponent me) C) as (h' & Eh' & _).
  destruct (blockade_score_exact b me L) as (k & Ek & _).
  destruct (blockade_score_exact b (opponent me) L) as (k' & Ek' & _).
  unfold Evaluator.evaluate. rewrite Hop.
  rewrite En, En', Eo, Eo', Eh, Eh', Ek, Ek'. cbn [rbind].
  do 4 eexists. split; [reflexivity|]. split; [reflexivity|].
  split; [reflexivity|]. split; [reflexivity|].
  cbn [fadd fsub fmul fneg exact_arith].
  rewrite !int_sub.
  assert (H0 : (int 0 : Q) == 0) by reflexivity. rewrite H0.
  ring.
Qed.

Lemma evaluation_is_zero_sum_up_to_bars_witness :
  exists v v' n n',
    Evaluator.evaluate sample_board WHITE DEFAULT_WEIGHTS = Ok v
    /\ Evaluator.evaluate sample_board (opponent WHITE) DEFAULT_WEIGHTS = Ok v'
    /\ Evaluator.count_on_bar sample_board WHITE = Ok n
    /\ Evaluator.count_on_bar sample_board (opponent WHITE) = Ok n'
    /\ v + v' == (bar_penalty DEFAULT_WEIGHTS + opp_bar_pressure DEFAULT_WEIGHTS)
                 * (int n + int n').
Proof.
  apply (evaluation_is_zero_sum_up_to_bars sample_board WHITE DEFAULT_WEIGHTS).
  reflexivity.
Defined.

End EvalExact.

(* ------------------------------------------------------------------ *)
(** ** Simulating a route *)

(** Simulating a generated route on a clone never fails: the clone has
    the board that replaying the route gives, the opponent to move and no
    dice; from a reachable board the board of the clone is reachable. *)
Theorem simulated_route_hands_over_the_turn e rs r :
  Engine_.generate_routes e = Ok rs -> In r rs ->
  exists e2 unused,
    _apply_route_on_clone e r = Ok e2
    /\ replay (turn e) (moves r) (board e) (dice e) = Ok (board e2, unused)
    /\ turn e2 = opponent (turn e) /\ dice e2 = []
    /\ (reachable (board e) -> reachable (board e2)).
Proof.
  intros E Hin. unfold Engine_.generate_routes in E.
  destruct (generate_all_routes _ _ _ _) as [x h'] eqn:Eg. simpl in E.
  subst x.
  pose proof (generated_route_plays _ _ _ _ _ _ (board e) r Eg eq_refl Hin)
    as Hp.
  destruct (plays_replay _ _ _ _ Hp) as (bd' & ds' & Hr & Hl).
  pose proof (replay_apply_route _ _ _ _ _ _ Hr) as Ha.
  exists (mkEngine bd' (opponent (turn e)) []), ds'.
  split.
  - destruct e as [bd p ds], r as [ms]. simpl in *.
    unfold _apply_route_on_clone. rewrite bind_run, Ha. reflexivity.
  - split; [exact Hr|]. split; [reflexivity|]. split; [reflexivity|].
    intros R. simpl. eapply plays_reachable; eauto.
Qed.

Lemma simulated_route_hands_over_the_turn_witness :
  exists e2 unused,
    _apply_route_on_clone (mkEngine standard_setup WHITE [1])
                          (mkRoute [mkMove 24 23 1]) = Ok e2
    /\ replay WHITE [mkMove 24 23 1] standard_setup [1]
       = Ok (board e2, unused)
    /\ turn e2 = BLACK /\ dice e2 = []
    /\ (reachable standard_setup -> reachable (board e2)).
Proof.
  eapply (simulated_route_hands_over_the_turn
            (mkEngine standard_setup WHITE [1]) _ (mkRoute [mkMove 24 23 1])).
  - vm_compute. reflexivity.
  - simpl. auto.
Defined.

(* ------------------------------------------------------------------ *)
(** ** The pip count along a move *)

Lemma pip_fold_shift me l : forall s a,
  fold_left
    (fun pip (ip : Z * Point) =>
       let (i, pt) := ip in
       if owner_is pt me && on_board i then
         match me with
         | WHITE => pip + i * checkers pt
         | BLACK => pip + (25 - i) * checkers pt
         end
       else pip) (enumerate_from s l) a
  = a + fold_right (fun ip n => pip_share me (fst ip) (snd ip) + n) 0
          (enumerate_from s l).
Proof.
  induction l as [|x l IH]; intros s a; simpl; [lia|].
  rewrite IH. unfold pip_share at 2. simpl.
  destruct (owner_is x me && on_board s); [destruct me|]; lia.
Qed.

Lemma pip_share_list_set me (k : nat) x l : forall s,
  (k < length l)%nat ->
  fold_right (fun ip n => pip_share me (fst ip) (snd ip) + n) 0
    (enumerate_from s (list_set k x l))
  = fold_right (fun ip n => pip_share me (fst ip) (snd ip) + n) 0
      (enumerate_from s l)
    - pip_share me (s + Z.of_nat k) (nth k l (mkPoint 0 None))
    + pip_share me (s + Z.of_nat k) x.
Proof.
  revert k; induction l as [|y l IH]; intros k s Hk; simpl in *; [lia|].
  destruct k as [|k]; simpl.
  - replace (s + 0) with s by lia. lia.
  - rewrite IH by lia.
    replace (s + 1 + Z.of_nat k) with (s + Z.pos (Pos.of_succ_nat k)) by lia.
    lia.
Qed.

Lemma pip_set_pocket b i pt me :
  slots28 b -> 0 <= i < 28 ->
  Evaluator.pip_count (set_pocket b i pt) me
  = Evaluator.pip_count b me - pip_share me i (pocket b i) + pip_share me i pt.
Proof.
  intros L H. unfold Evaluator.pip_count, enumerate, set_pocket, pocket.
  simpl. rewrite !pip_fold_shift, pip_share_list_set by (rewrite L; lia).
  rewrite Z2Nat.id by lia. simpl. lia.
Qed.

Ltac finish_pip :=
  eexists; split; [reflexivity|]; split;
  [ rewrite !pip_set_pocket by (auto using set_pocket_slots28; lia);
    pockets; unfold pip_share, pip_value, on_board;
    own_cases; bool_cases; try lia
  | rewrite !pip_set_pocket by (auto using set_pocket_slots28; lia);
    pockets; unfold pip_share, pip_value, on_board;
    own_cases; bool_cases; try lia ].

Ltac land_pip e :=
  cbv beta iota; rewrite bind_run; unfold query at 1; cbv beta iota;
  rewrite getitem_pocket by (auto using set_pocket_slots28; lia);
  pockets;
  repeat match goal with
         | |- context [?a =? ?b] =>
             destruct (Z.eqb_spec a b); [try contradiction; try lia|try lia]
         end;
  cbn [owner];
  rewrite add_at by (auto using set_pocket_slots28; lia);
  pockets;
  repeat match goal with
         | |- context [?a =? ?b] =>
             destruct (Z.eqb_spec a b); [try contradiction; try lia|try lia]
         end;
  cbn [owner checkers];
  finish_pip.

Lemma apply_legal_move_pip b p s e :
  wf_board b = true -> legal_move b p s e -> 1 <= checkers (pocket b s) ->
  exists b',
    apply_single_move p s e b = (Ok tt, b')
    /\ Evaluator.pip_count b' p
       = Evaluator.pip_count b p - pip_value p s + pip_value p e
    /\ Evaluator.pip_count b' (opponent p)
       = Evaluator.pip_count b (opponent p)
         - (if owner_is (pocket b e) (opponent p)
               && (checkers (pocket b e) =? 1) && on_board e
            then pip_value (opponent p) e else 0).
Proof.
  intros W (Hbar & Hs & He) Hc. pose proof (wf_slots28 _ W) as L.
  assert (Rs : 0 <= s < 28 /\ s <> 25 /\ s <> 27).
  { destruct Hs as [->|(Hs & _)]; [destruct p; simpl; lia|].
    apply on_board_range in Hs; lia. }
  pose proof (off_index_range p) as Ro.
  pose proof (bar_index_range (opponent p)) as Rb.
  unfold apply_single_move. rewrite bind_run, remove_at by (auto; lia).
  destruct (Z.ltb_spec (checkers (pocket b s)) 1) as [Hc'|_]; [lia|].
  cbv beta iota.
  point_facts b s PI SO.
  assert (Hps : owner (pocket b s) = Some p).
  { destruct Hs as [->|(_ & Hs & _)].
    - rewrite slot_ok_bar in SO. clear - SO PI Hc.
      own_cases; bool_cases; lia.
    - clear - Hs. own_cases. }
  assert (Hsb' : s = bar_index p \/ on_board s = true)
    by (destruct Hs as [->|(Hs & _)]; auto).
  remember (mkPoint _ _) as pt1 eqn:E1 in |- *.
  assert (PI1 : point_inv pt1 = true) by (subst pt1; own_cases; bool_cases).
  assert (O1 : owner pt1 = None \/ owner pt1 = owner (pocket b s))
    by (subst pt1; simpl; destruct (_ =? _); auto).
  assert (C1 : checkers pt1 = checkers (pocket b s) - 1) by now subst pt1.
  clear E1 SO.
  destruct He as [(-> & Hns & _) | (Hon & Hblk)].
  - (* bearing off *)
    rewrite Z.eqb_refl.
    destruct Hs as [Hs|(Hs & Hown & _)]; [contradiction|].
    pose proof (proj1 (on_board_range s) Hs) as Hr.
    rewrite add_at by (auto using set_pocket_slots28, off_index_range; lia).
    point_facts b (off_index p) PIo SOo.
    pockets.
    assert (Hso : s <> off_index p) by (destruct p; simpl; lia).
    destruct (Z.eqb_spec s (off_index p)) as [|_]; [contradiction|].
    rewrite slot_ok_off in SOo.
    destruct (owner (pocket b (off_index p))) as [o'|] eqn:Eo.
    + assert (o' = p) as ->.
      { unfold owner_is in SOo. rewrite Eo in SOo. now destruct o', p. }
      replace (negb (Player_eqb p p)) with false by now destruct p.
      finish_pip.
    + finish_pip.
  - (* moving to a board point *)
    pose proof (proj1 (on_board_range e) Hon) as Hr.
    assert (Heo : e <> off_index p) by (destruct p; simpl; lia).
    destruct (Z.eqb_spec e (off_index p)) as [|_]; [contradiction|].
    point_facts b e PIe SOe. point_facts b (bar_index (opponent p)) PIb SOb.
    rewrite slot_ok_bar in SOb.
    rewrite bind_run. unfold query at 1. cbv beta iota.
    rewrite can_hit_pocket by (auto using set_pocket_slots28; lia).
    pockets.
    assert (Hbe : s = bar_index p -> s <> e) by (destruct p; simpl; lia).
    destruct (Z.eqb_spec s e) as [<-|Hse].
    + (* a die of zero: the checker lands where it left *)
      replace (owner_is pt1 (opponent p)) with false
        by (own_cases; bool_cases; try lia).
      rewrite bind_run. unfold ret at 1. cbn [andb]. cbv beta iota.
      rewrite bind_run. unfold query at 1. cbv beta iota.
      rewrite getitem_pocket by (auto using set_pocket_slots28; lia).
      pockets. rewrite Z.eqb_refl.
      destruct (owner pt1) as [o|] eqn:Eo.
      * replace (Player_eqb o p) with true by (own_cases; bool_cases; try lia).
        rewrite add_at by (auto using set_pocket_slots28; lia).
        pockets. rewrite Z.eqb_refl, Eo.
        replace (negb (Player_eqb o p)) with false
          by (own_cases; bool_cases; try lia).
        finish_pip.
      * rewrite add_at by (auto using set_pocket_slots28; lia).
        pockets. rewrite Z.eqb_refl, Eo.
        finish_pip.
    + assert (Heb : e <> bar_index (opponent p)) by (destruct p; simpl; lia).
      assert (Hsb : s <> bar_index (opponent p)).
      { intros ->. clear - SOb Hps. own_cases. }
      destruct (Z.eqb_spec s e) as [|_]; [contradiction|].
      destruct (owner_is (pocket b e) (opponent p)
                && (checkers (pocket b e) =? 1)) eqn:Hhit.
      * (* a hit: the blot goes to its owner's bar *)
        apply andb_true_iff in Hhit as [Ho Hc1]. apply Z.eqb_eq in Hc1.
        rewrite bind_run, bind_run.
        rewrite remove_at by (auto using set_pocket_slots28; lia).
        pockets.
        destruct (Z.eqb_spec s e) as [|_]; [contradiction|].
        rewrite Hc1. cbn [Z.ltb Z.compare Pos.compare Pos.compare_cont].
        cbv beta iota.
        change (mkPoint (1 - 1) (if 1 - 1 =? 0 then None
                                 else owner (pocket b e)))
          with (mkPoint 0 None).
        rewrite add_at by (auto using set_pocket_slots28; lia).
        pockets.
        destruct (Z.eqb_spec e (bar_index (opponent p))) as [|_];
          [contradiction|].
        destruct (Z.eqb_spec s (bar_index (opponent p))) as [|_];
          [contradiction|].
        assert (Hob : owner (pocket b (bar_index (opponent p))) = None \/
                      owner (pocket b (bar_index (opponent p)))
                      = Some (opponent p)).
        { clear - SOb. own_cases; auto. }
        destruct Hob as [Hob|Hob]; rewrite Hob.
        -- land_pip e.
        -- replace (negb (Player_eqb (opponent p) (opponent p))) with false
             by now destruct p.
           land_pip e.
      * (* an empty or own point *)
        assert (Hoe : owner (pocket b e) = None \/
                      owner (pocket b e) = Some p).
        { clear - Hblk Hhit PIe. own_cases; bool_cases; auto; lia. }
        rewrite bind_run. unfold ret at 1. cbv beta iota.
        rewrite bind_run. unfold query at 1. cbv beta iota.
        rewrite getitem_pocket by (auto using set_pocket_slots28; lia).
        pockets.
        destruct (Z.eqb_spec s e) as [|_]; [contradiction|].
        destruct Hoe as [Hoe|Hoe]; rewrite Hoe.
        -- rewrite add_at by (auto using set_pocket_slots28; lia).
           pockets.
           destruct (Z.eqb_spec s e) as [|_]; [contradiction|].
           rewrite Hoe. finish_pip.
        -- replace (Player_eqb p p) with true by now destruct p.
           rewrite add_at by (auto using set_pocket_slots28; lia).
           pockets.
           destruct (Z.eqb_spec s e) as [|_]; [contradiction|].
           rewrite Hoe.
           replace (negb (Player_eqb p p)) with false by now destruct p.
           finish_pip.
Qed.
Lemma target_steps b p s ds l d e :
  slots28 b -> legal_single_targets b p s ds = Ok l -> In (d, e) l ->
  steps_to p s d e.
Proof.
  intros L H Hin. rewrite legal_single_targets_run in H by assumption.
  inversion H; subst; clear H. unfold steps_to.
  destruct (_ && _); [contradiction|].
  destruct (s =? bar_index p).
  { apply in_collect in Hin as (x & _ & Hx).
    now apply entry_target_spec in Hx as (_ & -> & _). }
  destruct (negb (on_board s)); [contradiction|].
  destruct (_ || _); [contradiction|].
  apply in_collect in Hin as (x & _ & Hx).
  apply point_target_spec in Hx as (_ & [(Ho & _ & ->)|(-> & Ho & _)]); auto.
Qed.

(** On a board of the data model, applying a target that
    [legal_single_targets] gives from an origin that holds a checker
    changes the pip counts of the evaluator as follows.  A move between
    two board points lowers the mover's count by exactly the die; entering
    from the bar raises it by 25 minus the die, because a checker on the
    bar counts no pips; bearing off lowers it by the pips of the origin.
    The opponent's count changes only on a hit, where it drops by the pips
    of the blot. *)
Theorem move_changes_pip_count b p s ds l d e :
  wf_board b = true ->
  legal_single_targets b p s ds = Ok l -> In (d, e) l ->
  1 <= checkers (pocket b s) ->
  exists b' hit,
    apply_single_move p s e b = (Ok tt, b')
    /\ can_hit b e p = Ok hit
    /\ Evaluator.pip_count b' p
       = Evaluator.pip_count b p - pip_value p s + pip_value p e
    /\ (on_board s = true -> on_board e = true ->
        Evaluator.pip_count b' p = Evaluator.pip_count b p - d)
    /\ (s = bar_index p ->
        Evaluator.pip_count b' p = Evaluator.pip_count b p + (25 - d))
    /\ Evaluator.pip_count b' (opponent p)
       = Evaluator.pip_count b (opponent p)
         - (if hit then pip_value (opponent p) e else 0).
Proof.
  intros W Hl Hin Hc. pose proof (wf_slots28 _ W) as L.
  pose proof (legal_single_targets_sound _ _ _ _ _ _ _ L Hl Hin) as Hm.
  pose proof (target_steps _ _ _ _ _ _ _ L Hl Hin) as Hst.
  destruct (apply_legal_move_pip b p s e W Hm Hc) as (b' & Ea & Hp & Ho).
  exists b',
    (owner_is (pocket b e) (opponent p) && (checkers (pocket b e) =? 1)
     && on_board e).
  split; [exact Ea|]. split.
  { unfold can_hit. destruct (on_board e) eqn:Hon; simpl.
    - apply on_board_range in Hon.
      rewrite getitem_pocket by (auto; lia). simpl. now rewrite andb_true_r.
    - now rewrite andb_false_r. }
  split; [exact Hp|]. split; [|split; [|exact Ho]].
  - intros Hs He. rewrite Hp. unfold steps_to in Hst.
    apply on_board_range in Hs as Hs'. apply on_board_range in He as He'.
    destruct (Z.eqb_spec s (bar_index p)) as [->|_];
      [exfalso; destruct p; simpl in Hs'; lia|].
    destruct Hst as [(_ & ->)|(-> & _)];
      [|rewrite off_index_not_on_board in He; discriminate].
    unfold pip_value. rewrite Hs, He. destruct p; cbn [dir]; lia.
  - intros ->. rewrite Hp. unfold steps_to in Hst.
    rewrite Z.eqb_refl in Hst. subst e.
    destruct Hm as (_ & _ & [(He & C & _)|(He & _)]); [congruence|].
    unfold pip_value. rewrite He.
    replace (on_board (bar_index p)) with false by now destruct p.
    destruct p; cbn [entry_point]; lia.
Qed.

Lemma move_changes_pip_count_witness :
  exists b' hit,
    apply_single_move WHITE 24 21 standard_setup = (Ok tt, b')
    /\ can_hit standard_setup 21 WHITE = Ok hit
    /\ Evaluator.pip_count b' WHITE
       = Evaluator.pip_count standard_setup WHITE - pip_value WHITE 24
         + pip_value WHITE 21
    /\ (on_board 24 = true -> on_board 21 = true ->
        Evaluator.pip_count b' WHITE
        = Evaluator.pip_count standard_setup WHITE - 3)
    /\ (24 = bar_index WHITE ->
        Evaluator.pip_count b' WHITE
        = Evaluator.pip_count standard_setup WHITE + (25 - 3))
    /\ Evaluator.pip_count b' (opponent WHITE)
       = Evaluator.pip_count standard_setup (opponent WHITE)
         - (if hit then pip_value (opponent WHITE) 21 else 0).
Proof.
  apply (move_changes_pip_count standard_setup WHITE 24 [3; 1]
           [(3, 21); (1, 23)] 3 21).
  - reflexivity.
  - reflexivity.
  - simpl. auto.
  - simpl. lia.
Defined.

(* ------------------------------------------------------------------ *)
(** ** The minimax player picks a generated route *)

Lemma mloop_preserved {S A B} (I : B -> Prop)
    (body : B -> A -> M S (B * bool)) l :
  (forall x a st r st',
     In x l -> I a -> body a x st = (Ok r, st') -> I (fst r)) ->
  forall acc s acc' s',
    I acc -> mloop body l acc s = (Ok acc', s') -> I acc'.
Proof.
  induction l as [|x l IH]; intros Hb acc s acc' s' Hi E; simpl in E.
  - now inversion E; subst.
  - rewrite bind_run in E.
    destruct (body acc x s) as [[r|e] st] eqn:Eb; [|discriminate].
    assert (Hr : I (fst r)) by (eapply Hb; eauto; now left).
    destruct (snd r).
    + now inversion E; subst.
    + eapply IH; [| |exact E]; auto.
      intros; eapply Hb; eauto. now right.
Qed.

Ltac step_bind H :=
  rewrite bind_run in H;
  match type of H with
  | match ?m with _ => _ end = _ =>
      let a := fresh "a" in
      let x := fresh "x" in
      let s := fresh "s" in
      let E := fresh "E" in
      destruct m as [[a|x] s] eqn:E; [|discriminate]
  end.

Section MinimaxLine.
Variable randint_1_6 : nat -> Z.
Variable random_random : nat -> float.

Lemma minimax_line fuel e depth eval_fn alpha beta w v line w' :
  minimax randint_1_6 random_random fuel e depth eval_fn alpha beta w
  = (Ok (v, line), w') ->
  exists rs,
    Engine_.generate_routes e = Ok rs
    /\ (line = [] \/ exists r rest, line = r :: rest /\ In r rs).
Proof.
  destruct fuel as [|fuel]; simpl; [discriminate|]. intros E.
  step_bind E. step_bind E. unfold lift in E1. inversion E1; subst s0.
  rename a0 into rs. exists rs. split; [assumption|].
  destruct ((depth =? 0) || is_empty rs).
  { step_bind E. step_bind E. inversion E; subst. now left. }
  step_bind E. inversion E; subst; clear E.
  match goal with
  | H : mloop _ _ _ _ = _ |- _ => revert H
  end.
  apply (mloop_preserved
           (fun st => best_line_ st = []
                      \/ exists r rest, best_line_ st = r :: rest /\ In r rs));
    [|now left].
  clear. intros r st t [st' brk] t' Hr Hi Eb. simpl.
  step_bind Eb. step_bind Eb. step_bind Eb. step_bind Eb.
  destruct a2 as [[score line] beta'].
  step_bind Eb. inversion Eb; subst; clear Eb. simpl.
  assert (Hl : line = [] \/ exists rest, line = r :: rest).
  { destruct (is_empty a1 || (depth - 1 =? 0)).
    - step_bind E2. inversion E2; subst. right. eauto.
    - step_bind E2. inversion E2; subst; clear E2.
      match goal with
      | H : mloop _ _ _ _ = _ |- _ => revert H
      end.
      apply (mloop_preserved
               (fun inn => worst_reply_line inn = []
                           \/ exists rest, worst_reply_line inn = r :: rest));
        [|now left].
      intros oroute inn u [inn' brk'] u' _ Hinn Ei. simpl.
      step_bind Ei. step_bind Ei. step_bind Ei.
      inversion Ei; subst; clear Ei. simpl.
      match goal with
      | |- context [if ?c then _ else inn] => destruct c
      end; simpl; [right; eauto|exact Hinn]. }
  match goal with
  | |- context [if ?c then _ else _] => destruct c
  end; simpl.
  - destruct Hl as [->|(rest & ->)]; [now left|right; eauto].
  - exact Hi.
Qed.

(** Whatever the depth, the weights and the random draws, when
    [pick_best_route] returns a route it is one of the routes that
    [generate_routes] returns for the engine, so that [apply_route] applies
    it without raising. *)
Theorem pick_best_route_picks_a_generated_route
    fuel e depth weights w r score w' :
  pick_best_route randint_1_6 random_random fuel e depth weights w
  = (Ok (Some r, score), w') ->
  exists rs e',
    Engine_.generate_routes e = Ok rs /\ In r rs
    /\ Engine_.apply_route r e = (Ok tt, e').
Proof.
  unfold pick_best_route. intros E.
  step_bind E. destruct a as [v line]. step_bind E.
  inversion E as [[Hh Hv Hw]]. simpl in Hh.
  destruct (minimax_line _ _ _ _ _ _ _ _ _ _ E0) as (rs & Er & Hl).
  destruct Hl as [->|(r0 & rest & -> & Hin)]; [discriminate|].
  simpl in Hh. inversion Hh; subst r0.
  exists rs. pose proof Er as Er'.
  unfold Engine_.generate_routes in Er.
  destruct (generate_all_routes _ _ _ _) as [x h'] eqn:Eg. simpl in Er.
  subst x.
  pose proof (generated_route_plays _ _ _ _ _ _ (board e) r Eg eq_refl Hin)
    as Hp.
  destruct (plays_replay _ _ _ _ Hp) as (bd' & ds' & Hr & _).
  apply replay_apply_route in Hr.
  exists (mkEngine bd' (turn e) ds'). split; [exact Er'|]. split; [exact Hin|].
  destruct e as [bd p ds], r as [ms]. exact Hr.
Qed.

End MinimaxLine.

Lemma pick_best_route_picks_a_generated_route_witness :
  exists r score w',
    pick_best_route Z.of_nat (fun _ => 0%float) 2
      opening_roll 1 DEFAULT_WEIGHTS
      (mkWorld 0 (mkDebug 0 0 []))
    = (Ok (Some r, score), w')
    /\ exists rs e',
         Engine_.generate_routes opening_roll
         = Ok rs
         /\ In r rs
         /\ Engine_.apply_route r opening_roll
            = (Ok tt, e').
Proof.
  assert (E : exists r score w',
             pick_best_route Z.of_nat (fun _ => 0%float) 2
               opening_roll 1 DEFAULT_WEIGHTS
               (mkWorld 0 (mkDebug 0 0 []))
             = (Ok (Some r, score), w')).
  { vm_compute. do 3 eexists. reflexivity. }
  destruct E as (r & score & w' & E). exists r, score, w'.
  split; [exact E|].
  exact (pick_best_route_picks_a_generated_route _ _ _ _ _ _ _ _ _ _ E).
Defined.
